(** * sitemap-diff: the snapshot/diff engine, the feed registry, the
      passes over the sources and the statistics, embedded from the
      TypeScript sources

    - [services/xml-parser.ts]  : [extractURLs], [extractURLsWithLastMod],
                                  [isValidSitemap]
    - [services/rss-manager.ts] : [getFeeds], [downloadSitemap], [addFeed],
                                  [removeFeed], [compareSitemaps],
                                  [getSitemapContent]
    - [apps/telegram-bot.ts]    : [extractKeywordsWithCount],
                                  [extractDomainStats], [extractKeywords],
                                  the loop of [handleNewsCommand], the
                                  domains of [sendUnifiedReport]
    - [apps/discord-bot.ts]     : [extractKeywords]
    - [index.ts]                : [initializeApp], the loop of
                                  [performScheduledMonitoring]
    - [config.ts]               : [initConfig], [validateConfig]

    The first part of the file holds the definitions, the second part the
    lemmas and the theorems about them. *)

From Stdlib Require Import NArith List Ascii String DecimalString Lia Sorted.
From stdpp Require Import base decidable option list numbers countable gmap.

Local Open Scope N_scope.
Local Open Scope list_scope.
Local Set Warnings "-register-all".

(* ===================================================================== *)
(** * Part I: definitions *)
(* ===================================================================== *)

(** ** JavaScript strings

    A JavaScript string is a finite sequence of UTF-16 code units; it is
    modelled as a list of code units, so that [length], [trim], [.] in a
    regular expression and [toLowerCase] see the units the engine sees. *)

Abbreviation jsstring := (list N).

(** UTF-16 code units of a UTF-8 byte sequence (how the engine reads the
    string literals of the source files). *)
Fixpoint utf16_of_utf8 (bs : list N) : jsstring :=
  match bs with
  | [] => []
  | b0 :: t0 =>
      if b0 <? 128 then b0 :: utf16_of_utf8 t0
      else if b0 <? 224 then
        match t0 with
        | b1 :: t1 => ((b0 - 192) * 64 + (b1 - 128)) :: utf16_of_utf8 t1
        | _ => []
        end
      else if b0 <? 240 then
        match t0 with
        | b1 :: b2 :: t2 =>
            ((b0 - 224) * 4096 + (b1 - 128) * 64 + (b2 - 128))
              :: utf16_of_utf8 t2
        | _ => []
        end
      else
        match t0 with
        | b1 :: b2 :: b3 :: t3 =>
            let cp := (b0 - 240) * 262144 + (b1 - 128) * 4096
                      + (b2 - 128) * 64 + (b3 - 128) in
            (55296 + (cp - 65536) / 1024) :: (56320 + (cp - 65536) mod 1024)
              :: utf16_of_utf8 t3
        | _ => []
        end
  end.

(** [js "text"] is the JavaScript string of a literal of the sources. *)
Definition js (s : string) : jsstring :=
  utf16_of_utf8 ((fun a => N_of_ascii a) <$> list_ascii_of_string s).

(** ECMAScript [LineTerminator]: LF, CR, LS and PS. *)
Definition isLineTerminator (c : N) : bool :=
  (c =? 10) || (c =? 13) || (c =? 8232) || (c =? 8233).

(** ECMAScript [WhiteSpace]: TAB, VT, FF, ZWNBSP and the code points of the
    Unicode category Zs. *)
Definition isWhiteSpace (c : N) : bool :=
  (c =? 9) || (c =? 11) || (c =? 12) || (c =? 32) || (c =? 160) ||
  (c =? 5760) || ((8192 <=? c) && (c <=? 8202)) || (c =? 8239) ||
  (c =? 8287) || (c =? 12288) || (c =? 65279).

(** What [String.prototype.trim] strips at both ends. *)
Definition isStrWhiteSpaceChar (c : N) : bool :=
  isWhiteSpace c || isLineTerminator c.

Fixpoint dropWhile {A} (f : A -> bool) (l : list A) : list A :=
  match l with
  | [] => []
  | a :: t => if f a then dropWhile f t else l
  end.

Definition trimStart (s : jsstring) : jsstring := dropWhile isStrWhiteSpaceChar s.
Definition trimEnd (s : jsstring) : jsstring :=
  rev (dropWhile isStrWhiteSpaceChar (rev s)).

(** [s.trim()] *)
Definition trim (s : jsstring) : jsstring := trimEnd (trimStart s).

(** [s.startsWith(p)] *)
Fixpoint startsWith (s p : jsstring) : bool :=
  match p, s with
  | [], _ => true
  | _ :: _, [] => false
  | b :: p', a :: s' => (a =? b) && startsWith s' p'
  end.

(** [s.endsWith(p)] *)
Definition endsWith (s p : jsstring) : bool := startsWith (rev s) (rev p).

(** Truthiness of a string: the empty string is falsy. *)
Definition truthy (s : jsstring) : bool :=
  match s with [] => false | _ :: _ => true end.

(** Truthiness of [string | null]. *)
Definition truthy_opt (o : option jsstring) : bool :=
  match o with Some s => truthy s | None => false end.

(** ** Regular expressions (the fragment the sources use)

    The matcher follows the ECMAScript semantics of patterns: a pattern is
    compiled to a matcher that takes a match state and a continuation, and
    backtracks when the continuation fails. *)

Inductive CharSet :=
  | Dot                (* [.] without the s flag: all but line terminators *)
  | AllBut (c : N).    (* [[^c]] *)

Inductive Pattern :=
  | PEmpty
  | PChar (c : N)                          (* a literal character *)
  | PStar (greedy : bool) (cs : CharSet)   (* [cs*] and [cs*?] *)
  | PGroup (p : Pattern)                   (* capture group 1 *)
  | PSeq (p q : Pattern).

Fixpoint PLit (s : jsstring) : Pattern :=
  match s with
  | [] => PEmpty
  | c :: t => PSeq (PChar c) (PLit t)
  end.

(** [Canonicalize] without the u flag: with [ignoreCase], a character is
    mapped to its upper case unless that leaves the one-unit range or maps
    a non-ASCII unit into ASCII. Every character of the patterns below is
    ASCII, and a non-ASCII unit never canonicalizes to an ASCII one, so the
    mapping is only written out on ASCII letters. *)
Definition Canonicalize (ignoreCase : bool) (ch : N) : N :=
  if ignoreCase && (97 <=? ch) && (ch <=? 122) then ch - 32 else ch.

Definition CharSetMatches (ignoreCase : bool) (cs : CharSet) (ch : N) : bool :=
  match cs with
  | Dot => negb (isLineTerminator ch)
  | AllBut c => negb (Canonicalize ignoreCase ch =? Canonicalize ignoreCase c)
  end.

(** A match state: the input that is left, the index reached, and the
    capture of group 1 ([None] is [undefined]). *)
Record MatchState := mkState {
  rest : jsstring;
  endIndex : nat;
  capture1 : option jsstring
}.

Definition Continuation := MatchState -> option MatchState.

(** [RepeatMatcher] for a one-character body, from the state
    [(input, e, cap)]: the greedy form first repeats and falls back to the
    continuation, the lazy form first tries the continuation. *)
Fixpoint RepeatMatcher (m : N -> bool) (greedy : bool)
    (input : jsstring) (e : nat) (cap : option jsstring) (c : Continuation)
    : option MatchState :=
  match input with
  | [] => c (mkState input e cap)
  | a :: t =>
      if m a then
        if greedy then
          match RepeatMatcher m greedy t (S e) cap c with
          | Some y => Some y
          | None => c (mkState input e cap)
          end
        else
          match c (mkState input e cap) with
          | Some y => Some y
          | None => RepeatMatcher m greedy t (S e) cap c
          end
      else c (mkState input e cap)
  end.

Fixpoint CompilePattern (ignoreCase : bool) (p : Pattern)
    (x : MatchState) (c : Continuation) : option MatchState :=
  match p with
  | PEmpty => c x
  | PChar ch =>
      match rest x with
      | [] => None
      | a :: t =>
          if Canonicalize ignoreCase a =? Canonicalize ignoreCase ch
          then c (mkState t (S (endIndex x)) (capture1 x))
          else None
      end
  | PStar greedy cs =>
      RepeatMatcher (CharSetMatches ignoreCase cs) greedy
        (rest x) (endIndex x) (capture1 x) c
  | PGroup q =>
      CompilePattern ignoreCase q x
        (fun y => c (mkState (rest y) (endIndex y)
                       (Some (take (endIndex y - endIndex x)%nat (rest x)))))
  | PSeq q r =>
      CompilePattern ignoreCase q x (fun y => CompilePattern ignoreCase r y c)
  end.

(** The search of [RegExpBuiltinExec]: the first index, from the one given,
    at which the matcher succeeds. *)
Fixpoint search (m : MatchState -> option MatchState)
    (input : jsstring) (i : nat) : option MatchState :=
  match m (mkState input i None) with
  | Some y => Some y
  | None =>
      match input with
      | [] => None
      | _ :: t => search m t (S i)
      end
  end.

(** [re.exec(s)] for a global regular expression whose [lastIndex] is
    given; on a match the new [lastIndex] is the [endIndex] of the state. *)
Definition RegExp_exec (ignoreCase : bool) (p : Pattern)
    (s : jsstring) (lastIndex : nat) : option MatchState :=
  if (length s <? lastIndex)%nat then None
  else search (fun x => CompilePattern ignoreCase p x Some)
         (drop lastIndex s) lastIndex.

(** ** services/xml-parser.ts *)

Definition lit_loc_open : jsstring := Eval vm_compute in js "<loc".
Definition lit_loc_close : jsstring := Eval vm_compute in js "</loc>".
Definition lit_gt : N := 62.
Definition lit_http : jsstring := Eval vm_compute in js "http://".
Definition lit_https : jsstring := Eval vm_compute in js "https://".

(** [/<loc[^>]*>(.*?)<\/loc>/gi] *)
Definition locRegex : Pattern :=
  PSeq (PLit lit_loc_open)
    (PSeq (PStar true (AllBut lit_gt))
      (PSeq (PChar lit_gt)
        (PSeq (PGroup (PStar false Dot))
          (PLit lit_loc_close)))).

(** The outcome of running the [while] loop with a bound on the number of
    iterations. *)
Inductive LoopOutcome :=
  | OutOfFuel
  | Threw
  | Done (urls : list jsstring).

(** The body of the [try] of [extractURLs]: the [while] loop over
    [locRegex.exec(xmlContent)], from the given [lastIndex] and [urls]. *)
Fixpoint exec_loop (fuel : nat) (xmlContent : jsstring)
    (lastIndex : nat) (urls : list jsstring) : LoopOutcome :=
  match fuel with
  | O => OutOfFuel
  | S fuel' =>
      match RegExp_exec true locRegex xmlContent lastIndex with
      | None => Done urls
      | Some m =>
          match capture1 m with
          | None => Threw     (* [match[1].trim()] on [undefined] *)
          | Some m1 =>
              let url := trim m1 in
              exec_loop fuel' xmlContent (endIndex m)
                (if truthy url &&
                    (startsWith url lit_http || startsWith url lit_https)
                 then urls ++ [url] else urls)
          end
      end
  end.

(** [extractURLs(xmlContent)]: a match is never empty, so the loop runs at
    most [length xmlContent] times before [exec] returns [null]; the
    [catch] turns a throw into the empty list. *)
Definition extractURLs (xmlContent : jsstring) : list jsstring :=
  match exec_loop (S (length xmlContent)) xmlContent 0 [] with
  | Done urls => urls
  | Threw => []
  | OutOfFuel => []
  end.

(** ** Values, errors and the platform

    [JSON.parse] returns any JSON value, whatever the TypeScript annotation
    of the variable that receives it says. *)

Inductive jsvalue :=
  | JNull
  | JBool (b : bool)
  | JNum (literal : jsstring)
  | JStr (s : jsstring)
  | JArr (items : list jsvalue)
  | JObj (fields : list (jsstring * jsvalue)).

(** A thrown value, identified with the text that the handlers of the
    sources print for it:
    [error instanceof Error ? error.message : String(error)]. *)
Inductive JsError := Thrown (message : jsstring).

Definition message (e : JsError) : jsstring :=
  match e with Thrown m => m end.

(** How an evaluation completes: normally with a value, or abruptly. *)
Inductive Completion (A : Type) :=
  | Throw (e : JsError)
  | Normal (a : A).
Arguments Throw {A} e.
Arguments Normal {A} a.

(** What the sources read of [new URL(url)]. *)
Record URLRecord := mkURL {
  hostname : jsstring;
  pathname : jsstring
}.

(** What the sources read of the [Response] of [fetch]: [text] is the
    completion of [response.text()], [gunzip_text] that of decompressing
    the body stream and reading it as text. *)
Record Response := mkResponse {
  ok : bool;
  status : N;
  statusText : jsstring;
  has_body : bool;
  text : Completion jsstring;
  gunzip_text : Completion jsstring
}.

(** The world one operation (one call of a method of the manager) runs
    in: the platform functions the sources call ([URL], [JSON], the
    [TypeError] of a call of a missing method) and the environment (the
    clock, the network and the failures of the key-value store). The
    sources fix none of these, so they are parameters. An operation reads
    each key at most once and writes it at most once, so the failures of
    the store are given by key; what the store, the network and the clock
    do at a later operation is another matter, and operations that follow
    one another run in worlds of their own (see [at_moment]). *)
Record World := mkWorld {
  URL_parse : jsstring -> Completion URLRecord;        (* [new URL(s)] *)
  JSON_parse : jsstring -> Completion jsvalue;         (* [JSON.parse(s)] *)
  JSON_stringify : jsvalue -> jsstring;                (* [JSON.stringify(v)] *)
  not_a_function : jsvalue -> jsstring -> JsError;     (* [v.m(...)], [m] missing *)
  now_toISOString : jsstring;                          (* [new Date().toISOString()] *)
  fetch : jsstring -> Completion Response;             (* [fetch(url, ...)] *)
  kv_get_fault : jsstring -> option JsError;           (* [kv.get(key)] rejects *)
  kv_put_fault : jsstring -> option JsError            (* [kv.put(key, _)] rejects *)
}.

(** ** The store and the monad of the asynchronous methods

    The state is the content of the KV namespace and the log of the network
    requests issued so far. An abrupt completion keeps the state reached:
    a write that was done before a throw stays done. *)

Record Store := mkStore {
  kv : gmap (list N) (list N);
  requests : list jsstring
}.

Definition Async (A : Type) : Type := Store -> Store * Completion A.

Definition ret {A} (a : A) : Async A := fun st => (st, Normal a).

Definition throw {A} (e : JsError) : Async A := fun st => (st, Throw e).

Definition bind {A B} (m : Async A) (k : A -> Async B) : Async B :=
  fun st =>
    match m st with
    | (st', Normal a) => k a st'
    | (st', Throw e) => (st', Throw e)
    end.

Definition lift {A} (c : Completion A) : Async A := fun st => (st, c).

(** [try { m } catch (error) { h error }] *)
Definition try_catch {A} (m : Async A) (h : JsError -> Async A) : Async A :=
  fun st =>
    match m st with
    | (st', Normal a) => (st', Normal a)
    | (st', Throw e) => h e st'
    end.

Declare Scope async_scope.
Delimit Scope async_scope with async.
Notation "x <- m ;; k" := (bind m (fun x => k))
  (at level 100, m at next level, right associativity) : async_scope.
Notation "m ;;; k" := (bind m (fun _ => k))
  (at level 100, right associativity) : async_scope.
Local Open Scope async_scope.

(** [await this.kv.get(key)] *)
Definition kv_get (w : World) (key : jsstring) : Async (option jsstring) :=
  fun st =>
    match kv_get_fault w key with
    | Some e => (st, Throw e)
    | None => (st, Normal (kv st !! key))
    end.

(** [await this.kv.put(key, value)] *)
Definition kv_put (w : World) (key value : jsstring) : Async unit :=
  fun st =>
    match kv_put_fault w key with
    | Some e => (st, Throw e)
    | None => (mkStore (<[key := value]> (kv st)) (requests st), Normal tt)
    end.

(** [await fetch(url, ...)]: the request is issued, then it completes. *)
Definition http_fetch (w : World) (url : jsstring) : Async Response :=
  fun st => (mkStore (kv st) (requests st ++ [url]), fetch w url).

(** ** Small pieces of the standard library of the language *)

(** [s.split(sep)] for a one-character separator. *)
Fixpoint split (sep : N) (s : jsstring) : list jsstring :=
  match s with
  | [] => [[]]
  | c :: t =>
      if c =? sep then [] :: split sep t
      else match split sep t with
           | [] => [[c]]
           | piece :: pieces => (c :: piece) :: pieces
           end
  end.

(** [s.replace(/c/g, '')] *)
Definition remove_all (c : N) (s : jsstring) : jsstring :=
  List.filter (fun a => negb (a =? c)) s.

(** [String(n)] for a non-negative integer. *)
Definition decimal (n : N) : jsstring :=
  js (NilEmpty.string_of_uint (N.to_uint n)).

(** [a === b] for [a : string | null] and a string [b]. *)
Definition strict_equals (a : option jsstring) (b : jsstring) : bool :=
  match a with
  | Some s => bool_decide (s = b)
  | None => false
  end.

(** [urls.includes(url)] on an array of strings. *)
Definition includes (l : list jsstring) (x : jsstring) : bool :=
  existsb (fun y => bool_decide (y = x)) l.

(** [s.includes(x)] on a string. *)
Fixpoint string_includes (s x : jsstring) : bool :=
  startsWith s x ||
  match s with
  | [] => false
  | _ :: t => string_includes t x
  end.

(** [v === x] for a JSON value [v] and a string [x]. *)
Definition is_string (v : jsvalue) (x : jsstring) : bool :=
  match v with
  | JStr s => bool_decide (s = x)
  | _ => false
  end.

(** [feeds.includes(url)] for whatever [feeds] is at run time. *)
Definition method_includes (w : World) (feeds : jsvalue) (url : jsstring)
    : Completion bool :=
  match feeds with
  | JArr items => Normal (existsb (fun v => is_string v url) items)
  | JStr s => Normal (string_includes s url)
  | _ => Throw (not_a_function w feeds (js "includes"))
  end.

(** [feeds.push(url)]: the value of [feeds] afterwards. *)
Definition method_push (w : World) (feeds : jsvalue) (url : jsstring)
    : Completion jsvalue :=
  match feeds with
  | JArr items => Normal (JArr (items ++ [JStr url]))
  | _ => Throw (not_a_function w feeds (js "push"))
  end.

(** [items.indexOf(url)]; [None] is -1. *)
Fixpoint indexOf (items : list jsvalue) (url : jsstring) : option nat :=
  match items with
  | [] => None
  | v :: t => if is_string v url then Some O
              else option_map S (indexOf t url)
  end.

(** [feeds.splice(feeds.indexOf(url), 1)]: the value of [feeds]
    afterwards. A start of -1 counts from the end. *)
Definition method_splice_indexOf (w : World) (feeds : jsvalue)
    (url : jsstring) : Completion jsvalue :=
  match feeds with
  | JArr items =>
      match indexOf items url with
      | Some i => Normal (JArr (delete i items))
      | None => Normal (JArr (removelast items))
      end
  | _ => Throw (not_a_function w feeds (js "splice"))
  end.

(** ** services/rss-manager.ts *)

(** [DownloadResult]; [AddFeedResult] has the same fields, and every
    value [addFeed] returns gives all four. *)
Record DownloadResult := mkResult {
  success : bool;
  errorMsg : jsstring;
  datedFile : option jsstring;
  newUrls : list jsstring
}.

Record RemoveFeedResult := mkRemoveResult {
  rsuccess : bool;
  rerrorMsg : jsstring
}.

(** [this.feedsKey] *)
Definition feedsKey : jsstring := Eval vm_compute in js "rss_feeds".

(** The key templates. *)
Definition lit_last_update : jsstring := Eval vm_compute in js "last_update_".
Definition lit_sitemap_current : jsstring :=
  Eval vm_compute in js "sitemap_current_".
Definition lit_sitemap_latest : jsstring :=
  Eval vm_compute in js "sitemap_latest_".
Definition lit_sitemap_dated : jsstring :=
  Eval vm_compute in js "sitemap_dated_".

Definition lastUpdateKey (domain : jsstring) : jsstring :=
  lit_last_update ++ domain.
Definition currentKey (domain : jsstring) : jsstring :=
  lit_sitemap_current ++ domain.
Definition latestKey (domain : jsstring) : jsstring :=
  lit_sitemap_latest ++ domain.
Definition datedKey (domain today : jsstring) : jsstring :=
  lit_sitemap_dated ++ domain ++ [95] ++ today.

(** The message literals. *)
Definition msg_updated_not_sent : jsstring :=
  Eval vm_compute in js "今天已经更新过此sitemap, 但没发送".
Definition msg_updated_today : jsstring :=
  Eval vm_compute in js "今天已经更新过此sitemap".
Definition msg_download_failed : jsstring :=
  Eval vm_compute in js "下载失败: ".
Definition msg_added : jsstring :=
  Eval vm_compute in js "成功添加".
Definition msg_existing_updated : jsstring :=
  Eval vm_compute in js "已存在的feed更新成功".
Definition msg_add_failed : jsstring :=
  Eval vm_compute in js "添加失败: ".
Definition msg_not_subscribed : jsstring :=
  Eval vm_compute in js "该RSS订阅不存在".
Definition msg_remove_failed : jsstring :=
  Eval vm_compute in js "删除失败: ".
Definition msg_body_null : jsstring :=
  Eval vm_compute in js "Response body is null, cannot decompress.".
Definition lit_gz : jsstring := Eval vm_compute in js ".gz".

(** [`HTTP ${response.status}: ${response.statusText}`] *)
Definition lit_HTTP : jsstring := Eval vm_compute in js "HTTP ".
Definition lit_colon : jsstring := Eval vm_compute in js ": ".
Definition msg_http (r : Response) : jsstring :=
  lit_HTTP ++ decimal (status r) ++ lit_colon ++ statusText r.

(** [new Date().toISOString().split('T')[0].replace(/-/g, '')] *)
Definition today (w : World) : jsstring :=
  remove_all 45 (hd [] (split 84 (now_toISOString w))).

(** [compareSitemaps(currentContent, oldContent)]; nothing in its [try]
    throws, [extractURLs] has its own handler. *)
Definition compareSitemaps (currentContent oldContent : jsstring)
    : list jsstring :=
  let currentUrls := extractURLs currentContent in
  let oldUrls := extractURLs oldContent in
  List.filter (fun url => negb (includes oldUrls url)) currentUrls.

(** [getFeeds()] *)
Definition getFeeds (w : World) : Async jsvalue :=
  try_catch
    (feedsJson <- kv_get w feedsKey ;;
     match feedsJson with
     | Some (c :: t) => lift (JSON_parse w (c :: t))
     | _ => ret (JArr [])
     end)
    (fun error => ret (JArr [])).

(** From the response to [newContent]: the check of [response.ok] and
    the reading of the body, decompressed when the URL ends in [.gz]. *)
Definition response_content (url : jsstring) (response : Response)
    : Completion jsstring :=
  if negb (ok response) then Throw (Thrown (msg_http response))
  else if endsWith url lit_gz then
    if negb (has_body response) then Throw (Thrown msg_body_null)
    else gunzip_text response
  else text response.

(** The body of the [try] of [downloadSitemap]. *)
Definition downloadSitemap_try (w : World) (url : jsstring)
    (forceDownload : bool) : Async DownloadResult :=
  u <- lift (URL_parse w url) ;;
  let domain := hostname u in
  let today := today w in
  lastUpdate <- kv_get w (lastUpdateKey domain) ;;
  if negb forceDownload && strict_equals lastUpdate today then
    currentContent <- kv_get w (currentKey domain) ;;
    latestContent <- kv_get w (latestKey domain) ;;
    match currentContent, latestContent with
    | Some (c :: ct), Some (l :: lt) =>
        let newUrls := compareSitemaps (c :: ct) (l :: lt) in
        ret (mkResult true msg_updated_not_sent None newUrls)
    | _, _ =>
        ret (mkResult true msg_updated_today None [])
    end
  else
    response <- http_fetch w url ;;
    newContent <- lift (response_content url response) ;;
    currentContent <- kv_get w (currentKey domain) ;;
    newUrls <-
      match currentContent with
      | Some (c :: ct) =>
          kv_put w (latestKey domain) (c :: ct) ;;;
          ret (compareSitemaps newContent (c :: ct))
      | _ => ret []
      end ;;
    kv_put w (currentKey domain) newContent ;;;
    kv_put w (datedKey domain today) newContent ;;;
    kv_put w (lastUpdateKey domain) today ;;;
    ret (mkResult true [] (Some (datedKey domain today)) newUrls).

(** [downloadSitemap(url, forceDownload)] *)
Definition downloadSitemap (w : World) (url : jsstring)
    (forceDownload : bool) : Async DownloadResult :=
  try_catch (downloadSitemap_try w url forceDownload)
    (fun error =>
       ret (mkResult false (msg_download_failed ++ message error) None [])).

(** [addFeed(url)] *)
Definition addFeed (w : World) (url : jsstring) : Async DownloadResult :=
  try_catch
    (feeds <- getFeeds w ;;
     isOld <- lift (method_includes w feeds url) ;;
     if negb isOld then
       result <- downloadSitemap w url false ;;
       if negb (success result) then ret result
       else
         feeds' <- lift (method_push w feeds url) ;;
         kv_put w feedsKey (JSON_stringify w feeds') ;;;
         ret (mkResult (success result)
                (if truthy (errorMsg result) then errorMsg result
                 else msg_added)
                (datedFile result) (newUrls result))
     else
       result <- downloadSitemap w url false ;;
       if negb (success result) then ret result
       else
         ret (mkResult (success result) msg_existing_updated
                (datedFile result) (newUrls result)))
    (fun error =>
       ret (mkResult false (msg_add_failed ++ message error) None [])).

(** [removeFeed(url)] *)
Definition removeFeed (w : World) (url : jsstring) : Async RemoveFeedResult :=
  try_catch
    (feeds <- getFeeds w ;;
     isOld <- lift (method_includes w feeds url) ;;
     if negb isOld then ret (mkRemoveResult false msg_not_subscribed)
     else
       feeds' <- lift (method_splice_indexOf w feeds url) ;;
       kv_put w feedsKey (JSON_stringify w feeds') ;;;
       ret (mkRemoveResult true []))
    (fun error =>
       ret (mkRemoveResult false (msg_remove_failed ++ message error))).

(** ** apps/telegram-bot.ts *)

Record KeywordStat := mkStat {
  keyword : jsstring;
  count : nat
}.

(** A [Map<string, number>], as the list of its entries in insertion
    order; [set] on a present key keeps the place of the entry. *)
Fixpoint Map_get (m : list (jsstring * nat)) (k : jsstring) : option nat :=
  match m with
  | [] => None
  | (k', v) :: t => if bool_decide (k' = k) then Some v else Map_get t k
  end.

Fixpoint Map_set (m : list (jsstring * nat)) (k : jsstring) (v : nat)
    : list (jsstring * nat) :=
  match m with
  | [] => [(k, v)]
  | (k', v') :: t =>
      if bool_decide (k' = k) then (k', v) :: t else (k', v') :: Map_set t k v
  end.

(** [/^\d+$/] *)
Definition isDigit (c : N) : bool := (48 <=? c) && (c <=? 57).
Definition all_digits (s : jsstring) : bool :=
  truthy s && forallb isDigit s.

(** Equality modulo [Canonicalize], for a pattern with the i flag. *)
Fixpoint equals_ci (s p : jsstring) : bool :=
  match s, p with
  | [], [] => true
  | a :: s', b :: p' =>
      (Canonicalize true a =? Canonicalize true b) && equals_ci s' p'
  | _, _ => false
  end.

(** [/^(index|page|post|article|news|blog)$/i] *)
Definition stopwords : list jsstring :=
  Eval vm_compute in
    js <$> ["index"; "page"; "post"; "article"; "news"; "blog"]%string.
Definition is_stopword (s : jsstring) : bool :=
  existsb (equals_ci s) stopwords.

(** [s.toLowerCase()]. The strings it is applied to are pieces of
    [URL.pathname], in which every non-ASCII character is percent-encoded;
    the mapping is written out on ASCII. *)
Definition toLowerCase (s : jsstring) : jsstring :=
  (fun c => if (65 <=? c) && (c <=? 90) then c + 32 else c) <$> s.

(** The condition of the [if] on a segment. *)
Definition keeps (segment : jsstring) : bool :=
  (2 <? length segment)%nat &&
  negb (all_digits segment) &&
  negb (existsb (N.eqb 46) segment) &&
  negb (is_stopword segment).

(** [segment.replace(/-/g, '').toLowerCase()] *)
Definition cleanSegment (segment : jsstring) : jsstring :=
  toLowerCase (remove_all 45 segment).

(** One turn of the inner [for] loop. *)
Definition count_segment (keywordCounts : list (jsstring * nat))
    (segment : jsstring) : list (jsstring * nat) :=
  if keeps segment then
    let clean := cleanSegment segment in
    if (2 <? length clean)%nat then
      Map_set keywordCounts clean
        (default 0%nat (Map_get keywordCounts clean) + 1)%nat
    else keywordCounts
  else keywordCounts.

(** One turn of the outer [for] loop, with its [try]/[catch]. *)
Definition count_url (w : World) (keywordCounts : list (jsstring * nat))
    (url : jsstring) : list (jsstring * nat) :=
  match URL_parse w url with
  | Throw _ => keywordCounts
  | Normal urlObj =>
      let path := pathname urlObj in
      let segments :=
        List.filter (fun segment => (2 <? length segment)%nat) (split 47 path) in
      fold_left count_segment segments keywordCounts
  end.

(** [Array.prototype.sort] with the comparator [b.count - a.count]. The
    sort is stable, which fixes its result; insertion from the right is
    one such sort. *)
Fixpoint sort_insert (a : KeywordStat) (l : list KeywordStat)
    : list KeywordStat :=
  match l with
  | [] => [a]
  | b :: t =>
      if (count b <=? count a)%nat then a :: b :: t
      else b :: sort_insert a t
  end.

Definition sort_by_count (l : list KeywordStat) : list KeywordStat :=
  foldr sort_insert [] l.

(** [extractKeywordsWithCount(urls)] *)
Definition extractKeywordsWithCount (w : World) (urls : list jsstring)
    : list KeywordStat :=
  let keywordCounts := fold_left (count_url w) urls [] in
  take 10
    (sort_by_count
       ((fun entry => mkStat (fst entry) (snd entry)) <$> keywordCounts)).

(** ** The textual scan that [locRegex] performs, written directly *)

(** [strip_ci p s]: what follows [p] in [s] when [s] starts with [p]
    regardless of case. *)
Fixpoint strip_ci (p s : jsstring) : option jsstring :=
  match p, s with
  | [], _ => Some s
  | _ :: _, [] => None
  | b :: p', a :: s' =>
      if Canonicalize true a =? Canonicalize true b then strip_ci p' s'
      else None
  end.

(** From just after the [>] of the opening tag: the characters up to the
    first closing tag, none of which may be a line terminator, and what
    follows that closing tag. *)
Fixpoint scan_content (s : jsstring) : option (jsstring * jsstring) :=
  match strip_ci lit_loc_close s with
  | Some r => Some ([], r)
  | None =>
      match s with
      | [] => None
      | a :: t =>
          if isLineTerminator a then None
          else match scan_content t with
               | Some (cap, r) => Some (a :: cap, r)
               | None => None
               end
      end
  end.

(** A tag pair that starts at the head of [s]: its content and what
    follows it. *)
Definition match_here (s : jsstring) : option (jsstring * jsstring) :=
  match strip_ci lit_loc_open s with
  | None => None
  | Some s1 =>
      match dropWhile (fun a => negb (a =? lit_gt)) s1 with
      | [] => None
      | _ :: s2 => scan_content s2
      end
  end.

(** The first tag pair of [s]. *)
Fixpoint find_match (s : jsstring) : option (jsstring * jsstring) :=
  match match_here s with
  | Some m => Some m
  | None =>
      match s with
      | [] => None
      | _ :: t => find_match t
      end
  end.

(** The contents of the tag pairs of [s], in document order. *)
Fixpoint loc_contents (fuel : nat) (s : jsstring) : list jsstring :=
  match fuel with
  | O => []
  | S fuel' =>
      match find_match s with
      | None => []
      | Some (cap, r) => cap :: loc_contents fuel' r
      end
  end.

(** The test of the [if] of [extractURLs] on a trimmed value. *)
Definition is_http_url (url : jsstring) : bool :=
  truthy url && (startsWith url lit_http || startsWith url lit_https).

(** The specification of the scan, as a relation.

    [TagPair s cap r]: [s] begins with an opening tag [<loc ...>] in any
    case, whose attributes run to the first [>]; [cap] is what lies
    between that [>] and the first closing tag [</loc>] in any case, and
    holds no line terminator; [r] is what follows the closing tag. *)
Definition TagPair (s cap r : jsstring) : Prop :=
  exists o attrs cl,
    s = o ++ attrs ++ [lit_gt] ++ cap ++ cl ++ r /\
    equals_ci o lit_loc_open = true /\
    Forall (fun a => a <> lit_gt) attrs /\
    equals_ci cl lit_loc_close = true /\
    Forall (fun a => isLineTerminator a = false) cap /\
    (forall k, (k < length cap)%nat ->
       strip_ci lit_loc_close (drop k (cap ++ cl ++ r)) = None).

(** [Scan s caps]: [caps] are the contents of the tag pairs met when [s]
    is read from left to right, each pair being the leftmost one that
    starts at or after the end of the previous one. *)
Inductive Scan : jsstring -> list jsstring -> Prop :=
  | Scan_end s :
      (forall k cap r, ~ TagPair (drop k s) cap r) ->
      Scan s []
  | Scan_pair s k cap r caps :
      TagPair (drop k s) cap r ->
      (forall j cap' r', (j < k)%nat -> ~ TagPair (drop j s) cap' r') ->
      Scan r caps ->
      Scan s (cap :: caps).

(** Equality of strings is decidable. *)
Definition jsstring_eq_dec (x y : jsstring) : {x = y} + {x <> y} :=
  List.list_eq_dec N.eq_dec x y.

(** ** The writes of one attempt of [downloadSitemap] *)

(** The writes of the fetch branch, in the order of the source: [latest]
    when a non-empty [current] was read, then [current], the dated copy
    and the marker. *)
Definition snapshot_writes (domain today newContent : jsstring)
    (currentContent : option jsstring) : list (jsstring * jsstring) :=
  match currentContent with
  | Some (c :: ct) => [(latestKey domain, c :: ct)]
  | _ => []
  end ++
  [(currentKey domain, newContent);
   (datedKey domain today, newContent);
   (lastUpdateKey domain, today)].

(** [kv.put] of each pair in turn, up to the first that is rejected. *)
Fixpoint put_each (w : World) (writes : list (jsstring * jsstring))
    : Async unit :=
  match writes with
  | [] => ret tt
  | (key, value) :: more =>
      bind (kv_put w key value) (fun _ => put_each w more)
  end.

(** The content of the store after the given writes. *)
Definition written (writes : list (jsstring * jsstring))
    (m : gmap (list N) (list N)) : gmap (list N) (list N) :=
  fold_left (fun m kv => <[kv.1 := kv.2]> m) writes m.

(** What [compareSitemaps] is called on in the fetch branch. *)
Definition fetch_newUrls (newContent : jsstring)
    (currentContent : option jsstring) : list jsstring :=
  match currentContent with
  | Some (c :: ct) => compareSitemaps newContent (c :: ct)
  | _ => []
  end.

(** ** The registry as [getFeeds] reads it *)

Definition registry_view (w : World) (st : Store) : jsvalue :=
  match kv_get_fault w feedsKey with
  | Some _ => JArr []
  | None =>
      match kv st !! feedsKey with
      | Some (c :: t) =>
          match JSON_parse w (c :: t) with
          | Normal v => v
          | Throw _ => JArr []
          end
      | _ => JArr []
      end
  end.

(** ** The keywords that [extractKeywordsWithCount] counts *)

(** A segment is counted when it passes the test of the [if] and its clean
    form is longer than two characters. *)
Definition counted (segment : jsstring) : bool :=
  keeps segment && (2 <? length (cleanSegment segment))%nat.

(** The keywords of one URL, in the order of its path; none for a URL
    that does not parse. *)
Definition url_keywords (w : World) (url : jsstring) : list jsstring :=
  match URL_parse w url with
  | Throw _ => []
  | Normal urlObj =>
      cleanSegment <$> List.filter counted (split 47 (pathname urlObj))
  end.

Definition all_keywords (w : World) (urls : list jsstring) : list jsstring :=
  flat_map (url_keywords w) urls.

(** [keywordCounts.set(k, (keywordCounts.get(k) || 0) + 1)] *)
Definition add_keyword (m : list (jsstring * nat)) (k : jsstring)
    : list (jsstring * nat) :=
  Map_set m k (default 0%nat (Map_get m k) + 1)%nat.

(** The entries of a map as [{keyword, count}] records. *)
Definition to_stats (m : list (jsstring * nat)) : list KeywordStat :=
  (fun entry => mkStat (fst entry) (snd entry)) <$> m.

(** The example of the specification. *)
Definition kw_url1 : jsstring :=
  Eval vm_compute in js "https://a.com/tech-news/2024/".
Definition kw_url2 : jsstring :=
  Eval vm_compute in js "https://a.com/tech-news/ai/".
Definition kw_technews : jsstring := Eval vm_compute in js "technews".
Definition kw_2024 : jsstring := Eval vm_compute in js "2024".

(** The count of a key in a map, 0 when it is absent. *)
Definition getd (m : list (jsstring * nat)) (k : jsstring) : nat :=
  default 0%nat (Map_get m k).

(** The invariant of the loops: keys without repetition, positive counts. *)
Definition counts_ok (m : list (jsstring * nat)) : Prop :=
  NoDup (fst <$> m) /\ Forall (fun entry => (0 < snd entry)%nat) m.

(** The order of the result: counts do not increase. *)
Definition by_count_desc (a b : KeywordStat) : Prop := (count b <= count a)%nat.


(** ** The keywords, in the words of the specification

    The rule of the specification, written without the functions that
    embed the code: a segment is kept when it is longer than two
    characters, is not made of digits only, holds no [.] and is no
    stopword; it is counted lower-cased and without its hyphens. *)

Definition upper_letters : jsstring :=
  Eval vm_compute in js "ABCDEFGHIJKLMNOPQRSTUVWXYZ".
Definition lower_letters : jsstring :=
  Eval vm_compute in js "abcdefghijklmnopqrstuvwxyz".
Definition decimal_digits : jsstring := Eval vm_compute in js "0123456789".

(** The character that stands in [to] where [c] stands in [from]; [c]
    itself when it does not stand in [from]. *)
Fixpoint letter_of (from to : jsstring) (c : N) : N :=
  match from, to with
  | a :: from', b :: to' =>
      if bool_decide (c = a) then b else letter_of from' to' c
  | _, _ => c
  end.

Definition lower_case (s : jsstring) : jsstring :=
  letter_of upper_letters lower_letters <$> s.

Definition without_hyphens (s : jsstring) : jsstring :=
  filter (fun c => c <> 45) s.

Definition stopword_set : list jsstring :=
  Eval vm_compute in
    js <$> ["index"; "page"; "post"; "article"; "news"; "blog"]%string.

Definition digits_only (s : jsstring) : Prop :=
  s <> [] /\ Forall (fun c => c ∈ decimal_digits) s.

(** The segments that the rule keeps. *)
Definition keyword_segment (segment : jsstring) : Prop :=
  (2 < length segment)%nat /\
  ~ digits_only segment /\
  (46 ∉ segment) /\
  (lower_case segment ∉ stopword_set).

#[global] Instance keyword_segment_dec segment :
  Decision (keyword_segment segment).
Proof. unfold keyword_segment, digits_only. apply _. Defined.

(** The keyword that a kept segment is counted as. *)
Definition keyword_of (segment : jsstring) : jsstring :=
  lower_case (without_hyphens segment).

(** The keywords of a list of URLs, in the order they are met, each as
    often as it is met: those of the kept segments of the paths of the
    URLs that parse. The code makes one test more than the rule: the
    keyword itself has to be longer than two characters. *)
Definition rule_keywords (w : World) (urls : list jsstring) : list jsstring :=
  flat_map
    (fun url =>
       match URL_parse w url with
       | Throw _ => []
       | Normal urlObj =>
           filter (fun k => (2 < length k)%nat)
             (keyword_of <$>
                filter keyword_segment (split 47 (pathname urlObj)))
       end)
    urls.

(** [pieces.join(sep)], for the statement that [split] cuts at every
    separator and nowhere else. *)
Fixpoint join_pieces (sep : N) (pieces : list jsstring) : jsstring :=
  match pieces with
  | [] => []
  | piece :: more =>
      match more with
      | [] => piece
      | _ :: _ => piece ++ sep :: join_pieces sep more
      end
  end.
(** ** A concrete platform, for the examples

    The theorems below hold for every [World]. The examples need one: the
    following readers agree with [new URL], [JSON.parse] and
    [JSON.stringify] on the plain inputs the examples use (http(s) URLs
    made of a host and a path; JSON documents of null, booleans, numbers
    kept as their literal, strings, arrays and objects without repeated
    keys). *)

Fixpoint takeWhile {A} (f : A -> bool) (l : list A) : list A :=
  match l with
  | [] => []
  | a :: t => if f a then a :: takeWhile f t else []
  end.

Definition example_URL_parse (s : jsstring) : Completion URLRecord :=
  let after_scheme :=
    if startsWith s lit_https then Some (drop 8 s)
    else if startsWith s lit_http then Some (drop 7 s)
    else None in
  match after_scheme with
  | None => Throw (Thrown (js "Invalid URL"))
  | Some r =>
      let in_host := fun c => negb ((c =? 47) || (c =? 63) || (c =? 35)) in
      let in_path := fun c => negb ((c =? 63) || (c =? 35)) in
      let host := takeWhile in_host r in
      let path := takeWhile in_path (dropWhile in_host r) in
      if truthy host
      then Normal (mkURL (toLowerCase host) (if truthy path then path else [47]))
      else Throw (Thrown (js "Invalid URL"))
  end.

Definition json_ws (c : N) : bool :=
  (c =? 32) || (c =? 9) || (c =? 10) || (c =? 13).

Definition hex_digit (c : N) : option N :=
  if (48 <=? c) && (c <=? 57) then Some (c - 48)
  else if (97 <=? c) && (c <=? 102) then Some (c - 87)
  else if (65 <=? c) && (c <=? 70) then Some (c - 55)
  else None.

(** The characters of a string literal, from just after its opening quote. *)
Fixpoint json_string (s : jsstring) : option (jsstring * jsstring) :=
  match s with
  | [] => None
  | 34 :: r => Some ([], r)
  | 92 :: 117 :: h3 :: h2 :: h1 :: h0 :: r =>
      match hex_digit h3, hex_digit h2, hex_digit h1, hex_digit h0,
            json_string r with
      | Some d3, Some d2, Some d1, Some d0, Some (str, r') =>
          Some ((d3 * 4096 + d2 * 256 + d1 * 16 + d0) :: str, r')
      | _, _, _, _, _ => None
      end
  | 92 :: e :: r =>
      let unescaped :=
        if e =? 34 then Some 34 else if e =? 92 then Some 92
        else if e =? 47 then Some 47 else if e =? 98 then Some 8
        else if e =? 102 then Some 12 else if e =? 110 then Some 10
        else if e =? 114 then Some 13 else if e =? 116 then Some 9
        else None in
      match unescaped, json_string r with
      | Some c, Some (str, r') => Some (c :: str, r')
      | _, _ => None
      end
  | c :: r =>
      if (c <? 32) || (c =? 92) then None
      else match json_string r with
           | Some (str, r') => Some (c :: str, r')
           | None => None
           end
  end.

(** A number literal at the head of [s]: the literal and what follows. *)
Definition json_number (s : jsstring) : option (jsstring * jsstring) :=
  let (sign, s1) := match s with 45 :: t => ([45], t) | _ => ([], s) end in
  let int := takeWhile isDigit s1 in
  let s2 := dropWhile isDigit s1 in
  let int_ok := match int with
                | [] => false
                | 48 :: _ :: _ => false
                | _ => true
                end in
  let '(frac, s3, frac_ok) :=
    match s2 with
    | 46 :: t => (46 :: takeWhile isDigit t, dropWhile isDigit t,
                  truthy (takeWhile isDigit t))
    | _ => ([], s2, true)
    end in
  let '(exp, s4, exp_ok) :=
    match s3 with
    | e :: t =>
        if (e =? 101) || (e =? 69) then
          let (esign, t') :=
            match t with
            | 43 :: u => ([43], u)
            | 45 :: u => ([45], u)
            | _ => ([], t)
            end in
          (e :: esign ++ takeWhile isDigit t', dropWhile isDigit t',
           truthy (takeWhile isDigit t'))
        else ([], s3, true)
    | [] => ([], s3, true)
    end in
  if int_ok && frac_ok && exp_ok then Some (sign ++ int ++ frac ++ exp, s4)
  else None.

Fixpoint json_value (fuel : nat) (s : jsstring) : option (jsvalue * jsstring) :=
  match fuel with
  | O => None
  | S fuel' =>
      match dropWhile json_ws s with
      | 110 :: 117 :: 108 :: 108 :: r => Some (JNull, r)
      | 116 :: 114 :: 117 :: 101 :: r => Some (JBool true, r)
      | 102 :: 97 :: 108 :: 115 :: 101 :: r => Some (JBool false, r)
      | 34 :: r =>
          match json_string r with
          | Some (str, r') => Some (JStr str, r')
          | None => None
          end
      | 91 :: r =>
          match dropWhile json_ws r with
          | 93 :: r' => Some (JArr [], r')
          | _ =>
              match json_elements fuel' r with
              | Some (items, r') => Some (JArr items, r')
              | None => None
              end
          end
      | 123 :: r =>
          match dropWhile json_ws r with
          | 125 :: r' => Some (JObj [], r')
          | _ =>
              match json_members fuel' r with
              | Some (fields, r') => Some (JObj fields, r')
              | None => None
              end
          end
      | r =>
          match json_number r with
          | Some (lit, r') => Some (JNum lit, r')
          | None => None
          end
      end
  end
with json_elements (fuel : nat) (s : jsstring)
    : option (list jsvalue * jsstring) :=
  match fuel with
  | O => None
  | S fuel' =>
      match json_value fuel' s with
      | None => None
      | Some (v, r) =>
          match dropWhile json_ws r with
          | 93 :: r' => Some ([v], r')
          | 44 :: r' =>
              match json_elements fuel' r' with
              | Some (items, r'') => Some (v :: items, r'')
              | None => None
              end
          | _ => None
          end
      end
  end
with json_members (fuel : nat) (s : jsstring)
    : option (list (jsstring * jsvalue) * jsstring) :=
  match fuel with
  | O => None
  | S fuel' =>
      match dropWhile json_ws s with
      | 34 :: r =>
          match json_string r with
          | None => None
          | Some (key, r1) =>
              match dropWhile json_ws r1 with
              | 58 :: r2 =>
                  match json_value fuel' r2 with
                  | None => None
                  | Some (v, r3) =>
                      match dropWhile json_ws r3 with
                      | 125 :: r' => Some ([(key, v)], r')
                      | 44 :: r' =>
                          match json_members fuel' r' with
                          | Some (fields, r'') => Some ((key, v) :: fields, r'')
                          | None => None
                          end
                      | _ => None
                      end
                  end
              | _ => None
              end
          end
      | _ => None
      end
  end.

Definition example_JSON_parse (s : jsstring) : Completion jsvalue :=
  match json_value (2 * length s + 2) s with
  | Some (v, r) =>
      match dropWhile json_ws r with
      | [] => Normal v
      | _ :: _ => Throw (Thrown (js "Unexpected non-whitespace character after JSON"))
      end
  | None => Throw (Thrown (js "Unexpected token in JSON"))
  end.

Definition hex_char (d : N) : N := if d <? 10 then 48 + d else 87 + d.

Definition json_quote (s : jsstring) : jsstring :=
  [34] ++
  flat_map (fun c =>
    if c =? 34 then [92; 34] else if c =? 92 then [92; 92]
    else if c =? 8 then [92; 98] else if c =? 12 then [92; 102]
    else if c =? 10 then [92; 110] else if c =? 13 then [92; 114]
    else if c =? 9 then [92; 116]
    else if c <? 32 then [92; 117; 48; 48; hex_char (c / 16); hex_char (c mod 16)]
    else [c]) s
  ++ [34].

Fixpoint example_JSON_stringify (v : jsvalue) : jsstring :=
  match v with
  | JNull => js "null"
  | JBool true => js "true"
  | JBool false => js "false"
  | JNum lit => lit
  | JStr s => json_quote s
  | JArr items =>
      [91] ++
      (fix join (l : list jsvalue) : jsstring :=
         match l with
         | [] => []
         | [x] => example_JSON_stringify x
         | x :: t => example_JSON_stringify x ++ [44] ++ join t
         end) items
      ++ [93]
  | JObj fields =>
      [123] ++
      (fix join (l : list (jsstring * jsvalue)) : jsstring :=
         match l with
         | [] => []
         | [(k, x)] => json_quote k ++ [58] ++ example_JSON_stringify x
         | (k, x) :: t =>
             json_quote k ++ [58] ++ example_JSON_stringify x ++ [44] ++ join t
         end) fields
      ++ [125]
  end.

(** The world of the examples: the platform above, the clock reading
    [now], the network [net] and the failures of the store. *)
Definition example_world (now : jsstring)
    (net : jsstring -> Completion Response)
    (get_fault put_fault : jsstring -> option JsError) : World :=
  mkWorld example_URL_parse example_JSON_parse example_JSON_stringify
    (fun _ method => Thrown (method ++ js " is not a function"))
    now net get_fault put_fault.

(** A successful response with the given body. *)
Definition response_200 (body : jsstring) : Response :=
  mkResponse true 200 (js "OK") true (Normal body) (Normal body).

Definition no_fault : jsstring -> option JsError := fun _ => None.

(** The names used in the examples. *)
Definition ex_url : jsstring := Eval vm_compute in js "https://a.com/sitemap.xml".
Definition ex_domain : jsstring := Eval vm_compute in js "a.com".
Definition ex_now : jsstring := Eval vm_compute in js "2024-05-01T10:00:00.000Z".
Definition ex_today : jsstring := Eval vm_compute in js "20240501".
Definition ex_body1 : jsstring :=
  Eval vm_compute in js "<urlset><url><loc>https://a.com/1</loc></url></urlset>".
Definition ex_body2 : jsstring :=
  Eval vm_compute in
    js "<urlset><url><loc>https://a.com/1</loc></url><url><loc>https://a.com/2</loc></url></urlset>".

(** A network that is down, and one that serves [body] for every URL. *)
Definition net_down : jsstring -> Completion Response :=
  fun _ => Throw (Thrown (js "Network connection lost."))%string.
Definition net_serving (body : jsstring) : jsstring -> Completion Response :=
  fun _ => Normal (response_200 body).

(** A store, updated today, with two non-empty snapshots. *)
Definition store_updated_today : Store :=
  mkStore
    (<[lastUpdateKey ex_domain := ex_today]>
       (<[currentKey ex_domain := ex_body2]>
          (<[latestKey ex_domain := ex_body1]> ∅)))
    [].

(** Three days: on the first the site serves [ex_body1], on the second an
    empty document, on the third [ex_body2]. *)
Definition world_day1 : World :=
  example_world (js "2024-04-29T08:00:00.000Z") (net_serving ex_body1)
    no_fault no_fault.
Definition world_day2 : World :=
  example_world (js "2024-04-30T08:00:00.000Z") (net_serving [])
    no_fault no_fault.
Definition world_day3 : World :=
  example_world ex_now (net_serving ex_body2) no_fault no_fault.

Definition empty_store : Store := mkStore ∅ [].

(** The store after the attempt of the first day, and after that of the
    second day. *)
Definition store_day1 : Store :=
  fst (downloadSitemap world_day1 ex_url false empty_store).
Definition store_day2 : Store :=
  fst (downloadSitemap world_day2 ex_url false store_day1).


(** The two components of a run, for the examples. *)
Definition store_of {A} (run : Store * Completion A) : Store := fst run.
Definition result_of (run : Store * Completion DownloadResult) : DownloadResult :=
  match snd run with
  | Normal r => r
  | Throw _ => mkResult false [] None []
  end.

(** Stores whose registry value is valid JSON but no list. *)
Definition store_registry_null : Store :=
  mkStore (<[feedsKey := js "null"]> ∅) [].
Definition store_registry_number : Store :=
  mkStore (<[feedsKey := js "42"]> ∅) [].

(** A store whose registry holds [ex_url]. *)
Definition store_registered : Store :=
  mkStore (<[feedsKey := [91; 34] ++ ex_url ++ [34; 93]]> ∅) [].

(** The same day: the source is added, removed, and added again. *)
Definition store_added : Store := store_of (addFeed world_day3 ex_url empty_store).
Definition store_removed : Store := store_of (removeFeed world_day3 ex_url store_added).

(** A store that cannot be read at the key of the [current] snapshot. *)
Definition world_current_unreadable : World :=
  example_world ex_now net_down
    (fun key =>
       if bool_decide (key = currentKey ex_domain)
       then Some (Thrown (js "KV GET failed: 500 Internal Server Error"))
       else None)
    no_fault.

(** A store whose registry text is cut short, and so is not valid JSON;
    it named another source. *)
Definition store_registry_truncated : Store :=
  mkStore (<[feedsKey := [91; 34] ++ js "https://b.org/sitemap.xml"]> ∅) [].

(** A registry of two sources. *)
Definition ex_url_b : jsstring := Eval vm_compute in js "https://b.org/sitemap.xml".
Definition store_two_sources : Store :=
  mkStore
    (<[feedsKey := [91; 34] ++ ex_url_b ++ [34; 44; 34] ++ ex_url ++ [34; 93]]> ∅)
    [].


(** Another sitemap of the host of the example. *)
Definition ex_url_news : jsstring :=
  Eval vm_compute in js "https://a.com/news.xml".
(** ** services/rss-manager.ts: reading a snapshot *)

Definition lit_current : jsstring := Eval vm_compute in js "current".
Definition lit_latest : jsstring := Eval vm_compute in js "latest".
Definition lit_dated : jsstring := Eval vm_compute in js "dated".
Definition msg_unknown_type : jsstring :=
  Eval vm_compute in js "未知的 sitemap 类型: ".

(** The [switch] of [getSitemapContent]: the key to read. A [date] that
    is [null] or empty is replaced by the day of the clock. *)
Definition sitemap_key (w : World) (domain type : jsstring)
    (date : option jsstring) : Completion jsstring :=
  if bool_decide (type = lit_current) then Normal (currentKey domain)
  else if bool_decide (type = lit_latest) then Normal (latestKey domain)
  else if bool_decide (type = lit_dated) then
    Normal (datedKey domain
              (match date with
               | Some (c :: t) => c :: t
               | _ => today w
               end))
  else Throw (Thrown (msg_unknown_type ++ type)).

(** [getSitemapContent(domain, type, date)] *)
Definition getSitemapContent (w : World) (domain type : jsstring)
    (date : option jsstring) : Async (option jsstring) :=
  try_catch
    (key <- lift (sitemap_key w domain type date) ;;
     kv_get w key)
    (fun error => ret None).


(** ** Operations that follow one another

    A moment: what the clock says, what the network answers and which
    accesses of the store are rejected while one operation runs. *)
Record Moment := mkMoment {
  clock : jsstring;                              (* [new Date().toISOString()] *)
  network : jsstring -> Completion Response;     (* [fetch(url, ...)] *)
  get_rejected : jsstring -> option JsError;     (* [kv.get(key)] rejects *)
  put_rejected : jsstring -> option JsError      (* [kv.put(key, _)] rejects *)
}.

(** The world of an operation that runs at the moment [m], on the
    platform of [w]. *)
Definition at_moment (w : World) (m : Moment) : World :=
  mkWorld (URL_parse w) (JSON_parse w) (JSON_stringify w) (not_a_function w)
    (clock m) (network m) (get_rejected m) (put_rejected m).

(** The moment of a world. *)
Definition moment_of (w : World) : Moment :=
  mkMoment (now_toISOString w) (fetch w) (kv_get_fault w) (kv_put_fault w).

(** The states that the operations of the manager produce, starting
    from the empty namespace, in whatever worlds they run. *)
Inductive Reachable : Store -> Prop :=
  | Reachable_empty : Reachable (mkStore ∅ [])
  | Reachable_downloadSitemap w url forceDownload st :
      Reachable st -> Reachable (fst (downloadSitemap w url forceDownload st))
  | Reachable_addFeed w url st :
      Reachable st -> Reachable (fst (addFeed w url st))
  | Reachable_removeFeed w url st :
      Reachable st -> Reachable (fst (removeFeed w url st)).

(** ** The passes over the registered sources

    The [for] loop of [performScheduledMonitoring] (index.ts) and the one
    of [handleNewsCommand] (apps/telegram-bot.ts): the first calls
    [addFeed] on every source, the second a forced [downloadSitemap].
    Both gather what they hand to [sendUnifiedReport] in four local
    variables. *)

Module DomainResult.
Record t := mk {
  domain : jsstring;
  newUrls : list jsstring;
  totalNew : nat
}.
End DomainResult.

(** The local variables of a pass; [domainResults] is a [Map], as the
    list of its entries in insertion order. *)
Record PassState := mkPass {
  domainResults : list (jsstring * DomainResult.t);
  allNewUrls : list jsstring;
  processedCount : nat;
  errorCount : nat
}.

(** [m.has(k)] *)
Definition Map_has {V} (m : list (jsstring * V)) (k : jsstring) : bool :=
  existsb (fun entry => bool_decide (fst entry = k)) m.

(** A change of the object that [m.get(k)] returns: the map holds the
    object itself, so the entry changes with it. *)
Fixpoint Map_update {V} (f : V -> V) (m : list (jsstring * V))
    (k : jsstring) : list (jsstring * V) :=
  match m with
  | [] => []
  | (k', v) :: t =>
      if bool_decide (k' = k) then (k', f v) :: t
      else (k', v) :: Map_update f t k
  end.

(** [domainData.newUrls.push(...urls); domainData.totalNew += urls.length] *)
Definition push_urls (urls : list jsstring) (domainData : DomainResult.t)
    : DomainResult.t :=
  DomainResult.mk (DomainResult.domain domainData)
    (DomainResult.newUrls domainData ++ urls)
    (DomainResult.totalNew domainData + length urls).

(** The statements under [if (result.success)], once [domain] is known:
    the entry of the domain is created when it is missing, and the new
    URLs, when there are some, are added to it and to [allNewUrls]. *)
Definition group_by_domain (domain : jsstring) (urls : list jsstring)
    (p : PassState) : PassState :=
  let domainResults1 :=
    if negb (Map_has (domainResults p) domain)
    then domainResults p ++ [(domain, DomainResult.mk domain [] 0)]
    else domainResults p in
  if (0 <? length urls)%nat then
    mkPass (Map_update (push_urls urls) domainResults1 domain)
      (allNewUrls p ++ urls) (processedCount p) (errorCount p)
  else
    mkPass domainResults1 (allNewUrls p) (processedCount p) (errorCount p).

(** [processedCount++] and [errorCount++] *)
Definition processed (p : PassState) : PassState :=
  mkPass (domainResults p) (allNewUrls p) (S (processedCount p)) (errorCount p).

Definition failed (p : PassState) : PassState :=
  mkPass (domainResults p) (allNewUrls p) (processedCount p) (S (errorCount p)).

(** One turn of the loop of [performScheduledMonitoring], with its
    [try]/[catch]: a throw after [processedCount++] leaves the increment
    done. The pause between two turns changes nothing. *)
Definition performScheduledMonitoring_turn (w : World) (url : jsstring)
    (p : PassState) : Async PassState :=
  fun st =>
    match addFeed w url st with
    | (st1, Throw error) => (st1, Normal (failed p))
    | (st1, Normal result) =>
        let p1 := processed p in
        if success result then
          match URL_parse w url with
          | Throw error => (st1, Normal (failed p1))
          | Normal u =>
              (st1, Normal (group_by_domain (hostname u) (newUrls result) p1))
          end
        else (st1, Normal (failed p1))
    end.

(** One turn of the loop of [handleNewsCommand]: the attempt is forced,
    and only the [catch] counts an error. *)
Definition handleNewsCommand_turn (w : World) (url : jsstring)
    (p : PassState) : Async PassState :=
  fun st =>
    match downloadSitemap w url true st with
    | (st1, Throw error) => (st1, Normal (failed p))
    | (st1, Normal result) =>
        let p1 := processed p in
        if success result then
          match URL_parse w url with
          | Throw error => (st1, Normal (failed p1))
          | Normal u =>
              (st1, Normal (group_by_domain (hostname u) (newUrls result) p1))
          end
        else (st1, Normal p1)
    end.

(** A [for] loop over the sources, every turn in the same world; see
    [pass_loop_at] for turns that each have a moment of their own. *)
Fixpoint pass_loop (turn : jsstring -> PassState -> Async PassState)
    (feeds : list jsstring) (p : PassState) : Async PassState :=
  match feeds with
  | [] => ret p
  | url :: feeds' => p' <- turn url p ;; pass_loop turn feeds' p'
  end.

(** The loops, from the initial values of the variables; the result is
    what [sendUnifiedReport] is called with. *)
Definition performScheduledMonitoring_loop (w : World)
    (feeds : list jsstring) : Async PassState :=
  pass_loop (performScheduledMonitoring_turn w) feeds (mkPass [] [] 0 0).

Definition handleNewsCommand_loop (w : World) (feeds : list jsstring)
    : Async PassState :=
  pass_loop (handleNewsCommand_turn w) feeds (mkPass [] [] 0 0).

(** The invariant of the grouping: one entry per domain, each entry
    naming its domain and counting its URLs, and [allNewUrls] holding the
    URLs of the entries. *)
Definition grouped (p : PassState) : Prop :=
  NoDup (fst <$> domainResults p) /\
  Forall (fun entry =>
            DomainResult.domain (snd entry) = fst entry /\
            DomainResult.totalNew (snd entry)
              = length (DomainResult.newUrls (snd entry)))
         (domainResults p) /\
  Permutation (allNewUrls p)
    (concat ((fun entry => DomainResult.newUrls (snd entry))
               <$> domainResults p)).

(** What a turn of either loop does to the variables. *)
Definition turn_spec (w : World) (url : jsstring) (p p1 : PassState) : Prop :=
  processedCount p1 = S (processedCount p) /\
  (errorCount p <= errorCount p1 <= S (errorCount p))%nat /\
  (grouped p -> grouped p1) /\
  (forall k, k ∈ fst <$> domainResults p1 ->
     k ∈ fst <$> domainResults p \/
     exists u, URL_parse w url = Normal u /\ hostname u = k) /\
  (errorCount p1 = errorCount p ->
   forall k, k ∈ fst <$> domainResults p -> k ∈ fst <$> domainResults p1).


(** The variables at the end of a run of a loop. *)
Definition pass_of (run : Store * Completion PassState) : PassState :=
  match snd run with
  | Normal p => p
  | Throw _ => mkPass [] [] 0 0
  end.

(** A [for] loop whose turns run one after the other, each at a moment
    of its own: turn [i] has the clock, the network and the rejections
    of [moments i]. *)
Fixpoint pass_loop_at (turn : World -> jsstring -> PassState -> Async PassState)
    (w : World) (moments : nat -> Moment) (feeds : list jsstring)
    (p : PassState) : Async PassState :=
  match feeds with
  | [] => ret p
  | url :: feeds' =>
      p' <- turn (at_moment w (moments 0%nat)) url p ;;
      pass_loop_at turn w (fun i => moments (S i)) feeds' p'
  end.

Definition performScheduledMonitoring_loop_at (w : World)
    (moments : nat -> Moment) (feeds : list jsstring) : Async PassState :=
  pass_loop_at performScheduledMonitoring_turn w moments feeds
    (mkPass [] [] 0 0).

(** Moments for the examples: the world of the example at every turn,
    and the same with the read of the registry rejected in the first
    turn. *)
Definition moments_day3 : nat -> Moment := fun _ => moment_of world_day3.

Definition moments_registry_unreadable : nat -> Moment :=
  fun i =>
    match i with
    | O =>
        mkMoment (now_toISOString world_day3) (fetch world_day3)
          (fun key =>
             if bool_decide (key = feedsKey)
             then Some (Thrown (js "KV GET failed: 500 Internal Server Error"))
             else None)
          no_fault
    | S _ => moment_of world_day3
    end.

(** ** apps/telegram-bot.ts: the distribution over the domains *)

Module DomainStat.
Record t := mk {
  domain : jsstring;
  count : nat
}.
End DomainStat.

(** One turn of the loop of [extractDomainStats], with its
    [try]/[catch]. *)
Definition count_domain (w : World) (domainCounts : list (jsstring * nat))
    (url : jsstring) : list (jsstring * nat) :=
  match URL_parse w url with
  | Throw _ => domainCounts
  | Normal urlObj =>
      let domain := hostname urlObj in
      Map_set domainCounts domain
        (default 0%nat (Map_get domainCounts domain) + 1)%nat
  end.

(** [Array.prototype.sort] with the comparator [b.count - a.count], on
    records of any type that has a count; as [sort_by_count], the stable
    sort. *)
Fixpoint sort_insert_desc {A} (count : A -> nat) (a : A) (l : list A)
    : list A :=
  match l with
  | [] => [a]
  | b :: t =>
      if (count b <=? count a)%nat then a :: b :: t
      else b :: sort_insert_desc count a t
  end.

Definition sort_desc {A} (count : A -> nat) (l : list A) : list A :=
  foldr (sort_insert_desc count) [] l.

(** [extractDomainStats(urls)] *)
Definition extractDomainStats (w : World) (urls : list jsstring)
    : list DomainStat.t :=
  let domainCounts := fold_left (count_domain w) urls [] in
  sort_desc DomainStat.count
    ((fun entry => DomainStat.mk (fst entry) (snd entry)) <$> domainCounts).

(** [extractKeywords(urls)] of apps/telegram-bot.ts *)
Definition extractKeywords (w : World) (urls : list jsstring)
    : list jsstring :=
  keyword <$> extractKeywordsWithCount w urls.

(** The hosts of the URLs that parse, in the order of the list. *)
Definition url_domains (w : World) (urls : list jsstring) : list jsstring :=
  flat_map (fun url => match URL_parse w url with
                       | Throw _ => []
                       | Normal urlObj => [hostname urlObj]
                       end) urls.

(** ** apps/discord-bot.ts: the keywords *)

Module Discord.

(** [keywords.add(segment)] on a [Set], as the list of its elements in
    insertion order. *)
Definition Set_add (keywords : list jsstring) (segment : jsstring)
    : list jsstring :=
  if includes keywords segment then keywords else keywords ++ [segment].

(** One turn of the inner loop. *)
Definition add_segment (keywords : list jsstring) (segment : jsstring)
    : list jsstring :=
  if (3 <? length segment)%nat && negb (existsb (N.eqb 45) segment)
  then Set_add keywords segment
  else keywords.

(** One turn of the outer loop, with its [try]/[catch]. *)
Definition add_url (w : World) (keywords : list jsstring) (url : jsstring)
    : list jsstring :=
  match URL_parse w url with
  | Throw _ => keywords
  | Normal urlObj =>
      let path := pathname urlObj in
      let segments :=
        List.filter (fun segment => (2 <? length segment)%nat) (split 47 path) in
      fold_left add_segment segments keywords
  end.

(** [extractKeywords(urls)] of apps/discord-bot.ts *)
Definition extractKeywords (w : World) (urls : list jsstring)
    : list jsstring :=
  take 10 (fold_left (add_url w) urls []).

(** The segments that the loops add, in the order they are met. *)
Definition url_segments (w : World) (url : jsstring) : list jsstring :=
  match URL_parse w url with
  | Throw _ => []
  | Normal urlObj =>
      List.filter
        (fun segment =>
           (3 <? length segment)%nat && negb (existsb (N.eqb 45) segment))
        (split 47 (pathname urlObj))
  end.

End Discord.

(** The elements of a list without their repetitions: each one stands
    where it occurs first. *)
Fixpoint first_occurrences (l : list jsstring) : list jsstring :=
  match l with
  | [] => []
  | x :: t =>
      x :: List.filter (fun y => negb (bool_decide (y = x))) (first_occurrences t)
  end.

(** The order of the statistics of the domains. *)
Definition by_domain_count_desc (a b : DomainStat.t) : Prop :=
  (DomainStat.count b <= DomainStat.count a)%nat.

(** ** services/xml-parser.ts: [isValidSitemap] *)

Definition lit_urlset_open : jsstring := Eval vm_compute in js "<urlset".
Definition lit_sitemapindex_open : jsstring :=
  Eval vm_compute in js "<sitemapindex".

(** [/<urlset[^>]*>/i] and [/<sitemapindex[^>]*>/i] *)
Definition tagRegex (open : jsstring) : Pattern :=
  PSeq (PLit open) (PSeq (PStar true (AllBut lit_gt)) (PChar lit_gt)).

(** [/<loc[^>]*>.*?<\/loc>/i] *)
Definition locTagsRegex : Pattern :=
  PSeq (PLit lit_loc_open)
    (PSeq (PStar true (AllBut lit_gt))
      (PSeq (PChar lit_gt)
        (PSeq (PStar false Dot)
          (PLit lit_loc_close)))).

(** [re.test(s)] for a regular expression without the g flag: the search
    starts at index 0. *)
Definition RegExp_test (ignoreCase : bool) (p : Pattern) (s : jsstring)
    : bool :=
  match RegExp_exec ignoreCase p s 0 with
  | Some _ => true
  | None => false
  end.

(** [isValidSitemap(xmlContent)]; nothing in the [try] throws. *)
Definition isValidSitemap (xmlContent : jsstring) : bool :=
  let hasUrlset := RegExp_test true (tagRegex lit_urlset_open) xmlContent in
  let hasSitemapindex :=
    RegExp_test true (tagRegex lit_sitemapindex_open) xmlContent in
  let hasLocTags := RegExp_test true locTagsRegex xmlContent in
  (hasUrlset || hasSitemapindex) && hasLocTags.

(** A pattern without its capture groups. *)
Fixpoint erase_groups (p : Pattern) : Pattern :=
  match p with
  | PGroup q => erase_groups q
  | PSeq q r => PSeq (erase_groups q) (erase_groups r)
  | _ => p
  end.

(** Two results of a matcher that agree but for the capture. *)
Definition agree (o1 o2 : option MatchState) : Prop :=
  match o1, o2 with
  | Some y1, Some y2 => rest y1 = rest y2 /\ endIndex y1 = endIndex y2
  | None, None => True
  | _, _ => False
  end.

(** [OpensTag open xml]: somewhere in [xml] stands the text [open], in
    any case, and a [>] follows it, at once or later. *)
Definition OpensTag (open xml : jsstring) : Prop :=
  exists pre o mid post,
    xml = pre ++ o ++ mid ++ [lit_gt] ++ post /\
    equals_ci o open = true.

(** ** apps/telegram-bot.ts: the domains of the unified report *)

(** The domains that [sendUnifiedReport] lists:
    [Array.from(domainResults.values()).filter(domain => domain.totalNew > 0)
       .sort((a, b) => b.totalNew - a.totalNew)]. *)
Definition sortedDomains (domainResults : list (jsstring * DomainResult.t))
    : list DomainResult.t :=
  sort_desc DomainResult.totalNew
    (List.filter (fun domain => (0 <? DomainResult.totalNew domain)%nat)
       (snd <$> domainResults)).

(** [domainData.newUrls.slice(0, 3)], and the number that the line
    [...(还有 n 个)] gives when there are more. *)
Definition sampleUrls (domainData : DomainResult.t) : list jsstring :=
  take 3 (DomainResult.newUrls domainData).

Definition not_shown (domainData : DomainResult.t) : nat :=
  (length (DomainResult.newUrls domainData) - 3)%nat.

(** ** config.ts *)

(** The variables of the environment that [initConfig] reads; [None] is
    a variable that is not set. *)
Record Env := mkEnv {
  TELEGRAM_BOT_TOKEN : option jsstring;
  TELEGRAM_TARGET_CHAT : option jsstring;
  DISCORD_TOKEN : option jsstring;
  SITEMAP_STORAGE : bool              (* whether the KV binding is there *)
}.

(** [telegramConfig] and [discordConfig] *)
Record Config := mkConfig {
  telegram_token : jsstring;
  telegram_targetChat : jsstring;
  discord_token : jsstring
}.

Record ValidationResult := mkValidation {
  isValid : bool;
  errors : list jsstring
}.

(** [v || ""] *)
Definition or_empty (v : option jsstring) : jsstring :=
  match v with
  | Some (c :: t) => c :: t
  | _ => []
  end.

(** [initConfig(env)]: the configuration afterwards. *)
Definition initConfig (env : Env) : Config :=
  mkConfig (or_empty (TELEGRAM_BOT_TOKEN env))
    (or_empty (TELEGRAM_TARGET_CHAT env))
    (or_empty (DISCORD_TOKEN env)).

Definition msg_token_unset : jsstring :=
  Eval vm_compute in js "TELEGRAM_BOT_TOKEN 未设置".
Definition msg_chat_unset : jsstring :=
  Eval vm_compute in js "TELEGRAM_TARGET_CHAT 未设置".

(** [validateConfig()], on the configuration it reads. *)
Definition validateConfig (config : Config) : ValidationResult :=
  let errors := [] in
  let errors :=
    if negb (truthy (telegram_token config))
    then errors ++ [msg_token_unset] else errors in
  let errors :=
    if negb (truthy (telegram_targetChat config))
    then errors ++ [msg_chat_unset] else errors in
  mkValidation (length errors =? 0)%nat errors.

(** ** index.ts: [initializeApp] *)

(** [l.join(sep)] *)
Fixpoint join (sep : jsstring) (l : list jsstring) : jsstring :=
  match l with
  | [] => []
  | x :: t =>
      match t with
      | [] => x
      | _ :: _ => x ++ sep ++ join sep t
      end
  end.

Definition msg_config_error : jsstring := Eval vm_compute in js "配置错误: ".
Definition lit_comma_space : jsstring := Eval vm_compute in js ", ".

(** [initializeApp(env, strict)]: the configuration afterwards, which is
    set before the validation, and the completion, whose value tells
    whether the manager was created. [validateConfig] takes no
    parameter, so the [strict] it is called with is dropped. *)
Definition initializeApp (env : Env) (strict : bool)
    : Config * Completion bool :=
  let config := initConfig env in
  let validation := validateConfig config in
  if negb (isValid validation) then
    (config,
     Throw (Thrown (msg_config_error
                      ++ join lit_comma_space (errors validation))))
  else (config, Normal (SITEMAP_STORAGE env)).

(** ** services/xml-parser.ts: [extractURLsWithLastMod] *)

(** The matcher with the s flag as a parameter: with [dotAll], [.]
    matches every character. Without it this is [CompilePattern]. *)
Definition CharSetMatches_flags (dotAll ignoreCase : bool) (cs : CharSet)
    (ch : N) : bool :=
  match cs with
  | Dot => dotAll || negb (isLineTerminator ch)
  | AllBut c => negb (Canonicalize ignoreCase ch =? Canonicalize ignoreCase c)
  end.

Fixpoint CompilePattern_flags (dotAll ignoreCase : bool) (p : Pattern)
    (x : MatchState) (c : Continuation) : option MatchState :=
  match p with
  | PEmpty => c x
  | PChar ch =>
      match rest x with
      | [] => None
      | a :: t =>
          if Canonicalize ignoreCase a =? Canonicalize ignoreCase ch
          then c (mkState t (S (endIndex x)) (capture1 x))
          else None
      end
  | PStar greedy cs =>
      RepeatMatcher (CharSetMatches_flags dotAll ignoreCase cs) greedy
        (rest x) (endIndex x) (capture1 x) c
  | PGroup q =>
      CompilePattern_flags dotAll ignoreCase q x
        (fun y => c (mkState (rest y) (endIndex y)
                       (Some (take (endIndex y - endIndex x)%nat (rest x)))))
  | PSeq q r =>
      CompilePattern_flags dotAll ignoreCase q x
        (fun y => CompilePattern_flags dotAll ignoreCase r y c)
  end.

Definition RegExp_exec_flags (dotAll ignoreCase : bool) (p : Pattern)
    (s : jsstring) (lastIndex : nat) : option MatchState :=
  if (length s <? lastIndex)%nat then None
  else search (fun x => CompilePattern_flags dotAll ignoreCase p x Some)
         (drop lastIndex s) lastIndex.

Definition lit_url_open : jsstring := Eval vm_compute in js "<url".
Definition lit_url_close : jsstring := Eval vm_compute in js "</url>".
Definition lit_lastmod_open : jsstring := Eval vm_compute in js "<lastmod".
Definition lit_lastmod_close : jsstring := Eval vm_compute in js "</lastmod>".

(** [<open[^>]*>(.*?)close], the shape of the three patterns; [locRegex]
    is the one of [<loc] and [</loc>]. *)
Definition tagPairRegex (open close : jsstring) : Pattern :=
  PSeq (PLit open)
    (PSeq (PStar true (AllBut lit_gt))
      (PSeq (PChar lit_gt)
        (PSeq (PGroup (PStar false Dot))
          (PLit close)))).

(** [/<url[^>]*>(.*?)<\/url>/gis] *)
Definition urlBlockRegex : Pattern := tagPairRegex lit_url_open lit_url_close.

(** [/<lastmod[^>]*>(.*?)<\/lastmod>/i] *)
Definition lastmodRegex : Pattern :=
  tagPairRegex lit_lastmod_open lit_lastmod_close.

Module UrlWithLastMod.
Record t := mk {
  url : jsstring;
  lastmod : option jsstring          (* [None] is [undefined] *)
}.
End UrlWithLastMod.

Inductive EntriesOutcome :=
  | EntriesOutOfFuel
  | EntriesThrew
  | EntriesDone (results : list UrlWithLastMod.t).

(** The body of the [while] loop for one block: [results] afterwards, or
    [None] when it throws ([.trim()] on [undefined]). The two inner
    patterns have no g flag, so they search from index 0. *)
Definition block_entry (urlBlock : jsstring) (results : list UrlWithLastMod.t)
    : option (list UrlWithLastMod.t) :=
  let locMatch := RegExp_exec true locRegex urlBlock 0 in
  let lastmodMatch := RegExp_exec true lastmodRegex urlBlock 0 in
  match locMatch with
  | None => Some results
  | Some lm =>
      match capture1 lm with
      | None => None
      | Some l1 =>
          let url := trim l1 in
          let lastmod :=
            match lastmodMatch with
            | None => Some None
            | Some mm =>
                match capture1 mm with
                | None => None
                | Some m1 => Some (Some (trim m1))
                end
            end in
          match lastmod with
          | None => None
          | Some lastmod =>
              Some (if truthy url &&
                       (startsWith url lit_http || startsWith url lit_https)
                    then results ++
                         [UrlWithLastMod.mk url
                            (if truthy_opt lastmod then lastmod else None)]
                    else results)
          end
      end
  end.

(** The [while] loop over [urlBlockRegex.exec(xmlContent)]. *)
Fixpoint blocks_loop (fuel : nat) (xmlContent : jsstring) (lastIndex : nat)
    (results : list UrlWithLastMod.t) : EntriesOutcome :=
  match fuel with
  | O => EntriesOutOfFuel
  | S fuel' =>
      match RegExp_exec_flags true true urlBlockRegex xmlContent lastIndex with
      | None => EntriesDone results
      | Some urlMatch =>
          match capture1 urlMatch with
          | None => EntriesThrew
          | Some urlBlock =>
              match block_entry urlBlock results with
              | None => EntriesThrew
              | Some results' =>
                  blocks_loop fuel' xmlContent (endIndex urlMatch) results'
              end
          end
      end
  end.

(** [extractURLsWithLastMod(xmlContent)]: as for [extractURLs], a match
    is never empty, and the [catch] gives the empty list. *)
Definition extractURLsWithLastMod (xmlContent : jsstring)
    : list UrlWithLastMod.t :=
  match blocks_loop (S (length xmlContent)) xmlContent 0 [] with
  | EntriesDone results => results
  | EntriesThrew => []
  | EntriesOutOfFuel => []
  end.

(** *** The scan that the three patterns perform, written directly *)

(** From just after the [>] of the opening tag: the characters up to the
    first [close], all of which must pass [ok], and what follows it. *)
Fixpoint scan_to (close : jsstring) (ok : N -> bool) (s : jsstring)
    : option (jsstring * jsstring) :=
  match strip_ci close s with
  | Some r => Some ([], r)
  | None =>
      match s with
      | [] => None
      | a :: t =>
          if ok a then
            match scan_to close ok t with
            | Some (cap, r) => Some (a :: cap, r)
            | None => None
            end
          else None
      end
  end.

Definition tag_here (open close : jsstring) (ok : N -> bool) (s : jsstring)
    : option (jsstring * jsstring) :=
  match strip_ci open s with
  | None => None
  | Some s1 =>
      match dropWhile (fun a => negb (a =? lit_gt)) s1 with
      | [] => None
      | _ :: s2 => scan_to close ok s2
      end
  end.

Fixpoint find_tag (open close : jsstring) (ok : N -> bool) (s : jsstring)
    : option (jsstring * jsstring) :=
  match tag_here open close ok s with
  | Some m => Some m
  | None =>
      match s with
      | [] => None
      | _ :: t => find_tag open close ok t
      end
  end.

Fixpoint tag_contents (fuel : nat) (open close : jsstring) (ok : N -> bool)
    (s : jsstring) : list jsstring :=
  match fuel with
  | O => []
  | S fuel' =>
      match find_tag open close ok s with
      | None => []
      | Some (cap, r) => cap :: tag_contents fuel' open close ok r
      end
  end.

Definition any_char (c : N) : bool := true.
Definition on_line (c : N) : bool := negb (isLineTerminator c).

(** The contents of the [<url ...>...</url>] blocks, which may span
    lines. *)
Definition url_blocks (xmlContent : jsstring) : list jsstring :=
  tag_contents (S (length xmlContent)) lit_url_open lit_url_close any_char
    xmlContent.

(** The first [lastmod] of a block, trimmed; none when it is empty. *)
Definition block_lastmod (urlBlock : jsstring) : option jsstring :=
  match find_tag lit_lastmod_open lit_lastmod_close on_line urlBlock with
  | Some (m1, _) => if truthy (trim m1) then Some (trim m1) else None
  | None => None
  end.

(** The entry that a block gives: its first [loc], when that is an
    http(s) URL, with the first [lastmod]. *)
Definition entry_of_block (urlBlock : jsstring) : option UrlWithLastMod.t :=
  match find_match urlBlock with
  | None => None
  | Some (cap, _) =>
      if is_http_url (trim cap)
      then Some (UrlWithLastMod.mk (trim cap) (block_lastmod urlBlock))
      else None
  end.

(** [TagPairOf open close ok s cap r]: the relation [TagPair] for any
    pair of tags and any test on the characters of the content. *)
Definition TagPairOf (open close : jsstring) (ok : N -> bool)
    (s cap r : jsstring) : Prop :=
  exists o attrs cl,
    s = o ++ attrs ++ [lit_gt] ++ cap ++ cl ++ r /\
    equals_ci o open = true /\
    Forall (fun a => a <> lit_gt) attrs /\
    equals_ci cl close = true /\
    Forall (fun a => ok a = true) cap /\
    (forall k, (k < length cap)%nat ->
       strip_ci close (drop k (cap ++ cl ++ r)) = None).
(* ===================================================================== *)
(** * Part II: lemmas and theorems *)
(* ===================================================================== *)

(** ** The regular expression of [extractURLs] *)

Section RegexFacts.

Lemma dropWhile_length {A} (f : A -> bool) (l : list A) :
  (length (dropWhile f l) <= length l)%nat.
Proof.
  induction l as [|b l IHl]; simpl; trivial.
  destruct (f b); simpl; lia.
Qed.

Lemma Canonicalize_gt a :
  (Canonicalize true a =? Canonicalize true lit_gt) = (a =? lit_gt).
Proof.
  unfold Canonicalize, lit_gt. simpl.
  destruct (97 <=? a) eqn:H1; destruct (a <=? 122) eqn:H2; simpl; trivial.
  apply N.leb_le in H1. apply N.leb_le in H2.
  destruct (N.eqb_spec (a - 32) 62); destruct (N.eqb_spec a 62); trivial; lia.
Qed.

(** A literal consumes its text, whatever its case. *)
Lemma CompilePattern_PLit p s e cap c :
  CompilePattern true (PLit p) (mkState s e cap) c =
  match strip_ci p s with
  | Some r => c (mkState r (e + length p)%nat cap)
  | None => None
  end.
Proof.
  revert s e. induction p as [|b p IH]; intros s e; simpl.
  - f_equal. f_equal. lia.
  - destruct s as [|a s]; trivial.
    destruct (Canonicalize true a =? Canonicalize true b); trivial.
    rewrite IH. destruct (strip_ci p s); trivial. do 2 f_equal. lia.
Qed.

(** [[^>]*>]: the greedy star runs to the first [>]; giving characters back
    never helps, since none of them is a [>]. *)
Lemma RepeatMatcher_to_gt q s e cap c :
  RepeatMatcher (CharSetMatches true (AllBut lit_gt)) true s e cap
    (fun y => CompilePattern true (PSeq (PChar lit_gt) q) y c) =
  match dropWhile (fun a => negb (a =? lit_gt)) s with
  | [] => None
  | _ :: s2 =>
      CompilePattern true q (mkState s2 (S (e + (length s - S (length s2)))) cap) c
  end.
Proof.
  revert e. induction s as [|a s IH]; intros e; simpl; trivial.
  rewrite Canonicalize_gt.
  destruct (a =? lit_gt) eqn:Ha; simpl.
  - do 2 f_equal. lia.
  - rewrite IH. 
    pose proof (dropWhile_length (fun a => negb (a =? lit_gt)) s) as Hlen.
    destruct (dropWhile (fun a0 => negb (a0 =? lit_gt)) s) as [|g s2] eqn:Hd; trivial.
    simpl in Hlen.
    replace (S (S e + (length s - S (length s2)))) with
      (S (e + (S (length s) - S (length s2)))) by lia.
    destruct (CompilePattern true q _ c); trivial.
Qed.

Lemma strip_ci_length p s r :
  strip_ci p s = Some r -> length s = (length p + length r)%nat.
Proof.
  revert s. induction p as [|b p IH]; intros s H; simpl in *.
  - congruence.
  - destruct s as [|a s]; [discriminate|].
    destruct (Canonicalize true a =? Canonicalize true b); [|discriminate].
    simpl. rewrite (IH _ H). trivial.
Qed.

Lemma scan_content_length s cap r :
  scan_content s = Some (cap, r) ->
  length s = (length cap + length lit_loc_close + length r)%nat.
Proof.
  revert cap. induction s as [|a s IH]; intros cap H.
  - simpl in H. discriminate.
  - cbn [scan_content] in H.
    destruct (strip_ci lit_loc_close (a :: s)) as [r'|] eqn:Hs.
    + injection H as <- <-. apply strip_ci_length in Hs. simpl in *. lia.
    + destruct (isLineTerminator a); [discriminate|].
      destruct (scan_content s) as [[cap' r']|]; [|discriminate].
      injection H as <- <-. simpl. rewrite (IH cap' eq_refl). simpl. lia.
Qed.

(** [(.*?)</loc>]: the lazy star stops at the first closing tag, and fails
    at a line terminator met before one. *)
Lemma RepeatMatcher_lazy_content s0 e0 pre s cap0 :
  s0 = pre ++ s ->
  RepeatMatcher (CharSetMatches true Dot) false s (e0 + length pre)%nat cap0
    (fun y => CompilePattern true (PLit lit_loc_close)
                (mkState (rest y) (endIndex y)
                   (Some (take (endIndex y - e0)%nat s0))) Some) =
  match scan_content s with
  | Some (cap, r) =>
      Some (mkState r (e0 + length pre + length cap + length lit_loc_close)%nat
              (Some (pre ++ cap)))
  | None => None
  end.
Proof.
  revert pre. induction s as [|a s IH]; intros pre Hs0.
  - simpl. trivial.
  - assert (Hk : CompilePattern true (PLit lit_loc_close)
              (mkState (a :: s) (e0 + length pre)%nat
                 (Some (take (e0 + length pre - e0)%nat s0))) Some =
            match strip_ci lit_loc_close (a :: s) with
            | Some r => Some (mkState r (e0 + length pre + length lit_loc_close)%nat
                                (Some pre))
            | None => None
            end).
    { rewrite CompilePattern_PLit.
      replace (e0 + length pre - e0)%nat with (length pre) by lia.
      rewrite Hs0, take_app_length. trivial. }
    cbn [RepeatMatcher scan_content]. cbn [rest endIndex].
    rewrite Hk. clear Hk.
    destruct (strip_ci lit_loc_close (a :: s)) as [r|] eqn:Hstrip.
    + rewrite app_nil_r, Nat.add_0_r.
      destruct (CharSetMatches true Dot a); trivial.
    + cbn [CharSetMatches].
      destruct (isLineTerminator a); cbn [negb]; trivial.
      specialize (IH (pre ++ [a])).
      rewrite length_app in IH. cbn [length] in IH.
      replace (e0 + (length pre + 1))%nat with (S (e0 + length pre)) in IH by lia.
      rewrite IH by (rewrite <- app_assoc; exact Hs0).
      destruct (scan_content s) as [[cap r]|]; trivial.
      rewrite <- app_assoc. cbn [length app]. do 2 f_equal. lia.
Qed.

(** The matcher of [locRegex], in closed form. *)
Lemma locRegex_match_here s i cap0 :
  CompilePattern true locRegex (mkState s i cap0) Some =
  match match_here s with
  | Some (cap, r) => Some (mkState r (i + (length s - length r))%nat (Some cap))
  | None => None
  end.
Proof.
  unfold locRegex, match_here.
  change (CompilePattern true (PSeq ?q ?r) ?x ?c) with
    (CompilePattern true q x (fun y => CompilePattern true r y c)) at 1.
  rewrite CompilePattern_PLit.
  destruct (strip_ci lit_loc_open s) as [s1|] eqn:Ho; trivial.
  apply strip_ci_length in Ho.
  match goal with
  | |- CompilePattern true (PSeq (PStar true ?cs) (PSeq (PChar lit_gt) ?q)) ?x ?c = _ =>
      change (CompilePattern true (PSeq (PStar true cs) (PSeq (PChar lit_gt) q)) x c)
        with (RepeatMatcher (CharSetMatches true cs) true (rest x) (endIndex x)
                (capture1 x)
                (fun y => CompilePattern true (PSeq (PChar lit_gt) q) y c))
  end.
  cbn [rest endIndex capture1].
  rewrite RepeatMatcher_to_gt.
  pose proof (dropWhile_length (fun a => negb (a =? lit_gt)) s1) as Hlen.
  destruct (dropWhile (fun a => negb (a =? lit_gt)) s1) as [|g s2]; trivial.
  set (e2 := S (i + length lit_loc_open + (length s1 - S (length s2)))).
  pose proof (RepeatMatcher_lazy_content s2 e2 [] s2 cap0 eq_refl) as Hl.
  cbn [length app] in Hl. rewrite Nat.add_0_r in Hl.
  etrans; [exact Hl|]. clear Hl.
  destruct (scan_content s2) as [[cap r]|] eqn:Hc; trivial.
  apply scan_content_length in Hc.
  f_equal. f_equal. subst e2. simpl in *. lia.
Qed.

End RegexFacts.

(** ** The direct scan and its specification *)

Section ScanFacts.

Lemma strip_ci_spec p s r :
  strip_ci p s = Some r <->
  exists o, s = o ++ r /\ equals_ci o p = true.
Proof.
  revert s. induction p as [|b p IH]; intros s; simpl.
  - split.
    + intros [= ->]. exists []. split; trivial.
    + intros (o & -> & Ho). destruct o; [trivial|discriminate].
  - destruct s as [|a s].
    + split; [discriminate|]. intros (o & Ho & He).
      destruct o; simpl in *; discriminate.
    + destruct (Canonicalize true a =? Canonicalize true b) eqn:Hab.
      * rewrite IH. split.
        -- intros (o & -> & He). exists (a :: o). simpl. rewrite Hab. auto.
        -- intros (o & Ho & He). destruct o as [|a' o]; [discriminate|].
           simpl in *. injection Ho as <- ->.
           rewrite Hab in He. simpl in He. eauto.
      * split; [discriminate|]. intros (o & Ho & He).
        destruct o as [|a' o]; [discriminate|].
        simpl in *. injection Ho as <- ->. rewrite Hab in He. discriminate.
Qed.

Lemma dropWhile_gt_spec s1 g s2 :
  dropWhile (fun a => negb (a =? lit_gt)) s1 = g :: s2 <->
  exists attrs, s1 = attrs ++ [lit_gt] ++ s2 /\ g = lit_gt /\
                Forall (fun a => a <> lit_gt) attrs.
Proof.
  induction s1 as [|a s1 IH]; simpl.
  - split; [discriminate|]. intros (attrs & H & _). destruct attrs; discriminate.
  - destruct (N.eqb_spec a lit_gt) as [->|Hne]; simpl.
    + split.
      * intros [= <- <-]. exists []. auto.
      * intros (attrs & H & -> & Hf). destruct attrs as [|a' attrs].
        -- simpl in H. congruence.
        -- simpl in H. injection H as <- ->. inversion Hf. congruence.
    + rewrite IH. split.
      * intros (attrs & -> & -> & Hf). exists (a :: attrs). auto.
      * intros (attrs & H & -> & Hf). destruct attrs as [|a' attrs].
        -- simpl in H. congruence.
        -- simpl in H. injection H as <- ->. inversion Hf. eauto.
Qed.

Lemma scan_content_spec s cap r :
  scan_content s = Some (cap, r) <->
  exists cl, s = cap ++ cl ++ r /\ equals_ci cl lit_loc_close = true /\
             Forall (fun a => isLineTerminator a = false) cap /\
             (forall k, (k < length cap)%nat ->
                strip_ci lit_loc_close (drop k s) = None).
Proof.
  revert cap. induction s as [|a s IH]; intros cap.
  - split.
    + discriminate.
    + intros (cl & H & He & _).
      destruct cap; [|discriminate]. destruct cl; discriminate.
  - cbn [scan_content].
    destruct (strip_ci lit_loc_close (a :: s)) as [r'|] eqn:Hs.
    + split.
      * intros [= <- <-]. apply strip_ci_spec in Hs as (cl & -> & He).
        exists cl. repeat split; auto. simpl. lia.
      * intros (cl & H & He & Hf & Hmin).
        destruct cap as [|c cap].
        -- simpl in H. 
           assert (Hs' : strip_ci lit_loc_close (a :: s) = Some r).
           { apply strip_ci_spec. eauto. }
           congruence.
        -- specialize (Hmin O ltac:(simpl; lia)).
           change (drop 0 (a :: s)) with (a :: s) in Hmin. congruence.
    + split.
      * destruct (isLineTerminator a) eqn:Hlt; [discriminate|].
        destruct (scan_content s) as [[cap' r']|] eqn:Hc; [|discriminate].
        intros [= <- <-].
        destruct (proj1 (IH cap') eq_refl) as (cl & -> & He & Hf & Hmin).
        exists cl. repeat split; auto.
        intros [|k] Hk; [exact Hs|].
        change (drop (S k) (a :: ?l)) with (drop k l).
        apply Hmin. simpl in Hk. lia.
      * intros (cl & H & He & Hf & Hmin).
        destruct cap as [|c cap].
        -- simpl in H.
           assert (Hs' : strip_ci lit_loc_close (a :: s) = Some r).
           { apply strip_ci_spec. eauto. }
           congruence.
        -- simpl in H. injection H as <- ->. inversion Hf as [|? ? Hc Hf']; subst.
           rewrite Hc.
           assert (Hc' : scan_content (cap ++ cl ++ r) = Some (cap, r)).
           { apply IH. exists cl. repeat split; auto.
             intros k Hk. apply (Hmin (S k)). simpl. lia. }
           rewrite Hc'. trivial.
Qed.

(** The direct scan meets its specification. *)
Lemma match_here_TagPair s cap r :
  match_here s = Some (cap, r) <-> TagPair s cap r.
Proof.
  unfold match_here, TagPair. split.
  - destruct (strip_ci lit_loc_open s) as [s1|] eqn:Ho; [|discriminate].
    apply strip_ci_spec in Ho as (o & -> & Ho).
    destruct (dropWhile _ s1) as [|g s2] eqn:Hd; [discriminate|].
    apply dropWhile_gt_spec in Hd as (attrs & -> & -> & Hf).
    intros Hc. apply scan_content_spec in Hc as (cl & -> & He & Hlt & Hmin).
    exists o, attrs, cl. repeat split; auto.
  - intros (o & attrs & cl & -> & Ho & Hf & He & Hlt & Hmin).
    assert (H1 : strip_ci lit_loc_open
                   (o ++ attrs ++ [lit_gt] ++ cap ++ cl ++ r) =
                 Some (attrs ++ [lit_gt] ++ cap ++ cl ++ r)).
    { apply strip_ci_spec. eauto. }
    rewrite H1.
    assert (H2 : dropWhile (fun a => negb (a =? lit_gt))
                   (attrs ++ [lit_gt] ++ cap ++ cl ++ r) =
                 lit_gt :: cap ++ cl ++ r).
    { apply dropWhile_gt_spec. eauto. }
    rewrite H2. apply scan_content_spec. exists cl. repeat split; auto.
Qed.

Lemma TagPair_suffix s cap r :
  TagPair s cap r -> exists pre, s = pre ++ r /\ (0 < length pre)%nat.
Proof.
  intros (o & attrs & cl & -> & _).
  exists (o ++ attrs ++ [lit_gt] ++ cap ++ cl).
  split.
  - repeat rewrite <- app_assoc. trivial.
  - repeat rewrite length_app. simpl. lia.
Qed.

Lemma find_match_spec s cap r :
  find_match s = Some (cap, r) <->
  exists k, match_here (drop k s) = Some (cap, r) /\
            forall j, (j < k)%nat -> match_here (drop j s) = None.
Proof.
  induction s as [|a s IH].
  - cbn [find_match]. split.
    + destruct (match_here []) eqn:H; [|discriminate].
      intros [= ->]. exists O. split; [exact H|]. intros j Hj. lia.
    + intros (k & H & _). rewrite drop_nil in H. rewrite H. trivial.
  - cbn [find_match].
    destruct (match_here (a :: s)) as [m|] eqn:Hm.
    + split.
      * intros [= ->]. exists O. split; [exact Hm|]. intros j Hj. lia.
      * intros (k & H & Hmin). destruct k as [|k].
        -- simpl in H. congruence.
        -- specialize (Hmin O ltac:(lia)). simpl in Hmin. congruence.
    + rewrite IH. split.
      * intros (k & H & Hmin). exists (S k). split; [exact H|].
        intros [|j] Hj; [exact Hm|]. apply Hmin. lia.
      * intros (k & H & Hmin). destruct k as [|k].
        -- simpl in H. congruence.
        -- exists k. split; [exact H|]. intros j Hj. apply (Hmin (S j)). lia.
Qed.

Lemma find_match_suffix s cap r :
  find_match s = Some (cap, r) ->
  exists pre, s = pre ++ r /\ (0 < length pre)%nat.
Proof.
  intros H. apply find_match_spec in H as (k & H & _).
  apply match_here_TagPair, TagPair_suffix in H as (pre & Hd & Hlen).
  exists (take k s ++ pre). split.
  - rewrite <- app_assoc, <- Hd, take_drop. trivial.
  - rewrite length_app. lia.
Qed.

End ScanFacts.
(** ** [exec], the loop and [extractURLs] *)

Section ExtractFacts.

Lemma search_find_match s i :
  search (fun x => CompilePattern true locRegex x Some) s i =
  match find_match s with
  | Some (cap, r) => Some (mkState r (i + (length s - length r))%nat (Some cap))
  | None => None
  end.
Proof.
  revert i. induction s as [|a s IH]; intros i; cbn [search find_match];
    rewrite locRegex_match_here.
  - destruct (match_here []) as [[cap r]|]; trivial.
  - destruct (match_here (a :: s)) as [[cap r]|]; trivial.
    rewrite IH.
    destruct (find_match s) as [[cap r]|] eqn:Hf; trivial.
    apply find_match_suffix in Hf as (pre & -> & _).
    cbn [length]. rewrite !length_app. do 2 f_equal. lia.
Qed.

Lemma RegExp_exec_find_match s lastIndex :
  (lastIndex <= length s)%nat ->
  RegExp_exec true locRegex s lastIndex =
  match find_match (drop lastIndex s) with
  | Some (cap, r) => Some (mkState r (length s - length r)%nat (Some cap))
  | None => None
  end.
Proof.
  intros Hle. unfold RegExp_exec.
  destruct (Nat.ltb_spec (length s) lastIndex) as [Hlt|_]; [lia|].
  rewrite search_find_match.
  destruct (find_match (drop lastIndex s)) as [[cap r]|] eqn:Hf; trivial.
  apply find_match_suffix in Hf as (pre & Hd & _).
  assert (Hlen : length (drop lastIndex s) = (length pre + length r)%nat)
    by (rewrite Hd, length_app; trivial).
  rewrite length_drop in Hlen. rewrite length_drop. do 2 f_equal. lia.
Qed.

(** With enough fuel the loop ends normally, and it has collected the
    trimmed contents that pass the test, in document order. *)
Lemma exec_loop_closed fuel xml lastIndex urls :
  (lastIndex <= length xml)%nat ->
  (length xml - lastIndex < fuel)%nat ->
  exec_loop fuel xml lastIndex urls =
  Done (urls ++ List.filter is_http_url
                  (trim <$> loc_contents fuel (drop lastIndex xml))).
Proof.
  revert lastIndex urls.
  induction fuel as [|fuel IH]; intros lastIndex urls Hle Hfuel; [lia|].
  cbn [exec_loop loc_contents].
  rewrite RegExp_exec_find_match by exact Hle.
  destruct (find_match (drop lastIndex xml)) as [[cap r]|] eqn:Hf.
  - cbn [capture1 endIndex].
    apply find_match_suffix in Hf as (pre & Hd & Hpre).
    assert (Hxml : xml = (take lastIndex xml ++ pre) ++ r).
    { rewrite <- app_assoc, <- Hd, take_drop. trivial. }
    assert (Hlen : length xml = (lastIndex + length pre + length r)%nat).
    { rewrite Hxml at 1. rewrite !length_app, length_take. lia. }
    assert (Hr : drop (length xml - length r) xml = r).
    { rewrite Hxml at 2.
      replace (length xml - length r)%nat with (length (take lastIndex xml ++ pre)).
      - apply drop_app_length.
      - rewrite length_app, length_take. lia. }
    rewrite IH by lia.
    rewrite Hr. cbn [fmap list_fmap List.filter].
    fold (is_http_url (trim cap)).
    destruct (is_http_url (trim cap)).
    + rewrite <- app_assoc. trivial.
    + trivial.
  - cbn. rewrite app_nil_r. trivial.
Qed.

(** More fuel than the length of the text changes nothing. *)
Lemma loc_contents_fuel fuel1 fuel2 s :
  (length s < fuel1)%nat -> (length s < fuel2)%nat ->
  loc_contents fuel1 s = loc_contents fuel2 s.
Proof.
  revert fuel2 s. induction fuel1 as [|fuel1 IH]; intros fuel2 s H1 H2; [lia|].
  destruct fuel2 as [|fuel2]; [lia|].
  cbn [loc_contents].
  destruct (find_match s) as [[cap r]|] eqn:Hf; trivial.
  apply find_match_suffix in Hf as (pre & -> & Hpre).
  rewrite length_app in *. f_equal. apply IH; lia.
Qed.

(** [extractURLs] in closed form. *)
Lemma extractURLs_closed xml :
  extractURLs xml =
  List.filter is_http_url (trim <$> loc_contents (S (length xml)) xml).
Proof.
  unfold extractURLs.
  rewrite exec_loop_closed by lia.
  rewrite drop_0. trivial.
Qed.

(** The direct scan computes the relation [Scan]. *)
Lemma loc_contents_Scan fuel s :
  (length s < fuel)%nat -> Scan s (loc_contents fuel s).
Proof.
  revert s. induction fuel as [|fuel IH]; intros s Hlen; [lia|].
  cbn [loc_contents].
  destruct (find_match s) as [[cap r]|] eqn:Hf.
  - pose proof (find_match_suffix _ _ _ Hf) as (pre & -> & Hpre).
    apply find_match_spec in Hf as (k & Hk & Hmin).
    apply (Scan_pair _ k cap r).
    + apply match_here_TagPair. exact Hk.
    + intros j cap' r' Hj HT. apply match_here_TagPair in HT.
      rewrite (Hmin j Hj) in HT. discriminate.
    + apply IH. rewrite length_app in Hlen. lia.
  - apply Scan_end. intros k cap r HT.
    apply match_here_TagPair in HT.
    assert (Hsome : exists m, find_match s = Some m).
    { clear Hf Hlen. revert s HT. induction k as [|k IHk]; intros s HT.
      - rewrite drop_0 in HT. destruct s; cbn [find_match]; rewrite HT; eauto.
      - destruct s as [|a s].
        + rewrite drop_nil in HT. cbn [find_match]. rewrite HT. eauto.
        + cbn [find_match]. destruct (match_here (a :: s)); eauto. }
    destruct Hsome as [m Hm]. congruence.
Qed.

(** [Scan] determines the contents. *)
Lemma Scan_functional s caps1 caps2 :
  Scan s caps1 -> Scan s caps2 -> caps1 = caps2.
Proof.
  intros H1. revert caps2.
  induction H1 as [s Hnone|s k cap r caps HT Hmin Hrest IH]; intros caps2 H2.
  - inversion H2 as [|? k' cap' r' caps' HT' _ _]; subst; trivial.
    exfalso. exact (Hnone _ _ _ HT').
  - inversion H2 as [? Hnone|? k' cap' r' caps' HT' Hmin' Hrest']; subst.
    + exfalso. exact (Hnone _ _ _ HT).
    + assert (k = k').
      { destruct (Nat.lt_trichotomy k k') as [Hlt|[Heq|Hgt]]; trivial.
        - exfalso. exact (Hmin' _ _ _ Hlt HT).
        - exfalso. exact (Hmin _ _ _ Hgt HT'). }
      subst k'.
      apply match_here_TagPair in HT, HT'.
      rewrite HT in HT'. injection HT' as <- <-.
      f_equal. apply IH. exact Hrest'.
Qed.

End ExtractFacts.
(** ** [trim] *)

Section TrimFacts.

Lemma dropWhile_suffix {A} (f : A -> bool) (l : list A) :
  exists p, l = p ++ dropWhile f l.
Proof.
  induction l as [|a l [p IH]]; simpl.
  - exists []. trivial.
  - destruct (f a).
    + exists (a :: p). simpl. congruence.
    + exists []. trivial.
Qed.

Lemma trim_infix s : exists l r, s = l ++ trim s ++ r.
Proof.
  unfold trim, trimEnd.
  destruct (dropWhile_suffix isStrWhiteSpaceChar s) as [l Hl].
  destruct (dropWhile_suffix isStrWhiteSpaceChar (rev (trimStart s))) as [p Hp].
  exists l, (rev p). unfold trimStart in *.
  rewrite <- rev_app_distr, <- Hp, rev_involutive. exact Hl.
Qed.

Lemma Forall_trim (P : N -> Prop) s : Forall P s -> Forall P (trim s).
Proof.
  intros H. destruct (trim_infix s) as (l & r & Hs).
  rewrite Hs in H. apply Forall_app in H as [_ H].
  apply Forall_app in H as [H _]. exact H.
Qed.

Lemma is_http_url_begins url :
  is_http_url url = (startsWith url lit_http || startsWith url lit_https).
Proof.
  unfold is_http_url. destruct url; trivial.
Qed.

End TrimFacts.

(** ** Theorems on [extractURLs] *)

(** C5. For every input, [extractURLs] returns the trimmed contents of the
    [<loc ...>...</loc>] tag pairs met when the text is scanned from left
    to right (tags matched regardless of case), keeping, in document
    order, exactly those that begin with [http://] or [https://]; the scan
    [Scan] determines these contents. The loop of the function always
    ends normally: nothing is thrown, whatever the input. *)
Theorem extractURLs_scans_tag_pairs (xmlContent : jsstring) :
  exists caps,
    Scan xmlContent caps /\
    (forall caps', Scan xmlContent caps' -> caps' = caps) /\
    extractURLs xmlContent =
      List.filter (fun url => startsWith url lit_http || startsWith url lit_https)
        (trim <$> caps) /\
    (forall fuel, (length xmlContent < fuel)%nat ->
       exec_loop fuel xmlContent 0 [] = Done (extractURLs xmlContent)).
Proof.
  exists (loc_contents (S (length xmlContent)) xmlContent).
  assert (HS : Scan xmlContent (loc_contents (S (length xmlContent)) xmlContent))
    by (apply loc_contents_Scan; lia).
  split; [exact HS|]. split; [|split].
  - intros caps' H'. exact (Scan_functional _ _ _ H' HS).
  - rewrite extractURLs_closed.
    apply filter_ext. intros url. apply is_http_url_begins.
  - intros fuel Hfuel.
    rewrite exec_loop_closed by lia.
    rewrite extractURLs_closed, drop_0. cbn [app].
    rewrite (loc_contents_fuel fuel (S (length xmlContent))) by lia.
    trivial.
Qed.

Section SingleLine.

Lemma In_loc_contents fuel s cap :
  In cap (loc_contents fuel s) ->
  exists k r, TagPair (drop k s) cap r.
Proof.
  revert s. induction fuel as [|fuel IH]; intros s; cbn [loc_contents].
  - intros [].
  - destruct (find_match s) as [[cap' r']|] eqn:Hf; [|intros []].
    pose proof (find_match_suffix _ _ _ Hf) as (pre & Hs & _).
    intros [<-|Hin].
    + apply find_match_spec in Hf as (k & Hk & _).
      exists k, r'. apply match_here_TagPair. exact Hk.
    + destruct (IH _ Hin) as (k & r & HT).
      exists (length pre + k)%nat, r.
      rewrite Hs, <- drop_drop, drop_app_length. exact HT.
Qed.

Lemma scan_content_line_break c1 lt c2 :
  isLineTerminator lt = true ->
  (forall j, (j <= length c1)%nat ->
     strip_ci lit_loc_close (drop j (c1 ++ lt :: c2)) = None) ->
  scan_content (c1 ++ lt :: c2) = None.
Proof.
  intros Hlt. induction c1 as [|a c1 IH]; intros Hno.
  - pose proof (Hno O ltac:(simpl; lia)) as H0.
    cbn [app skipn] in H0. cbn [app scan_content].
    rewrite H0, Hlt. trivial.
  - pose proof (Hno O ltac:(simpl; lia)) as H0.
    cbn [app skipn] in H0. cbn [app scan_content].
    rewrite H0. destruct (isLineTerminator a); trivial.
    rewrite IH; trivial.
    intros j Hj. apply (Hno (S j)). simpl. lia.
Qed.

Lemma find_match_tail s :
  match_here s = None -> find_match s = find_match (drop 1 s).
Proof.
  intros H. destruct s as [|a s]; cbn [find_match]; rewrite H; trivial.
Qed.

End SingleLine.

(** C10. Every URL that [extractURLs] returns holds no line terminator
    and lies in the input as it stands; it is the trimmed content of a tag
    pair whose content holds no line terminator. An opening tag after
    which a line terminator comes before any closing tag is not matched:
    the result is the one of the text that follows its first
    character. *)
Theorem extractURLs_single_line
    (xmlContent url o attrs c1 c2 : jsstring) (lt : N) :
  In url (extractURLs xmlContent) ->
  equals_ci o lit_loc_open = true ->
  Forall (fun a => a <> lit_gt) attrs ->
  isLineTerminator lt = true ->
  (forall j, (j <= length c1)%nat ->
     strip_ci lit_loc_close (drop j (c1 ++ lt :: c2)) = None) ->
  (Forall (fun c => isLineTerminator c = false) url /\
   (exists before after, xmlContent = before ++ url ++ after) /\
   (exists k cap r,
      TagPair (drop k xmlContent) cap r /\ url = trim cap /\
      Forall (fun c => isLineTerminator c = false) cap)) /\
  extractURLs (o ++ attrs ++ [lit_gt] ++ c1 ++ lt :: c2) =
    extractURLs (drop 1 (o ++ attrs ++ [lit_gt] ++ c1 ++ lt :: c2)).
Proof.
  intros Hin Ho Hattrs Hlt Hno. split.
  - rewrite extractURLs_closed in Hin.
    apply List.filter_In in Hin as [Hin _].
    apply list_elem_of_In, list_elem_of_fmap in Hin as (cap & -> & Hin).
    apply list_elem_of_In, In_loc_contents in Hin as (k & r & HT).
    assert (Hcap : Forall (fun c => isLineTerminator c = false) cap).
    { destruct HT as (? & ? & ? & _ & _ & _ & _ & H & _). exact H. }
    split; [apply Forall_trim; exact Hcap|]. split.
    + destruct HT as (o' & attrs' & cl & Hd & _).
      destruct (trim_infix cap) as (l & r' & Hc).
      exists (take k xmlContent ++ o' ++ attrs' ++ [lit_gt] ++ l), (r' ++ cl ++ r).
      rewrite <- (take_drop k xmlContent) at 1. rewrite Hd.
      rewrite Hc at 1. repeat rewrite <- app_assoc. trivial.
    + exists k, cap, r. auto.
  - set (s := o ++ attrs ++ [lit_gt] ++ c1 ++ lt :: c2).
    assert (Hm : match_here s = None).
    { unfold match_here, s.
      assert (H1 : strip_ci lit_loc_open (o ++ attrs ++ [lit_gt] ++ c1 ++ lt :: c2)
                   = Some (attrs ++ [lit_gt] ++ c1 ++ lt :: c2))
        by (apply strip_ci_spec; eauto).
      rewrite H1.
      assert (H2 : dropWhile (fun a => negb (a =? lit_gt))
                     (attrs ++ [lit_gt] ++ c1 ++ lt :: c2) =
                   lit_gt :: c1 ++ lt :: c2)
        by (apply dropWhile_gt_spec; eauto).
      rewrite H2. apply scan_content_line_break; assumption. }
    rewrite !extractURLs_closed. f_equal. f_equal.
    assert (Hlen : (length (drop 1 s) <= length s)%nat)
      by (rewrite length_drop; lia).
    cbn [loc_contents]. rewrite (find_match_tail s Hm).
    destruct (find_match (drop 1 s)) as [[cap r]|] eqn:Hf; trivial.
    f_equal.
    apply find_match_suffix in Hf as (pre & Hd & Hpre).
    assert (length (drop 1 s) = (length pre + length r)%nat)
      by (rewrite Hd, length_app; trivial).
    apply loc_contents_fuel; lia.
Qed.

(** A witness of C10: an entry on one line, and an opening tag whose
    content is broken over two lines. *)
Lemma extractURLs_single_line_witness :
  let xml := js "<loc>http://a.com/x</loc>" in
  let url := js "http://a.com/x" in
  In url (extractURLs xml) /\
  ((Forall (fun c => isLineTerminator c = false) url /\
    (exists before after, xml = before ++ url ++ after) /\
    (exists k cap r,
       TagPair (drop k xml) cap r /\ url = trim cap /\
       Forall (fun c => isLineTerminator c = false) cap)) /\
   extractURLs (js "<LOC" ++ js " a" ++ [lit_gt] ++ js "http://b.com/" ++ 10 :: js "y</loc>") =
   extractURLs (drop 1 (js "<LOC" ++ js " a" ++ [lit_gt] ++ js "http://b.com/" ++ 10 :: js "y</loc>"))).
Proof.
  assert (Hin : In (js "http://a.com/x") (extractURLs (js "<loc>http://a.com/x</loc>")))
    by (vm_compute; auto).
  split; [exact Hin|].
  apply (extractURLs_single_line _ _ (js "<LOC") (js " a") (js "http://b.com/")
           (js "y</loc>") 10 Hin).
  - reflexivity.
  - vm_compute. repeat constructor; discriminate.
  - reflexivity.
  - intros j Hj. vm_compute in Hj.
    do 14 (destruct j as [|j]; [reflexivity|]). lia.
Defined.
(** A witness of C5 on a small document with an upper-case tag, a value
    to trim, a non-http value and a pair broken over two lines. *)
Lemma extractURLs_scans_tag_pairs_witness :
  let xml := js "<url><LOC> http://a.com/x </loc></url><loc>ftp://b</loc><loc>https://c"
             ++ [10] ++ js "</loc>" in
  extractURLs xml = [js "http://a.com/x"] /\
  exists caps,
    Scan xml caps /\
    (forall caps', Scan xml caps' -> caps' = caps) /\
    extractURLs xml =
      List.filter (fun url => startsWith url lit_http || startsWith url lit_https)
        (trim <$> caps) /\
    (forall fuel, (length xml < fuel)%nat ->
       exec_loop fuel xml 0 [] = Done (extractURLs xml)).
Proof.
  split; [vm_compute; reflexivity|].
  apply extractURLs_scans_tag_pairs.
Defined.

(** ** Theorems on [compareSitemaps] *)

Section DiffFacts.

Lemma includes_In l x : includes l x = true <-> In x l.
Proof.
  unfold includes. rewrite existsb_exists. split.
  - intros (y & Hy & He). apply bool_decide_eq_true in He. congruence.
  - intros H. exists x. split; trivial. apply bool_decide_eq_true. trivial.
Qed.

Lemma includes_false l x : includes l x = false <-> ~ In x l.
Proof.
  rewrite <- includes_In. destruct (includes l x); split; congruence.
Qed.

Lemma filter_sublist {A} (f : A -> bool) (l : list A) :
  sublist (List.filter f l) l.
Proof.
  induction l as [|a l IH]; simpl.
  - constructor.
  - destruct (f a); constructor; exact IH.
Qed.

Lemma count_occ_filter {A} (dec : forall x y : A, {x = y} + {x <> y})
    (f : A -> bool) (l : list A) (x : A) :
  count_occ dec (List.filter f l) x = if f x then count_occ dec l x else O.
Proof.
  induction l as [|a l IH]; simpl.
  - destruct (f x); trivial.
  - destruct (f a) eqn:Hfa; simpl; destruct (dec a x) as [->|Hne].
    + rewrite IH, Hfa. trivial.
    + exact IH.
    + rewrite IH, Hfa. trivial.
    + exact IH.
Qed.

Lemma filter_none {A} (f : A -> bool) (l : list A) :
  (forall x, In x l -> f x = false) -> List.filter f l = [].
Proof.
  induction l as [|a l IH]; simpl; intros H; trivial.
  rewrite (H a) by auto. apply IH. auto.
Qed.

Lemma filter_all {A} (f : A -> bool) (l : list A) :
  (forall x, In x l -> f x = true) -> List.filter f l = l.
Proof.
  induction l as [|a l IH]; simpl; intros H; trivial.
  rewrite (H a) by auto. f_equal. apply IH. auto.
Qed.

Lemma extractURLs_empty : extractURLs [] = [].
Proof. reflexivity. Qed.

End DiffFacts.

(** C3. For all bodies [A] and [B], [compareSitemaps A B] holds exactly
    the URLs of [extractURLs A] that are not, as strings, among
    [extractURLs B]; it keeps their order (it is a sublist of
    [extractURLs A]) and their repetitions (a URL absent from
    [extractURLs B] occurs as often as in [extractURLs A]). In particular
    the difference of a body with itself is empty, and the difference
    with the empty body is the whole extraction. *)
Theorem compareSitemaps_diff (A B : jsstring) :
  (forall url,
     In url (compareSitemaps A B) <->
     In url (extractURLs A) /\ ~ In url (extractURLs B)) /\
  sublist (compareSitemaps A B) (extractURLs A) /\
  (forall url,
     count_occ jsstring_eq_dec (compareSitemaps A B) url =
     if In_dec jsstring_eq_dec url (extractURLs B) then O
     else count_occ jsstring_eq_dec (extractURLs A) url) /\
  compareSitemaps A A = [] /\
  compareSitemaps A [] = extractURLs A.
Proof.
  unfold compareSitemaps. repeat split.
  - apply List.filter_In in H. tauto.
  - apply List.filter_In in H as [_ H].
    apply negb_true_iff, includes_false in H. exact H.
  - intros [H1 H2]. apply List.filter_In. split; trivial.
    apply negb_true_iff, includes_false. exact H2.
  - apply filter_sublist.
  - intros url. rewrite count_occ_filter.
    destruct (In_dec jsstring_eq_dec url (extractURLs B)) as [Hin|Hout].
    + apply includes_In in Hin. rewrite Hin. trivial.
    + apply includes_false in Hout. rewrite Hout. trivial.
  - apply filter_none. intros url Hin.
    apply negb_false_iff, includes_In. exact Hin.
  - rewrite extractURLs_empty. apply filter_all. reflexivity.
Qed.

(** A witness of C3: a URL that the newer body has twice and the older
    body has not stays twice. *)
Lemma compareSitemaps_diff_witness :
  let A := js "<loc>http://a/1</loc><loc>http://a/2</loc><loc>http://a/1</loc>" in
  let B := js "<loc>http://a/2</loc>" in
  compareSitemaps A B = [js "http://a/1"; js "http://a/1"] /\
  sublist (compareSitemaps A B) (extractURLs A) /\
  compareSitemaps A A = [] /\
  compareSitemaps A [] = extractURLs A.
Proof.
  cbv zeta. split; [vm_compute; reflexivity|].
  destruct (compareSitemaps_diff
              (js "<loc>http://a/1</loc><loc>http://a/2</loc><loc>http://a/1</loc>")
              (js "<loc>http://a/2</loc>")) as (_ & Hsub & _ & Hself & Hempty).
  auto.
Defined.

(** ** [extractURLs] on small documents *)

(** An opening tag inside the content: the content runs from the first
    [>] and does not begin with [http]. *)
Example extractURLs_nested_open_tag :
  extractURLs (js "<loc><loc>http://a.com/</loc>") = [].
Proof. vm_compute. reflexivity. Qed.

(** An entry written over three lines is not found. *)
Example extractURLs_entry_over_lines :
  extractURLs (js "<url><loc>" ++ [10] ++ js "  http://a.com/" ++ [10]
                 ++ js "</loc></url>") = [].
Proof. vm_compute. reflexivity. Qed.

(** The tags are matched in any case, the scheme is not. *)
Example extractURLs_case :
  extractURLs (js "<loc>HTTP://A.COM/</loc><Loc>http://b.com/</lOC>")
  = [js "http://b.com/"].
Proof. vm_compute. reflexivity. Qed.

(** Any tag whose name begins with [loc] opens a pair. *)
Example extractURLs_tag_prefix :
  extractURLs (js "<location id=1>https://a.com/</loc>") = [js "https://a.com/"].
Proof. vm_compute. reflexivity. Qed.
(** ** The keys of the store *)

Section Keys.

Lemma keys_distinct d d' t :
  lastUpdateKey d <> currentKey d' /\ lastUpdateKey d <> latestKey d' /\
  lastUpdateKey d <> datedKey d' t /\ currentKey d <> latestKey d' /\
  currentKey d <> datedKey d' t /\ latestKey d <> datedKey d' t /\
  feedsKey <> lastUpdateKey d /\ feedsKey <> currentKey d /\
  feedsKey <> latestKey d /\ feedsKey <> datedKey d t.
Proof. repeat split; discriminate. Qed.

End Keys.

(** ** Running the methods *)

Ltac unfold_async :=
  unfold try_catch, bind, ret, throw, lift, kv_get, kv_put, http_fetch in *.

Section Throttle.

Lemma strict_equals_true a b : strict_equals a b = true <-> a = Some b.
Proof.
  destruct a as [s|]; simpl.
  - rewrite bool_decide_eq_true. split; congruence.
  - split; discriminate.
Qed.

End Throttle.

Section FetchBranch.

(** The attempt never throws: the handler answers every throw. *)
Lemma downloadSitemap_total w url force st :
  exists st' r, downloadSitemap w url force st = (st', Normal r).
Proof.
  unfold downloadSitemap. unfold try_catch at 1.
  destruct (downloadSitemap_try w url force st) as [st' [e|r]]; eauto.
Qed.

(** The fetch branch, step by step. *)
Lemma downloadSitemap_try_fetch w url force st u :
  URL_parse w url = Normal u ->
  kv_get_fault w (lastUpdateKey (hostname u)) = None ->
  negb force && strict_equals (kv st !! lastUpdateKey (hostname u)) (today w)
    = false ->
  downloadSitemap_try w url force st =
  let st1 := mkStore (kv st) (requests st ++ [url]) in
  let d := hostname u in
  match fetch w url with
  | Throw e => (st1, Throw e)
  | Normal response =>
      match response_content url response with
      | Throw e => (st1, Throw e)
      | Normal newContent =>
          match kv_get_fault w (currentKey d) with
          | Some e => (st1, Throw e)
          | None =>
              let currentContent := kv st !! currentKey d in
              match put_each w
                      (snapshot_writes d (today w) newContent currentContent)
                      st1 with
              | (st', Throw e) => (st', Throw e)
              | (st', Normal _) =>
                  (st', Normal (mkResult true [] (Some (datedKey d (today w)))
                                  (fetch_newUrls newContent currentContent)))
              end
          end
      end
  end.
Proof.
  intros Hurl Hg Hbr.
  unfold downloadSitemap_try. unfold bind at 1. unfold lift at 1.
  rewrite Hurl. unfold bind at 1. unfold kv_get at 1. rewrite Hg, Hbr.
  unfold bind at 1. unfold http_fetch at 1. cbv zeta.
  destruct (fetch w url) as [e|response]; trivial.
  unfold bind at 1. unfold lift at 1.
  destruct (response_content url response) as [e|newContent]; trivial.
  unfold bind at 1. unfold kv_get at 1. cbn [kv].
  destruct (kv_get_fault w (currentKey (hostname u))) as [e|]; trivial.
  unfold snapshot_writes, fetch_newUrls.
  destruct (kv st !! currentKey (hostname u)) as [[|c ct]|];
    cbn [app put_each]; unfold_async;
    repeat (match goal with
            | |- context [kv_put_fault w ?k] => destruct (kv_put_fault w k)
            end; trivial).
Qed.

(** Before the branch: a URL that does not parse, a marker that cannot
    be read. *)
Lemma downloadSitemap_try_early w url force st :
  match URL_parse w url with
  | Throw e => downloadSitemap_try w url force st = (st, Throw e)
  | Normal u =>
      match kv_get_fault w (lastUpdateKey (hostname u)) with
      | Some e => downloadSitemap_try w url force st = (st, Throw e)
      | None => True
      end
  end.
Proof.
  unfold downloadSitemap_try. unfold_async.
  destruct (URL_parse w url) as [e|u]; trivial.
  destruct (kv_get_fault w (lastUpdateKey (hostname u))); trivial.
Qed.

(** The throttle branch leaves the state as it is, also when a read of a
    snapshot fails. *)
Lemma downloadSitemap_try_throttle w url force st u :
  URL_parse w url = Normal u ->
  kv_get_fault w (lastUpdateKey (hostname u)) = None ->
  negb force && strict_equals (kv st !! lastUpdateKey (hostname u)) (today w)
    = true ->
  exists c, downloadSitemap_try w url force st = (st, c) /\
            forall r, c = Normal r ->
              success r = true /\ datedFile r = None /\
              truthy (errorMsg r) = true.
Proof.
  intros Hurl Hg Hbr.
  unfold downloadSitemap_try. unfold_async.
  rewrite Hurl, Hg, Hbr.
  destruct (kv_get_fault w (currentKey (hostname u)));
    [eexists; split; [reflexivity|discriminate]|].
  destruct (kv_get_fault w (latestKey (hostname u)));
    [eexists; split; [reflexivity|discriminate]|].
  destruct (kv st !! currentKey (hostname u)) as [[|c ct]|];
    destruct (kv st !! latestKey (hostname u)) as [[|l lt]|];
    eexists; (split; [reflexivity|]); intros r [= <-]; auto.
Qed.

(** [put_each] applies a prefix of its writes, all of them when it
    completes normally, and issues no request. *)
Lemma put_each_prefix w writes st st' c :
  put_each w writes st = (st', c) ->
  requests st' = requests st /\
  exists n, kv st' = written (take n writes) (kv st) /\
            match c with
            | Normal _ => n = length writes
            | Throw e =>
                (n < length writes)%nat /\
                exists key value, writes !! n = Some (key, value) /\
                                  kv_put_fault w key = Some e
            end.
Proof.
  revert st. induction writes as [|[key value] more IH]; intros st.
  - cbn [put_each]. unfold ret. intros [= <- <-].
    split; trivial. exists O. auto.
  - cbn [put_each]. unfold bind at 1. unfold kv_put at 1.
    destruct (kv_put_fault w key) as [e|] eqn:Hf.
    + intros [= <- <-]. split; trivial. exists O. split; trivial.
      split; [simpl; lia|]. exists key, value. auto.
    + intros H. apply IH in H as (Hreq & n & Hkv & Hc). cbn [kv requests] in *.
      split; trivial. exists (S n). split; [exact Hkv|].
      destruct c as [e|[]]; cbn [length]; [|lia].
      destruct Hc as (Hn & k & v & Hl & Hk).
      split; [lia|]. exists k, v. auto.
Qed.

Lemma put_each_no_fault w writes st :
  (forall key value, In (key, value) writes -> kv_put_fault w key = None) ->
  put_each w writes st = (mkStore (written writes (kv st)) (requests st), Normal tt).
Proof.
  revert st. induction writes as [|[key value] more IH]; intros st Hno.
  - cbn. destruct st; trivial.
  - cbn [put_each]. unfold bind at 1. unfold kv_put at 1.
    rewrite (Hno key value) by (left; trivial).
    rewrite IH by (intros k v Hin; apply (Hno k v); right; exact Hin).
    trivial.
Qed.

(** The writes of an attempt touch no key but its own four. *)
Lemma written_other writes m key :
  (forall k v, In (k, v) writes -> k <> key) ->
  written writes m !! key = m !! key.
Proof.
  revert m. induction writes as [|[k v] more IH]; intros m Hne; trivial.
  unfold written in *. cbn [fold_left fst snd].
  rewrite IH by (intros k' v' Hin; apply (Hne k' v'); right; exact Hin).
  apply lookup_insert_ne. apply (Hne k v). left. trivial.
Qed.

Lemma In_snapshot_writes d t body cur k v :
  In (k, v) (snapshot_writes d t body cur) ->
  k = latestKey d \/ k = currentKey d \/ k = datedKey d t \/ k = lastUpdateKey d.
Proof.
  unfold snapshot_writes. rewrite in_app_iff. intros [H|H].
  - destruct cur as [[|c ct]|]; simpl in H; try tauto.
    destruct H as [[= <- _]|[]]. auto.
  - simpl in H. destruct H as [[= <- _]|[[= <- _]|[[= <- _]|[]]]]; auto.
Qed.

(** Every run of the body of the [try]: either nothing is written (a
    throw before the writes, or the throttle branch), or the fetch branch
    reached its writes and made a prefix of them. *)
Lemma downloadSitemap_try_store w url force st st' c :
  downloadSitemap_try w url force st = (st', c) ->
  (kv st' = kv st /\
   (forall r, c = Normal r ->
      st' = st /\ success r = true /\ datedFile r = None /\
      truthy (errorMsg r) = true /\
      exists u, URL_parse w url = Normal u /\
        negb force &&
          strict_equals (kv st !! lastUpdateKey (hostname u)) (today w) = true))
  \/
  (exists u response newContent n,
     URL_parse w url = Normal u /\
     fetch w url = Normal response /\
     response_content url response = Normal newContent /\
     negb force &&
       strict_equals (kv st !! lastUpdateKey (hostname u)) (today w) = false /\
     requests st' = requests st ++ [url] /\
     let writes := snapshot_writes (hostname u) (today w) newContent
                     (kv st !! currentKey (hostname u)) in
     kv st' = written (take n writes) (kv st) /\
     match c with
     | Normal r =>
         n = length writes /\
         r = mkResult true [] (Some (datedKey (hostname u) (today w)))
               (fetch_newUrls newContent (kv st !! currentKey (hostname u)))
     | Throw e =>
         (n < length writes)%nat /\
         exists key value, writes !! n = Some (key, value) /\
                           kv_put_fault w key = Some e
     end).
Proof.
  intros Hrun.
  pose proof (downloadSitemap_try_early w url force st) as Hearly.
  destruct (URL_parse w url) as [e|u] eqn:Hurl.
  { rewrite Hearly in Hrun. injection Hrun as <- <-.
    left. split; trivial. discriminate. }
  destruct (kv_get_fault w (lastUpdateKey (hostname u))) as [e|] eqn:Hg.
  { rewrite Hearly in Hrun. injection Hrun as <- <-.
    left. split; trivial. discriminate. }
  clear Hearly.
  destruct (negb force &&
            strict_equals (kv st !! lastUpdateKey (hostname u)) (today w))
    eqn:Hbr.
  { destruct (downloadSitemap_try_throttle w url force st u Hurl Hg Hbr)
      as (c' & Hc' & Hr).
    rewrite Hc' in Hrun. injection Hrun as <- <-.
    left. split; trivial. intros r Hc. split; trivial.
    destruct (Hr r Hc) as (? & ? & ?). eauto 10. }
  rewrite (downloadSitemap_try_fetch w url force st u Hurl Hg Hbr) in Hrun.
  cbv zeta in Hrun.
  destruct (fetch w url) as [e|response] eqn:Hfetch.
  { injection Hrun as <- <-. left. split; trivial. discriminate. }
  destruct (response_content url response) as [e|newContent] eqn:Hcontent.
  { injection Hrun as <- <-. left. split; trivial. discriminate. }
  destruct (kv_get_fault w (currentKey (hostname u))) as [e|].
  { injection Hrun as <- <-. left. split; trivial. discriminate. }
  destruct (put_each w _ _) as [st1 c1] eqn:Hput.
  apply put_each_prefix in Hput as (Hreq & n & Hkv & Hc1).
  cbn [kv requests] in Hreq, Hkv.
  right. exists u, response, newContent, n.
  destruct c1 as [e|[]]; injection Hrun as <- <-;
    repeat (split; [assumption || reflexivity|]); auto.
Qed.

(** The store after an attempt holds a prefix of the writes of the
    attempt. *)
Lemma downloadSitemap_store_prefix w url force st st' r :
  downloadSitemap w url force st = (st', Normal r) ->
  kv st' = kv st \/
  exists u newContent n,
    URL_parse w url = Normal u /\
    kv st' = written (take n (snapshot_writes (hostname u) (today w)
                                newContent
                                (kv st !! currentKey (hostname u))))
               (kv st).
Proof.
  unfold downloadSitemap. unfold try_catch at 1.
  destruct (downloadSitemap_try w url force st) as [st1 c] eqn:Htry.
  apply downloadSitemap_try_store in Htry.
  intros Hrun.
  assert (Hst : st' = st1).
  { destruct c; unfold ret in Hrun; injection Hrun as <- _; trivial. }
  subst st1. clear Hrun.
  destruct Htry as [[Hkv _]|Hfetch]; [left; exact Hkv|].
  destruct Hfetch as (u & response & newContent & n & Hurl & _ & _ & _
                      & _ & Hkv & _).
  right. eauto.
Qed.

End FetchBranch.
Section Rotation.

Lemma written_all_lookup d t body c ct m :
  let m' := written (snapshot_writes d t body (Some (c :: ct))) m in
  m' !! latestKey d = Some (c :: ct) /\
  m' !! currentKey d = Some body /\
  m' !! datedKey d t = Some body /\
  m' !! lastUpdateKey d = Some t.
Proof.
  destruct (keys_distinct d d t) as (H1 & H2 & H3 & H4 & H5 & H6 & _).
  cbv zeta. unfold written, snapshot_writes. cbn [app fold_left fst snd].
  repeat split.
  - rewrite lookup_insert_ne by congruence.
    rewrite lookup_insert_ne by congruence.
    rewrite lookup_insert_ne by congruence.
    apply lookup_insert_eq.
  - rewrite lookup_insert_ne by congruence.
    rewrite lookup_insert_ne by congruence.
    apply lookup_insert_eq.
  - rewrite lookup_insert_ne by congruence.
    apply lookup_insert_eq.
  - apply lookup_insert_eq.
Qed.

End Rotation.

(** C2, as the code has it. After a successful attempt that is not
    throttled, on a domain whose [current] snapshot [C0] was present and
    not the empty string: one request was issued and answered with the
    body [newContent]; [latest] is [C0]; [current] and the dated copy of
    today are [newContent]; the marker is today; and the outcome is
    success, an empty message, the key of the dated copy, and
    [compareSitemaps newContent C0]. *)
Theorem downloadSitemap_rotation (w : World) (url : jsstring) (u : URLRecord)
    (force : bool) (st st' : Store) (r : DownloadResult) (C0 : jsstring) :
  URL_parse w url = Normal u ->
  force = true \/ kv st !! lastUpdateKey (hostname u) <> Some (today w) ->
  kv st !! currentKey (hostname u) = Some C0 ->
  C0 <> [] ->
  downloadSitemap w url force st = (st', Normal r) ->
  success r = true ->
  exists response newContent,
    fetch w url = Normal response /\
    response_content url response = Normal newContent /\
    requests st' = requests st ++ [url] /\
    kv st' !! latestKey (hostname u) = Some C0 /\
    kv st' !! currentKey (hostname u) = Some newContent /\
    kv st' !! datedKey (hostname u) (today w) = Some newContent /\
    kv st' !! lastUpdateKey (hostname u) = Some (today w) /\
    r = mkResult true [] (Some (datedKey (hostname u) (today w)))
          (compareSitemaps newContent C0).
Proof.
  intros Hurl Hfresh Hcur HC0 Hrun Hsucc.
  unfold downloadSitemap in Hrun. unfold try_catch at 1 in Hrun.
  destruct (downloadSitemap_try w url force st) as [st1 [e|r1]] eqn:Htry.
  { unfold ret in Hrun. injection Hrun as <- <-. discriminate. }
  injection Hrun as -> ->.
  apply downloadSitemap_try_store in Htry as [[_ Hthr]|Hfetch].
  - destruct (Hthr r eq_refl) as (_ & _ & _ & _ & u' & Hu' & Hbr).
    rewrite Hurl in Hu'. injection Hu' as <-.
    apply andb_true_iff in Hbr as [Hf Hm].
    apply strict_equals_true in Hm. apply negb_true_iff in Hf.
    destruct Hfresh; congruence.
  - destruct Hfetch as (u' & response & newContent & n & Hu' & Hf & Hc & _
                        & Hreq & Hkv & Hn & Hr).
    rewrite Hurl in Hu'. injection Hu' as <-.
    rewrite Hcur in Hkv, Hn, Hr.
    destruct C0 as [|c ct]; [congruence|].
    rewrite Hn, firstn_all in Hkv.
    destruct (written_all_lookup (hostname u) (today w) newContent c ct (kv st))
      as (L1 & L2 & L3 & L4).
    exists response, newContent. rewrite Hkv. auto 10.
Qed.

(** Against C2 as the specification words it, which asks for
    [latest == C0] whenever a [current] snapshot [C0] existed. When [C0]
    is the empty string (the site served an empty document the day
    before), the attempt succeeds but leaves [latest] as it was, and
    reports no new URL although the new body has two. *)
Lemma downloadSitemap_rotation_empty_current :
  URL_parse world_day3 ex_url = Normal (mkURL ex_domain (js "/sitemap.xml")) /\
  kv store_day2 !! currentKey ex_domain = Some [] /\
  kv store_day2 !! lastUpdateKey ex_domain <> Some (today world_day3) /\
  compareSitemaps ex_body2 [] = [js "https://a.com/1"; js "https://a.com/2"] /\
  exists st' r,
    downloadSitemap world_day3 ex_url false store_day2 = (st', Normal r) /\
    success r = true /\
    kv st' !! currentKey ex_domain = Some ex_body2 /\
    kv st' !! latestKey ex_domain = Some ex_body1 /\
    kv st' !! latestKey ex_domain <> Some [] /\
    newUrls r = [] /\
    newUrls r <> compareSitemaps ex_body2 [].
Proof.
  split; [vm_compute; reflexivity|].
  split; [vm_compute; reflexivity|].
  split; [vm_compute; discriminate|].
  split; [vm_compute; reflexivity|].
  exists (store_of (downloadSitemap world_day3 ex_url false store_day2)),
    (result_of (downloadSitemap world_day3 ex_url false store_day2)).
  repeat split; try (vm_compute; reflexivity); vm_compute; discriminate.
Qed.

(** A witness of C2: the second fetch of a site that gained a URL. *)
Lemma downloadSitemap_rotation_witness :
  exists st' r response newContent,
    downloadSitemap world_day3 ex_url false store_day1 = (st', Normal r) /\
    fetch world_day3 ex_url = Normal response /\
    response_content ex_url response = Normal newContent /\
    requests st' = requests store_day1 ++ [ex_url] /\
    kv st' !! latestKey ex_domain = Some ex_body1 /\
    kv st' !! currentKey ex_domain = Some newContent /\
    kv st' !! datedKey ex_domain (today world_day3) = Some newContent /\
    kv st' !! lastUpdateKey ex_domain = Some (today world_day3) /\
    r = mkResult true [] (Some (datedKey ex_domain (today world_day3)))
          (compareSitemaps newContent ex_body1).
Proof.
  set (st' := store_of (downloadSitemap world_day3 ex_url false store_day1)).
  set (r := result_of (downloadSitemap world_day3 ex_url false store_day1)).
  assert (Hrun : downloadSitemap world_day3 ex_url false store_day1
                 = (st', Normal r)) by (vm_compute; reflexivity).
  assert (Hs : success r = true) by (vm_compute; reflexivity).
  destruct (downloadSitemap_rotation world_day3 ex_url
              (mkURL ex_domain (js "/sitemap.xml")) false store_day1 st' r
              ex_body1)
    as (response & newContent & H).
  - vm_compute. reflexivity.
  - right. vm_compute. discriminate.
  - vm_compute. reflexivity.
  - discriminate.
  - exact Hrun.
  - exact Hs.
  - exists st', r, response, newContent. split; [exact Hrun|exact H].
Defined.


(** ** The registry *)

Section Registry.

Lemma getFeeds_closed w st :
  getFeeds w st = (st, Normal (registry_view w st)).
Proof.
  unfold getFeeds, registry_view. unfold_async.
  destruct (kv_get_fault w feedsKey); trivial.
  destruct (kv st !! feedsKey) as [[|c t]|]; trivial.
  destruct (JSON_parse w (c :: t)); trivial.
Qed.

(** An attempt never touches the registry. *)
Lemma downloadSitemap_keeps_registry w url force st st' r :
  downloadSitemap w url force st = (st', Normal r) ->
  kv st' !! feedsKey = kv st !! feedsKey.
Proof.
  intros Hrun.
  destruct (downloadSitemap_store_prefix _ _ _ _ _ _ Hrun)
    as [->|(u & newContent & n & _ & ->)]; trivial.
  apply written_other. intros k v Hin.
  assert (Hin' : In (k, v) (snapshot_writes (hostname u) (today w) newContent
                              (kv st !! currentKey (hostname u)))).
  { rewrite <- (take_drop n). apply in_or_app. left. exact Hin. }
  apply In_snapshot_writes in Hin'.
  destruct (keys_distinct (hostname u) (hostname u) (today w))
    as (_ & _ & _ & _ & _ & _ & K1 & K2 & K3 & K4).
  destruct Hin' as [Hk|[Hk|[Hk|Hk]]]; congruence.
Qed.

Lemma registry_view_frame w st st' :
  kv st' !! feedsKey = kv st !! feedsKey ->
  registry_view w st' = registry_view w st.
Proof. unfold registry_view. intros ->. trivial. Qed.

(** How a successful attempt ended: fetched, with an empty message and the
    key of the dated copy, or throttled, with a message and no key. *)
Lemma downloadSitemap_success_kind w url force st st' r :
  downloadSitemap w url force st = (st', Normal r) ->
  success r = true ->
  (errorMsg r = [] /\ exists key, datedFile r = Some key) \/
  (truthy (errorMsg r) = true /\ datedFile r = None /\ st' = st /\
   (errorMsg r = msg_updated_today \/ errorMsg r = msg_updated_not_sent)).
Proof.
  unfold downloadSitemap. unfold try_catch at 1.
  destruct (downloadSitemap_try w url force st) as [st1 [e|r1]] eqn:Htry.
  { unfold ret. intros [= <- <-]. discriminate. }
  intros [= -> ->] _.
  pose proof (downloadSitemap_try_store _ _ _ _ _ _ Htry) as [[_ Hthr]|Hfetch].
  - destruct (Hthr r eq_refl) as (-> & _ & Hd & Hm & u & Hurl & Hbr).
    right. repeat split; trivial.
    pose proof (downloadSitemap_try_early w url force st) as Hearly.
    rewrite Hurl in Hearly.
    destruct (kv_get_fault w (lastUpdateKey (hostname u))) eqn:Hg.
    { rewrite Hearly in Htry. discriminate. }
    clear Hthr Hearly. revert Htry.
    unfold downloadSitemap_try. unfold_async. rewrite Hurl, Hg, Hbr.
    destruct (kv_get_fault w (currentKey (hostname u))); [discriminate|].
    destruct (kv_get_fault w (latestKey (hostname u))); [discriminate|].
    destruct (kv st !! currentKey (hostname u)) as [[|c ct]|];
      destruct (kv st !! latestKey (hostname u)) as [[|l lt]|];
      intros [= <-]; auto.
  - destruct Hfetch as (u & response & newContent & n & _ & _ & _ & _ & _ & _
                        & _ & ->).
    left. cbn. eauto.
Qed.

End Registry.

(** C9, as the code has it. [getFeeds] never fails and leaves the state
    as it is. It returns the value that [JSON.parse] gives for the stored
    text, whatever that value is; it returns the empty list when the read
    fails, when nothing or the empty string is stored, and when the stored
    text is not valid JSON. *)
Theorem getFeeds_total (w : World) (st : Store) :
  exists feeds,
    getFeeds w st = (st, Normal feeds) /\
    (forall json value,
       kv_get_fault w feedsKey = None ->
       kv st !! feedsKey = Some json -> json <> [] ->
       JSON_parse w json = Normal value -> feeds = value) /\
    (forall json e,
       kv st !! feedsKey = Some json ->
       JSON_parse w json = Throw e -> feeds = JArr []) /\
    (kv st !! feedsKey = None -> feeds = JArr []) /\
    (kv st !! feedsKey = Some [] -> feeds = JArr []) /\
    (forall e, kv_get_fault w feedsKey = Some e -> feeds = JArr []).
Proof.
  exists (registry_view w st). split; [apply getFeeds_closed|].
  unfold registry_view. repeat split.
  - intros json value -> -> Hne Hp. destruct json; [congruence|].
    rewrite Hp. trivial.
  - intros json e -> Hp. destruct (kv_get_fault w feedsKey); trivial.
    destruct json; trivial. rewrite Hp. trivial.
  - intros ->. destruct (kv_get_fault w feedsKey); trivial.
  - intros ->. destruct (kv_get_fault w feedsKey); trivial.
  - intros e ->. trivial.
Qed.

(** Against C9 as the specification words it, which returns the empty
    list for every stored string that is not a registry list. The stored
    texts [null] and [42] are valid JSON and no list; [getFeeds] returns
    [null] and the number, and [addFeed] then fails on
    [feeds.includes]. *)
Lemma getFeeds_valid_json_not_a_list :
  let w := world_day3 in
  kv store_registry_null !! feedsKey = Some (js "null") /\
  getFeeds w store_registry_null = (store_registry_null, Normal JNull) /\
  kv store_registry_number !! feedsKey = Some (js "42") /\
  getFeeds w store_registry_number
    = (store_registry_number, Normal (JNum (js "42"))) /\
  JNull <> JArr [] /\ JNum (js "42") <> JArr [] /\
  exists r, addFeed w ex_url store_registry_null = (store_registry_null, Normal r) /\
            success r = false.
Proof.
  cbv zeta. repeat split; try (vm_compute; reflexivity); try discriminate.
  exists (result_of (addFeed world_day3 ex_url store_registry_null)).
  split; vm_compute; reflexivity.
Qed.

(** A witness of C9: a registry of one source. *)
Lemma getFeeds_total_witness :
  getFeeds world_day3 store_registered
    = (store_registered, Normal (JArr [JStr ex_url])).
Proof.
  destruct (getFeeds_total world_day3 store_registered)
    as (feeds & Hrun & Hparse & _).
  rewrite Hrun. f_equal. f_equal.
  apply (Hparse ([91; 34] ++ ex_url ++ [34; 93])).
  - reflexivity.
  - vm_compute. reflexivity.
  - discriminate.
  - vm_compute. reflexivity.
Defined.
(** C6. When [url] is absent from the registry as [getFeeds] reads it:
    [removeFeed] answers with the failure "no such subscription", and
    leaves the state as it is, so that nothing is written and no request
    is issued; and when the attempt that [addFeed] makes first fails,
    [addFeed] returns that failure, and the registry is as it was. *)
Theorem registry_mutation_safety (w : World) (url : jsstring) (st : Store)
    (feeds : jsvalue) :
  getFeeds w st = (st, Normal feeds) ->
  method_includes w feeds url = Normal false ->
  removeFeed w url st = (st, Normal (mkRemoveResult false msg_not_subscribed)) /\
  (forall st' r,
     downloadSitemap w url false st = (st', Normal r) ->
     success r = false ->
     addFeed w url st = (st', Normal r) /\
     kv st' !! feedsKey = kv st !! feedsKey /\
     getFeeds w st' = (st', Normal feeds)).
Proof.
  intros Hfeeds Hinc. split.
  - unfold removeFeed. unfold try_catch at 1. unfold bind at 1.
    rewrite Hfeeds. unfold bind at 1. unfold lift at 1. rewrite Hinc.
    reflexivity.
  - intros st' r Hrun Hfail.
    pose proof (downloadSitemap_keeps_registry _ _ _ _ _ _ Hrun) as Hkeep.
    split; [|split; trivial].
    + unfold addFeed. unfold try_catch at 1. unfold bind at 1.
      rewrite Hfeeds. unfold bind at 1. unfold lift at 1. rewrite Hinc.
      cbn [negb]. unfold bind at 1. rewrite Hrun, Hfail. reflexivity.
    + rewrite getFeeds_closed in *. injection Hfeeds as <-.
      rewrite (registry_view_frame w st st' Hkeep). trivial.
Qed.

(** A witness of C6: an empty registry and a network that is down. *)
Lemma registry_mutation_safety_witness :
  let w := example_world ex_now net_down no_fault no_fault in
  removeFeed w ex_url empty_store
    = (empty_store, Normal (mkRemoveResult false msg_not_subscribed)) /\
  exists st' r,
    downloadSitemap w ex_url false empty_store = (st', Normal r) /\
    success r = false /\
    addFeed w ex_url empty_store = (st', Normal r) /\
    kv st' !! feedsKey = None.
Proof.
  cbv zeta.
  set (w := example_world ex_now net_down no_fault no_fault).
  destruct (registry_mutation_safety w ex_url empty_store (JArr []))
    as [Hremove Hadd].
  - vm_compute. reflexivity.
  - vm_compute. reflexivity.
  - split; [exact Hremove|].
    set (st' := store_of (downloadSitemap w ex_url false empty_store)).
    set (r := result_of (downloadSitemap w ex_url false empty_store)).
    assert (Hrun : downloadSitemap w ex_url false empty_store = (st', Normal r))
      by (vm_compute; reflexivity).
    assert (Hfail : success r = false) by (vm_compute; reflexivity).
    destruct (Hadd st' r Hrun Hfail) as (H1 & H2 & _).
    exists st', r. repeat split; trivial.
Defined.

(** C8, as the code has it. A successful [addFeed] returns the outcome of
    the attempt it made, with its key and its new URLs. For a source that
    was registered, the message is replaced by "existing feed updated".
    For a new source, the source is appended to the registry, and the
    message is "added" when the attempt fetched (its own message was
    empty); when the attempt was throttled, its own message, "already
    updated today", is kept. *)
Theorem addFeed_message (w : World) (url : jsstring) (st st2 : Store)
    (added : DownloadResult) :
  addFeed w url st = (st2, Normal added) ->
  success added = true ->
  exists feeds st1 r,
    getFeeds w st = (st, Normal feeds) /\
    downloadSitemap w url false st = (st1, Normal r) /\
    success r = true /\
    datedFile added = datedFile r /\
    newUrls added = newUrls r /\
    ((method_includes w feeds url = Normal true /\
      st2 = st1 /\
      errorMsg added = msg_existing_updated)
     \/
     (method_includes w feeds url = Normal false /\
      (exists feeds',
         method_push w feeds url = Normal feeds' /\
         st2 = mkStore (<[feedsKey := JSON_stringify w feeds']> (kv st1))
                 (requests st1)) /\
      ((exists key, datedFile r = Some key) -> errorMsg added = msg_added) /\
      (datedFile r = None ->
         errorMsg added = errorMsg r /\
         (errorMsg added = msg_updated_today \/
          errorMsg added = msg_updated_not_sent)))).
Proof.
  intros Hadd Hsucc.
  destruct (downloadSitemap_total w url false st) as (st1 & r & Hrun).
  exists (registry_view w st), st1, r.
  split; [apply getFeeds_closed|]. split; [exact Hrun|].
  revert Hadd. unfold addFeed. unfold try_catch at 1. unfold bind at 1.
  rewrite getFeeds_closed. unfold bind at 1. unfold lift at 1.
  destruct (method_includes w (registry_view w st) url) as [e|[|]] eqn:Hinc.
  - unfold ret. intros [= <- <-]. discriminate.
  - (* registered *)
    cbn [negb]. unfold bind at 1. rewrite Hrun.
    destruct (success r) eqn:Hr; cbn [negb]; unfold ret; intros [= <- <-].
    + cbn. auto 10.
    + congruence.
  - (* new *)
    cbn [negb]. unfold bind at 1. rewrite Hrun.
    destruct (success r) eqn:Hr; cbn [negb].
    2: { unfold ret. intros [= <- <-]. congruence. }
    unfold bind at 1. unfold lift at 1.
    destruct (method_push w (registry_view w st) url) as [e|feeds'] eqn:Hpush.
    { unfold ret. intros [= <- <-]. discriminate. }
    unfold bind at 1. unfold kv_put at 1.
    destruct (kv_put_fault w feedsKey) as [e|].
    { unfold ret. intros [= <- <-]. discriminate. }
    unfold ret. intros [= <- <-]. cbn [datedFile newUrls errorMsg].
    repeat (split; [reflexivity|]). right.
    split; [reflexivity|]. split; [eauto|].
    destruct (downloadSitemap_success_kind _ _ _ _ _ _ Hrun Hr)
      as [[Hmsg [key Hkey]]|(Ht & Hnone & _ & Hmsg)].
    + rewrite Hmsg. cbn [truthy]. split; [reflexivity|congruence].
    + rewrite Ht. split; [intros [key Hkey]; congruence|auto].
Qed.

(** Against C8 as the specification words it, which has the message say
    "added" whenever the URL was new. A source that is added, removed and
    added again on the same day is new at the second [addFeed], which
    succeeds and appends it; the attempt is throttled, and the message is
    "already updated today". *)
Lemma addFeed_new_but_throttled :
  let w := world_day3 in
  getFeeds w store_removed = (store_removed, Normal (JArr [])) /\
  method_includes w (JArr []) ex_url = Normal false /\
  exists st' r,
    addFeed w ex_url store_removed = (st', Normal r) /\
    success r = true /\
    getFeeds w st' = (st', Normal (JArr [JStr ex_url])) /\
    errorMsg r = msg_updated_today /\
    errorMsg r <> msg_added.
Proof.
  cbv zeta.
  split; [vm_compute; reflexivity|].
  split; [reflexivity|].
  exists (store_of (addFeed world_day3 ex_url store_removed)),
    (result_of (addFeed world_day3 ex_url store_removed)).
  repeat split; try (vm_compute; reflexivity).
  vm_compute. discriminate.
Qed.

(** A witness of C8: a new source on an empty store, added after a
    fetch. *)
Lemma addFeed_message_witness :
  exists st2 added,
    addFeed world_day3 ex_url empty_store = (st2, Normal added) /\
    success added = true /\
    errorMsg added = msg_added /\
    getFeeds world_day3 st2 = (st2, Normal (JArr [JStr ex_url])).
Proof.
  set (st2 := store_of (addFeed world_day3 ex_url empty_store)).
  set (added := result_of (addFeed world_day3 ex_url empty_store)).
  assert (Hadd : addFeed world_day3 ex_url empty_store = (st2, Normal added))
    by (vm_compute; reflexivity).
  assert (Hs : success added = true) by (vm_compute; reflexivity).
  destruct (addFeed_message world_day3 ex_url empty_store st2 added Hadd Hs)
    as (feeds & st1 & r & Hfeeds & Hrun & Hr & Hkey & Hurls & Hcase).
  exists st2, added. split; [exact Hadd|]. split; [exact Hs|].
  split; [|vm_compute; reflexivity].
  destruct Hcase as [(Hinc & _)|(_ & _ & Hfetched & _)].
  - exfalso. rewrite getFeeds_closed in Hfeeds. injection Hfeeds as <-.
    vm_compute in Hinc. discriminate.
  - apply Hfetched. rewrite <- Hkey. vm_compute. eauto.
Defined.
(** ** apps/telegram-bot.ts: the keyword statistics *)

Section Keywords.

Lemma count_segment_counted m segment :
  count_segment m segment =
  if counted segment then add_keyword m (cleanSegment segment) else m.
Proof.
  unfold count_segment, counted, add_keyword.
  destruct (keeps segment); trivial.
Qed.

Lemma fold_count_segment segments m :
  fold_left count_segment segments m =
  fold_left add_keyword (cleanSegment <$> List.filter counted segments) m.
Proof.
  revert m. induction segments as [|s segments IH]; intros m; trivial.
  cbn [fold_left List.filter]. rewrite count_segment_counted, IH.
  destruct (counted s); trivial.
Qed.

Lemma counted_long segment :
  counted segment = true -> (2 <? length segment)%nat = true.
Proof.
  unfold counted, keeps. intros H.
  repeat (apply andb_true_iff in H as [H ?]). exact H.
Qed.

Lemma filter_counted_long segments :
  List.filter counted
    (List.filter (fun segment => (2 <? length segment)%nat) segments) =
  List.filter counted segments.
Proof.
  induction segments as [|s segments IH]; trivial.
  cbn [List.filter].
  destruct (2 <? length s)%nat eqn:Hlen; cbn [List.filter].
  - rewrite IH. trivial.
  - rewrite IH. destruct (counted s) eqn:Hc; trivial.
    apply counted_long in Hc. congruence.
Qed.

Lemma count_url_keywords w m url :
  count_url w m url = fold_left add_keyword (url_keywords w url) m.
Proof.
  unfold count_url, url_keywords.
  destruct (URL_parse w url) as [e|urlObj]; trivial.
  cbv zeta. rewrite fold_count_segment, filter_counted_long. trivial.
Qed.

Lemma fold_count_url w urls m :
  fold_left (count_url w) urls m =
  fold_left add_keyword (all_keywords w urls) m.
Proof.
  revert m. induction urls as [|url urls IH]; intros m; trivial.
  cbn [fold_left all_keywords flat_map].
  rewrite fold_left_app, <- count_url_keywords. apply IH.
Qed.

(** *** The map of counts *)

Lemma Map_get_set m k v k' :
  Map_get (Map_set m k v) k' = if bool_decide (k = k') then Some v else Map_get m k'.
Proof.
  induction m as [|[k0 v0] m IH]; cbn [Map_set Map_get].
  - trivial.
  - destruct (bool_decide (k0 = k)) eqn:H0; cbn [Map_get].
    + apply bool_decide_eq_true in H0. subst k0.
      destruct (bool_decide (k = k')); trivial.
    + rewrite IH. apply bool_decide_eq_false in H0.
      destruct (bool_decide (k0 = k')) eqn:H1; trivial.
      apply bool_decide_eq_true in H1. subst k0.
      rewrite bool_decide_eq_false_2 by congruence. trivial.
Qed.

Lemma Map_set_keys m k v :
  fst <$> Map_set m k v =
  if decide (k ∈ fst <$> m) then fst <$> m else (fst <$> m) ++ [k].
Proof.
  induction m as [|[k0 v0] m IH]; cbn [Map_set].
  - rewrite decide_False by apply not_elem_of_nil. trivial.
  - destruct (bool_decide (k0 = k)) eqn:H0.
    + apply bool_decide_eq_true in H0. subst k0.
      rewrite decide_True by (rewrite fmap_cons; apply list_elem_of_here).
      trivial.
    + apply bool_decide_eq_false in H0.
      rewrite !fmap_cons, IH. cbn [fst].
      destruct (decide (k ∈ fst <$> m)) as [Hin|Hout].
      * rewrite decide_True by (apply list_elem_of_further; exact Hin). trivial.
      * rewrite decide_False; trivial.
        intros Hin. apply elem_of_cons in Hin as [?|?]; [congruence|tauto].
Qed.

Lemma Map_get_In m k v :
  NoDup (fst <$> m) -> (In (k, v) m <-> Map_get m k = Some v).
Proof.
  induction m as [|[k0 v0] m IH]; cbn [Map_get fmap list_fmap fst].
  - intros _. split; [intros []|discriminate].
  - intros Hnd. apply NoDup_cons in Hnd as [Hk0 Hnd].
    destruct (bool_decide (k0 = k)) eqn:H0.
    + apply bool_decide_eq_true in H0. subst k0. split.
      * intros [[= ->]|Hin]; trivial.
        exfalso. apply Hk0. apply list_elem_of_fmap. exists (k, v).
        split; trivial. apply list_elem_of_In. exact Hin.
      * intros [= ->]. left. trivial.
    + apply bool_decide_eq_false in H0. rewrite <- (IH Hnd). split.
      * intros [[= -> ->]|Hin]; [congruence|trivial].
      * intros Hin. right. trivial.
Qed.

Lemma Map_set_values m k v (P : nat -> Prop) :
  P v -> Forall (fun entry => P (snd entry)) m ->
  Forall (fun entry => P (snd entry)) (Map_set m k v).
Proof.
  intros Hv. induction m as [|[k0 v0] m IH]; cbn [Map_set]; intros Hm.
  - repeat constructor. exact Hv.
  - apply Forall_cons in Hm as [H0 Hm].
    destruct (bool_decide (k0 = k)); constructor; auto.
Qed.

Lemma add_keyword_ok m k : counts_ok m -> counts_ok (add_keyword m k).
Proof.
  intros [Hnd Hpos]. unfold add_keyword. split.
  - rewrite Map_set_keys. destruct (decide (k ∈ fst <$> m)); trivial.
    apply NoDup_app. repeat split; trivial.
    + intros x Hx Hx'. apply list_elem_of_singleton in Hx'. subst. tauto.
    + apply NoDup_singleton.
  - apply (Map_set_values m k _ (fun c => (0 < c)%nat)); trivial. lia.
Qed.

Lemma add_keyword_getd m k k' :
  getd (add_keyword m k) k' =
  (getd m k' + if bool_decide (k = k') then 1 else 0)%nat.
Proof.
  unfold getd, add_keyword. rewrite Map_get_set.
  destruct (bool_decide (k = k')) eqn:H; cbn [default].
  - apply bool_decide_eq_true in H. subst. trivial.
  - lia.
Qed.

Lemma fold_add_keyword_ok ks m :
  counts_ok m -> counts_ok (fold_left add_keyword ks m).
Proof.
  revert m. induction ks as [|k ks IH]; intros m Hm; trivial.
  cbn [fold_left]. apply IH, add_keyword_ok, Hm.
Qed.

Lemma fold_add_keyword_getd ks m k :
  getd (fold_left add_keyword ks m) k =
  (getd m k + count_occ jsstring_eq_dec ks k)%nat.
Proof.
  revert m. induction ks as [|k0 ks IH]; intros m; cbn [fold_left count_occ].
  - lia.
  - rewrite IH, add_keyword_getd.
    destruct (jsstring_eq_dec k0 k) as [->|Hne].
    + rewrite bool_decide_eq_true_2 by trivial. lia.
    + rewrite bool_decide_eq_false_2 by trivial. lia.
Qed.

(** The entries of the map after the loops: each keyword that occurs, with
    the number of its occurrences. *)
Lemma tally_entries ks k c :
  In (k, c) (fold_left add_keyword ks []) <->
  c = count_occ jsstring_eq_dec ks k /\ (0 < c)%nat.
Proof.
  assert (Hok : counts_ok (fold_left add_keyword ks [])).
  { apply fold_add_keyword_ok. split; constructor. }
  destruct Hok as [Hnd Hpos].
  pose proof (fold_add_keyword_getd ks [] k) as Hget.
  unfold getd in Hget. cbn [Map_get from_option] in Hget.
  rewrite (Map_get_In _ k c Hnd). split.
  - intros Hsome. rewrite Hsome in Hget. cbn [from_option id] in Hget.
    split; [lia|].
    apply (Map_get_In _ k c Hnd) in Hsome.
    rewrite Forall_forall in Hpos. apply list_elem_of_In in Hsome.
    exact (Hpos _ Hsome).
  - intros [-> Hc].
    destruct (Map_get (fold_left add_keyword ks []) k) as [c'|];
      cbn [from_option id] in Hget; [f_equal; lia|lia].
Qed.

(** *** The sort *)

Lemma sort_insert_perm a l : Permutation (sort_insert a l) (a :: l).
Proof.
  induction l as [|b l IH]; cbn [sort_insert]; trivial.
  destruct (count b <=? count a)%nat; trivial.
  rewrite IH. apply perm_swap.
Qed.

Lemma sort_by_count_perm l : Permutation (sort_by_count l) l.
Proof.
  induction l as [|a l IH]; cbn; trivial.
  rewrite sort_insert_perm. constructor. exact IH.
Qed.

Lemma sort_insert_sorted a l :
  StronglySorted by_count_desc l -> StronglySorted by_count_desc (sort_insert a l).
Proof.
  induction l as [|b l IH]; cbn [sort_insert]; intros Hs.
  - repeat constructor.
  - apply StronglySorted_inv in Hs as [Hs Hb].
    destruct (Nat.leb_spec (count b) (count a)) as [Hle|Hgt].
    + constructor; [constructor; trivial|].
      constructor; [exact Hle|].
      rewrite List.Forall_forall in *. intros x Hx.
      specialize (Hb x Hx). unfold by_count_desc in *. lia.
    + constructor; [apply IH; exact Hs|].
      rewrite List.Forall_forall in *. intros x Hx.
      apply (Permutation_in _ (sort_insert_perm a l)) in Hx.
      destruct Hx as [<-|Hx]; [unfold by_count_desc; lia|auto].
Qed.

Lemma sort_by_count_sorted l : StronglySorted by_count_desc (sort_by_count l).
Proof.
  induction l as [|a l IH]; cbn.
  - constructor.
  - apply sort_insert_sorted, IH.
Qed.

End Keywords.
Section KeywordTheorem.

Lemma In_url_keywords w url k :
  In k (url_keywords w url) ->
  exists urlObj segment,
    URL_parse w url = Normal urlObj /\
    In segment (split 47 (pathname urlObj)) /\
    counted segment = true /\ k = cleanSegment segment.
Proof.
  unfold url_keywords.
  destruct (URL_parse w url) as [e|urlObj]; [intros []|].
  intros Hin. apply list_elem_of_In, list_elem_of_fmap in Hin as (segment & -> & Hin).
  apply list_elem_of_In, List.filter_In in Hin as [Hin Hc].
  eauto 10.
Qed.

Lemma counted_spec segment :
  counted segment = true ->
  (2 < length segment)%nat /\ all_digits segment = false /\
  ~ In 46 segment /\ is_stopword segment = false /\
  (2 < length (cleanSegment segment))%nat.
Proof.
  unfold counted, keeps. intros H.
  apply andb_true_iff in H as [H H5].
  apply andb_true_iff in H as [H H4].
  apply andb_true_iff in H as [H H3].
  apply andb_true_iff in H as [H1 H2].
  apply Nat.ltb_lt in H1, H5.
  apply negb_true_iff in H2, H3, H4.
  repeat split; trivial.
  intros Hin. apply not_true_iff_false in H3. apply H3.
  apply existsb_exists. exists 46. split; trivial.
Qed.

Lemma to_stats_In m k c : In (mkStat k c) (to_stats m) <-> In (k, c) m.
Proof.
  unfold to_stats. rewrite <- !list_elem_of_In, list_elem_of_fmap. split.
  - intros ([k' c'] & [= -> ->] & Hin). exact Hin.
  - intros Hin. exists (k, c). auto.
Qed.

Lemma to_stats_keywords m : keyword <$> to_stats m = fst <$> m.
Proof.
  unfold to_stats. rewrite <- list_fmap_compose. trivial.
Qed.

Lemma StronglySorted_take {A} (R : A -> A -> Prop) n l :
  StronglySorted R l -> StronglySorted R (take n l).
Proof.
  revert n. induction l as [|a l IH]; intros [|n] Hs; cbn; try constructor.
  - apply IH. apply StronglySorted_inv in Hs. tauto.
  - apply StronglySorted_inv in Hs as [_ Ha].
    rewrite List.Forall_forall in *. intros x Hx. apply Ha.
    rewrite <- (take_drop n l). apply in_or_app. left. exact Hx.
Qed.

Lemma all_keywords_skip w urls1 url urls2 e :
  URL_parse w url = Throw e ->
  all_keywords w (urls1 ++ url :: urls2) = all_keywords w (urls1 ++ urls2).
Proof.
  intros He. unfold all_keywords. rewrite !flat_map_app. cbn [flat_map].
  unfold url_keywords at 2. rewrite He. trivial.
Qed.

End KeywordTheorem.

Section KeywordRule.

Lemma letter_of_lower c :
  letter_of upper_letters lower_letters c =
  if (65 <=? c) && (c <=? 90) then c + 32 else c.
Proof.
  destruct ((65 <=? c) && (c <=? 90)) eqn:Hr.
  - apply andb_true_iff in Hr as [H1 H2].
    apply N.leb_le in H1, H2.
    assert (Hc : In c upper_letters).
    { unfold upper_letters. cbn [In].
      assert (H : exists n, (n < 26)%nat /\ c = 65 + N.of_nat n).
      { exists (N.to_nat (c - 65)). split; lia. }
      destruct H as (n & Hn & ->).
      do 26 (destruct n as [|n]; [cbn; tauto|]). lia. }
    unfold upper_letters in Hc. cbn [In] in Hc.
    repeat (destruct Hc as [<-|Hc]; [reflexivity|]). destruct Hc.
  - apply andb_false_iff in Hr.
    assert (Hc : c < 65 \/ 90 < c).
    { destruct Hr as [H|H]; apply N.leb_gt in H; lia. }
    unfold upper_letters, lower_letters. cbn [letter_of].
    repeat (rewrite bool_decide_eq_false_2 by lia). trivial.
Qed.

Lemma toLowerCase_lower_case s : toLowerCase s = lower_case s.
Proof.
  unfold toLowerCase, lower_case. apply list_fmap_ext.
  intros _ c _. symmetry. apply letter_of_lower.
Qed.

Lemma remove_all_without_hyphens s : remove_all 45 s = without_hyphens s.
Proof.
  unfold remove_all, without_hyphens.
  induction s as [|a s IH]; trivial.
  cbn [List.filter]. rewrite filter_cons.
  destruct (N.eqb_spec a 45) as [->|Hne]; cbn [negb].
  - rewrite decide_False by tauto. exact IH.
  - rewrite decide_True by exact Hne. rewrite IH. trivial.
Qed.

Lemma cleanSegment_keyword_of s : cleanSegment s = keyword_of s.
Proof.
  unfold cleanSegment, keyword_of.
  rewrite remove_all_without_hyphens. apply toLowerCase_lower_case.
Qed.

Lemma isDigit_decimal c : isDigit c = true <-> c ∈ decimal_digits.
Proof.
  unfold isDigit, decimal_digits.
  rewrite andb_true_iff, !N.leb_le, !elem_of_cons, elem_of_nil. lia.
Qed.

Lemma all_digits_only s : all_digits s = true <-> digits_only s.
Proof.
  unfold all_digits, digits_only.
  rewrite andb_true_iff, forallb_forall, List.Forall_forall. split.
  - intros [Ht Hd]. split; [destruct s; [discriminate|congruence]|].
    intros c Hc. apply isDigit_decimal, Hd, Hc.
  - intros [Hne Hd]. split; [destruct s; [congruence|trivial]|].
    intros c Hc. apply isDigit_decimal, Hd, Hc.
Qed.

Lemma has_dot s : existsb (N.eqb 46) s = true <-> 46 ∈ s.
Proof.
  rewrite existsb_exists, list_elem_of_In. split.
  - intros (c & Hc & Heq). apply N.eqb_eq in Heq. subst. exact Hc.
  - intros Hc. exists 46. split; trivial.
Qed.

(** A pattern of lower-case letters matches, with the i flag, the
    strings whose lower-case form it is. *)
Lemma equals_ci_lower_case s p :
  Forall (fun b => 97 <= b <= 122) p ->
  equals_ci s p = true <-> lower_case s = p.
Proof.
  unfold lower_case. intros Hp. revert s.
  induction Hp as [|b p Hb Hp IH]; intros [|a s]; cbn [equals_ci];
    try (split; [discriminate|]; rewrite ?fmap_cons; discriminate).
  - tauto.
  - rewrite fmap_cons, andb_true_iff, IH, N.eqb_eq, letter_of_lower.
    unfold Canonicalize. cbn [andb].
    destruct (N.leb_spec 97 a); destruct (N.leb_spec a 122);
      destruct (N.leb_spec 97 b); destruct (N.leb_spec b 122);
      destruct (N.leb_spec 65 a); destruct (N.leb_spec a 90);
      cbn [andb]; try lia;
      (split; [intros [E1 E2]; f_equal; [lia|exact E2]
              |intros [= E1 E2]; split; [lia|exact E2]]).
Qed.

Lemma is_stopword_set s : is_stopword s = true <-> lower_case s ∈ stopword_set.
Proof.
  unfold is_stopword, stopwords, stopword_set. cbn [existsb].
  rewrite !orb_true_iff, !elem_of_cons, elem_of_nil.
  rewrite !equals_ci_lower_case
    by (repeat constructor; lia).
  intuition discriminate.
Qed.

(** The test of the code is the rule. *)
Lemma keeps_keyword_segment s : keeps s = true <-> keyword_segment s.
Proof.
  unfold keeps, keyword_segment.
  rewrite !andb_true_iff, !negb_true_iff, <- !not_true_iff_false,
    Nat.ltb_lt, all_digits_only, has_dot, is_stopword_set.
  tauto.
Qed.

Lemma url_keywords_rule segments :
  cleanSegment <$> List.filter counted segments =
  filter (fun k => (2 < length k)%nat)
    (keyword_of <$> filter keyword_segment segments).
Proof.
  induction segments as [|s segments IH]; trivial.
  cbn [List.filter]. rewrite filter_cons. unfold counted at 1.
  destruct (decide (keyword_segment s)) as [Hk|Hk].
  - rewrite (proj2 (keeps_keyword_segment s) Hk). cbn [andb].
    rewrite fmap_cons, filter_cons, <- cleanSegment_keyword_of.
    destruct (Nat.ltb_spec 2 (length (cleanSegment s))) as [Hl|Hl].
    + rewrite decide_True by exact Hl. rewrite fmap_cons, IH. trivial.
    + rewrite decide_False by lia. exact IH.
  - assert (Hf : keeps s = false).
    { apply not_true_iff_false. rewrite keeps_keyword_segment. exact Hk. }
    rewrite Hf. cbn [andb]. exact IH.
Qed.

(** The keywords that the loops count are those of the rule. *)
Lemma all_keywords_rule w urls : all_keywords w urls = rule_keywords w urls.
Proof.
  unfold all_keywords, rule_keywords.
  induction urls as [|url urls IH]; trivial.
  cbn [flat_map]. rewrite IH. f_equal.
  unfold url_keywords. destruct (URL_parse w url); trivial.
  apply url_keywords_rule.
Qed.

(** [split] cuts at every separator and nowhere else. *)
Lemma split_pieces sep s :
  split sep s <> [] /\
  join_pieces sep (split sep s) = s /\
  Forall (fun piece => sep ∉ piece) (split sep s).
Proof.
  induction s as [|c s (Hne & Hjoin & Hall)]; cbn [split].
  - split; [discriminate|]. split; [trivial|].
    constructor; [apply not_elem_of_nil|constructor].
  - destruct (N.eqb_spec c sep) as [->|Hc].
    + split; [discriminate|]. split.
      * cbn [join_pieces]. destruct (split sep s); [congruence|].
        cbn [app]. rewrite Hjoin. trivial.
      * constructor; [apply not_elem_of_nil|exact Hall].
    + destruct (split sep s) as [|piece pieces]; [congruence|].
      split; [discriminate|]. split.
      * cbn [join_pieces] in *. destruct pieces as [|p2 pieces].
        -- congruence.
        -- cbn [app]. congruence.
      * apply Forall_cons in Hall as [Hp Hall]. constructor; trivial.
        rewrite elem_of_cons. intros [Heq|Hin]; [congruence|tauto].
Qed.

Lemma lower_case_no_upper s c :
  c ∈ lower_case s -> ~ (65 <= c <= 90).
Proof.
  unfold lower_case. rewrite list_elem_of_fmap. intros (a & -> & _).
  rewrite letter_of_lower.
  destruct (N.leb_spec 65 a); destruct (N.leb_spec a 90); cbn [andb]; lia.
Qed.

Lemma keyword_of_no_hyphen s : 45 ∉ keyword_of s.
Proof.
  unfold keyword_of, lower_case, without_hyphens.
  rewrite list_elem_of_fmap. intros (a & Ha & Hin).
  apply list_elem_of_filter in Hin as [Hne _].
  rewrite letter_of_lower in Ha.
  destruct (N.leb_spec 65 a); destruct (N.leb_spec a 90); cbn [andb] in Ha; lia.
Qed.

End KeywordRule.

(** C7. For every list of URLs, [extractKeywordsWithCount] returns at most
    ten entries, in the order of non-increasing counts: the first ten of
    the ranking of all keywords, in which each keyword stands once with
    the number of its occurrences. The keywords are those of the rule
    [rule_keywords], which is written without the functions of the code:
    a keyword is met once for each segment of the path (split on [/]) of
    a URL of the list that parses, when the segment is longer than two
    characters, not made of digits only, without a [.] and no stopword,
    and it is that segment without its hyphens and in lower case; the
    code counts it when it is itself longer than two characters. A URL
    that fails to parse is skipped. On the two URLs of the example the
    result is the keyword [technews] with the count 2 and nothing else,
    so [2024] does not appear. *)
Theorem extractKeywordsWithCount_spec (w : World) (urls : list jsstring) :
  let stats := extractKeywordsWithCount w urls in
  let ks := rule_keywords w urls in
  (length stats <= 10)%nat /\
  StronglySorted by_count_desc stats /\
  (exists ranked,
     stats = take 10 ranked /\
     StronglySorted by_count_desc ranked /\
     NoDup (keyword <$> ranked) /\
     forall k c, In (mkStat k c) ranked <->
                 c = count_occ jsstring_eq_dec ks k /\ (0 < c)%nat) /\
  (forall k,
     In k ks <->
     exists url urlObj segment,
       In url urls /\ URL_parse w url = Normal urlObj /\
       In segment (split 47 (pathname urlObj)) /\
       (2 < length segment)%nat /\
       ~ (segment <> [] /\ Forall (fun c => c ∈ decimal_digits) segment) /\
       (46 ∉ segment) /\
       (lower_case segment ∉ stopword_set) /\
       k = lower_case (filter (fun c => c <> 45) segment) /\
       (2 < length k)%nat) /\
  (forall stat, In stat stats ->
     In (keyword stat) ks /\
     count stat = count_occ jsstring_eq_dec ks (keyword stat) /\
     (0 < count stat)%nat /\
     (45 ∉ keyword stat) /\
     (forall c, c ∈ keyword stat -> ~ (65 <= c <= 90))) /\
  (forall path,
     split 47 path <> [] /\
     join_pieces 47 (split 47 path) = path /\
     Forall (fun piece => 47 ∉ piece) (split 47 path)) /\
  (forall urls1 url urls2 e,
     urls = urls1 ++ url :: urls2 -> URL_parse w url = Throw e ->
     extractKeywordsWithCount w (urls1 ++ urls2) = stats) /\
  (forall o1 o2,
     URL_parse w kw_url1 = Normal o1 -> pathname o1 = js "/tech-news/2024/" ->
     URL_parse w kw_url2 = Normal o2 -> pathname o2 = js "/tech-news/ai/" ->
     extractKeywordsWithCount w [kw_url1; kw_url2] = [mkStat kw_technews 2]).
Proof.
  cbv zeta. rewrite <- all_keywords_rule.
  set (ks := all_keywords w urls).
  set (ranked := sort_by_count (to_stats (fold_left add_keyword ks []))).
  assert (Hstats : extractKeywordsWithCount w urls = take 10 ranked).
  { unfold extractKeywordsWithCount. rewrite fold_count_url. reflexivity. }
  assert (Hsorted : StronglySorted by_count_desc ranked)
    by apply sort_by_count_sorted.
  assert (Hperm : Permutation ranked (to_stats (fold_left add_keyword ks [])))
    by apply sort_by_count_perm.
  assert (Hentries : forall k c, In (mkStat k c) ranked <->
             c = count_occ jsstring_eq_dec ks k /\ (0 < c)%nat).
  { intros k c. rewrite <- tally_entries, <- to_stats_In. split.
    - apply Permutation_in. exact Hperm.
    - apply Permutation_in. symmetry. exact Hperm. }
  assert (Hrule : forall k,
     In k ks <->
     exists url urlObj segment,
       In url urls /\ URL_parse w url = Normal urlObj /\
       In segment (split 47 (pathname urlObj)) /\
       (2 < length segment)%nat /\
       ~ (segment <> [] /\ Forall (fun c => c ∈ decimal_digits) segment) /\
       (46 ∉ segment) /\
       (lower_case segment ∉ stopword_set) /\
       k = lower_case (filter (fun c => c <> 45) segment) /\
       (2 < length k)%nat).
  { intros k. unfold ks. rewrite all_keywords_rule. unfold rule_keywords.
    rewrite in_flat_map. split.
    - intros (url & Hurl & Hk).
      destruct (URL_parse w url) as [e|urlObj] eqn:Hp; [destruct Hk|].
      apply list_elem_of_In, list_elem_of_filter in Hk as [Hlen Hk].
      apply list_elem_of_fmap in Hk as (segment & -> & Hseg).
      apply list_elem_of_filter in Hseg as [(H1 & H2 & H3 & H4) Hseg].
      apply list_elem_of_In in Hseg.
      exists url, urlObj, segment. repeat split; trivial.
    - intros (url & urlObj & segment & Hurl & Hp & Hseg & H1 & H2 & H3 & H4
              & -> & Hlen).
      exists url. split; [exact Hurl|]. rewrite Hp.
      apply list_elem_of_In, list_elem_of_filter. split; [exact Hlen|].
      apply list_elem_of_fmap. exists segment. split; [reflexivity|].
      apply list_elem_of_filter. split; [repeat split; trivial|].
      apply list_elem_of_In. exact Hseg. }
  rewrite Hstats.
  split; [rewrite length_take; lia|].
  split; [apply StronglySorted_take; exact Hsorted|].
  split.
  { exists ranked. split; [reflexivity|]. split; [exact Hsorted|].
    split; [|exact Hentries].
    rewrite Hperm, to_stats_keywords.
    apply (fold_add_keyword_ok ks []). split; constructor. }
  split; [exact Hrule|].
  split.
  { intros [k c] Hin.
    assert (Hin' : In (mkStat k c) ranked).
    { rewrite <- (take_drop 10 ranked). apply in_or_app. left. exact Hin. }
    apply Hentries in Hin' as [Hc Hpos]. cbn [count keyword].
    assert (Hk : In k ks).
    { apply (count_occ_In jsstring_eq_dec). lia. }
    split; [exact Hk|]. split; [exact Hc|]. split; [exact Hpos|].
    apply Hrule in Hk
      as (url & urlObj & segment & _ & _ & _ & _ & _ & _ & _ & -> & _).
    split; [apply keyword_of_no_hyphen|].
    intros c0. apply lower_case_no_upper. }
  split; [intros path; apply split_pieces|].
  split.
  { intros urls1 url urls2 e Hurls He.
    unfold extractKeywordsWithCount. rewrite fold_count_url.
    fold (to_stats (fold_left add_keyword (all_keywords w (urls1 ++ urls2)) [])).
    rewrite <- (all_keywords_skip w urls1 url urls2 e He), <- Hurls.
    reflexivity. }
  intros [h1 p1] [h2 p2] H1 Hp1 H2 Hp2. cbn [pathname] in Hp1, Hp2. subst p1 p2.
  unfold extractKeywordsWithCount. rewrite fold_count_url.
  unfold all_keywords, url_keywords. cbn [flat_map]. rewrite H1, H2.
  vm_compute. reflexivity.
Qed.

(** A witness of C7, on the platform of the examples. *)
Lemma extractKeywordsWithCount_spec_witness :
  extractKeywordsWithCount world_day3 [kw_url1; kw_url2] = [mkStat kw_technews 2] /\
  ~ In kw_2024 (keyword <$> extractKeywordsWithCount world_day3 [kw_url1; kw_url2]).
Proof.
  destruct (extractKeywordsWithCount_spec world_day3 [kw_url1; kw_url2])
    as (_ & _ & _ & _ & _ & _ & _ & Hex).
  assert (H : extractKeywordsWithCount world_day3 [kw_url1; kw_url2]
              = [mkStat kw_technews 2]).
  { apply (Hex (mkURL (js "a.com") (js "/tech-news/2024/"))
               (mkURL (js "a.com") (js "/tech-news/ai/")));
      vm_compute; reflexivity. }
  split; [exact H|]. rewrite H. cbn. intros [Heq|[]]. discriminate.
Defined.

(** The tests of [keeps] are made on the segment as it stands in the path:
    [ne-ws] is no stopword and [20-24] is not made of digits only, so
    [news] and [2024] are counted; [News] is a stopword whatever its
    case; [a-b] is dropped for its clean form [ab] has two characters. *)
Example extractKeywordsWithCount_raw_segment_tests :
  extractKeywordsWithCount world_day3
    [js "https://a.com/ne-ws/20-24/News/a-b/"]
  = [mkStat (js "news") 1; mkStat (js "2024") 1].
Proof. vm_compute. reflexivity. Qed.

(** Ties keep the order of first occurrence, and an unparsable URL is
    passed over. *)
Example extractKeywordsWithCount_order :
  extractKeywordsWithCount world_day3
    [js "https://a.com/alpha/beta/"; js "not a url";
     js "https://a.com/gamma/beta/"]
  = [mkStat (js "beta") 2; mkStat (js "alpha") 1; mkStat (js "gamma") 1].
Proof. vm_compute. reflexivity. Qed.
(** ** More on [downloadSitemap] *)

Section AttemptFacts.

(** The keys of two domains differ. *)
Lemma key_templates_injective d d' :
  (lastUpdateKey d = lastUpdateKey d' -> d = d') /\
  (currentKey d = currentKey d' -> d = d') /\
  (latestKey d = latestKey d' -> d = d').
Proof.
  unfold lastUpdateKey, currentKey, latestKey.
  repeat split; intros H; exact (app_inv_head _ _ _ H).
Qed.

(** The content of the store after all the writes of an attempt. *)
Lemma written_lookup d t body cur m :
  let m' := written (snapshot_writes d t body cur) m in
  m' !! currentKey d = Some body /\
  m' !! datedKey d t = Some body /\
  m' !! lastUpdateKey d = Some t /\
  m' !! latestKey d =
    match cur with
    | Some (c :: ct) => Some (c :: ct)
    | _ => m !! latestKey d
    end /\
  (forall key, key <> latestKey d -> key <> currentKey d ->
               key <> datedKey d t -> key <> lastUpdateKey d ->
               m' !! key = m !! key).
Proof.
  destruct (keys_distinct d d t) as (H1 & H2 & H3 & H4 & H5 & H6 & _).
  cbv zeta. unfold written, snapshot_writes.
  destruct cur as [[|c ct]|]; cbn [app fold_left fst snd]; repeat split;
    intros;
    repeat (rewrite lookup_insert_ne by congruence);
    try (rewrite lookup_insert_eq); trivial.
Qed.

(** A run of the attempt, with its requests: it stops before any request
    (throw or throttle), or issues one request and fails before the
    writes, or reaches the writes. *)
Lemma downloadSitemap_run w url force st st' r :
  downloadSitemap w url force st = (st', Normal r) ->
  (st' = st /\
   ((success r = false /\
     ((exists e, URL_parse w url = Throw e) \/
      exists u e, URL_parse w url = Normal u /\
                  kv_get_fault w (lastUpdateKey (hostname u)) = Some e))
    \/
    (exists u, URL_parse w url = Normal u /\
       kv_get_fault w (lastUpdateKey (hostname u)) = None /\
       negb force &&
         strict_equals (kv st !! lastUpdateKey (hostname u)) (today w) = true /\
       datedFile r = None)))
  \/
  (exists u,
     URL_parse w url = Normal u /\
     kv_get_fault w (lastUpdateKey (hostname u)) = None /\
     negb force &&
       strict_equals (kv st !! lastUpdateKey (hostname u)) (today w) = false /\
     requests st' = requests st ++ [url] /\
     ((kv st' = kv st /\ success r = false) \/
      exists response newContent n,
        fetch w url = Normal response /\
        response_content url response = Normal newContent /\
        kv_get_fault w (currentKey (hostname u)) = None /\
        let writes := snapshot_writes (hostname u) (today w) newContent
                        (kv st !! currentKey (hostname u)) in
        kv st' = written (take n writes) (kv st) /\
        (success r = true ->
           n = length writes /\
           r = mkResult true [] (Some (datedKey (hostname u) (today w)))
                 (fetch_newUrls newContent (kv st !! currentKey (hostname u)))))).
Proof.
  unfold downloadSitemap. unfold try_catch at 1.
  destruct (downloadSitemap_try w url force st) as [st1 c] eqn:Htry.
  intros Hrun.
  assert (Hst : st' = st1)
    by (destruct c; unfold ret in Hrun; injection Hrun as <- _; trivial).
  subst st1.
  assert (Hc : forall r', c = Normal r' -> r' = r)
    by (intros r' ->; injection Hrun as <-; trivial).
  assert (Hshape : forall e, c = Throw e ->
            r = mkResult false (msg_download_failed ++ message e) None [])
    by (intros e ->; unfold ret in Hrun; injection Hrun as <-; trivial).
  assert (Hf : forall e, c = Throw e -> success r = false)
    by (intros e He; rewrite (Hshape e He); trivial).
  clear Hrun.
  pose proof (downloadSitemap_try_early w url force st) as Hearly.
  destruct (URL_parse w url) as [e|u] eqn:Hurl.
  { rewrite Hearly in Htry. injection Htry as <- <-.
    left. split; trivial. left. split; [exact (Hf e eq_refl)|]. eauto. }
  destruct (kv_get_fault w (lastUpdateKey (hostname u))) as [e|] eqn:Hg.
  { rewrite Hearly in Htry. injection Htry as <- <-.
    left. split; trivial. left. split; [exact (Hf e eq_refl)|]. eauto. }
  clear Hearly.
  destruct (negb force &&
            strict_equals (kv st !! lastUpdateKey (hostname u)) (today w))
    eqn:Hbr.
  { destruct (downloadSitemap_try_throttle w url force st u Hurl Hg Hbr)
      as (c' & Hc' & Hr).
    rewrite Hc' in Htry. injection Htry as <- <-.
    left. split; trivial. right. exists u. do 3 (split; [trivial|]).
    destruct c' as [e|r'].
    - rewrite (Hshape e eq_refl). reflexivity.
    - rewrite <- (Hc r' eq_refl). destruct (Hr r' eq_refl) as (_ & Hd & _).
      exact Hd. }
  right. exists u. do 3 (split; [trivial|]).
  rewrite (downloadSitemap_try_fetch w url force st u Hurl Hg Hbr) in Htry.
  cbv zeta in Htry.
  destruct (fetch w url) as [e|response] eqn:Hfetch.
  { injection Htry as <- <-. split; trivial. left. eauto. }
  destruct (response_content url response) as [e|newContent] eqn:Hcontent.
  { injection Htry as <- <-. split; trivial. left. eauto. }
  destruct (kv_get_fault w (currentKey (hostname u))) as [e|] eqn:Hgc.
  { injection Htry as <- <-. split; trivial. left. eauto. }
  destruct (put_each w _ _) as [st1 c1] eqn:Hput.
  apply put_each_prefix in Hput as (Hreq & n & Hkv & Hc1).
  cbn [kv requests] in Hreq, Hkv.
  assert (st1 = st') by (destruct c1; injection Htry as <- _; trivial).
  subst st1. split; trivial.
  right. exists response, newContent, n.
  do 4 (split; [trivial|]).
  intros Hs. destruct c1 as [e|[]]; injection Htry as <-.
  - rewrite (Hf e eq_refl) in Hs. discriminate.
  - split; [exact Hc1|]. symmetry. apply Hc. trivial.
Qed.

(** A failed attempt names no dated copy. *)
Lemma downloadSitemap_dated_success w url force st st' r key :
  downloadSitemap w url force st = (st', Normal r) ->
  datedFile r = Some key -> success r = true.
Proof.
  unfold downloadSitemap. unfold try_catch at 1.
  destruct (downloadSitemap_try w url force st) as [st1 [e|r1]] eqn:Htry.
  - unfold ret. intros [= <- <-]. discriminate.
  - intros [= <- <-] _.
    apply downloadSitemap_try_store in Htry as [[_ Hthr]|Hfetch].
    + destruct (Hthr r1 eq_refl) as (_ & Hs & _). exact Hs.
    + destruct Hfetch as (? & ? & ? & ? & _ & _ & _ & _ & _ & _ & _ & ->).
      reflexivity.
Qed.

(** The throttle branch in closed form, when the reads succeed. *)
Lemma downloadSitemap_throttled w url u st :
  URL_parse w url = Normal u ->
  kv_get_fault w (lastUpdateKey (hostname u)) = None ->
  kv_get_fault w (currentKey (hostname u)) = None ->
  kv_get_fault w (latestKey (hostname u)) = None ->
  kv st !! lastUpdateKey (hostname u) = Some (today w) ->
  downloadSitemap w url false st =
  (st, Normal
         match kv st !! currentKey (hostname u),
               kv st !! latestKey (hostname u) with
         | Some (c :: ct), Some (l :: lt) =>
             mkResult true msg_updated_not_sent None
               (compareSitemaps (c :: ct) (l :: lt))
         | _, _ => mkResult true msg_updated_today None []
         end).
Proof.
  intros Hurl Hg1 Hg2 Hg3 Hmark.
  unfold downloadSitemap, downloadSitemap_try. unfold_async.
  rewrite Hurl, Hg1, Hmark. cbn [negb andb].
  rewrite (proj2 (strict_equals_true _ _) eq_refl).
  rewrite Hg2, Hg3.
  destruct (kv st !! currentKey (hostname u)) as [[|c ct]|];
    destruct (kv st !! latestKey (hostname u)) as [[|l lt]|]; reflexivity.
Qed.

Lemma compareSitemaps_empty_newer B : compareSitemaps [] B = [].
Proof. reflexivity. Qed.

Lemma app_singleton_neq {A} (l : list A) (x : A) : l <> l ++ [x].
Proof.
  intros H. apply (f_equal length) in H. rewrite length_app in H.
  simpl in H. lia.
Qed.

End AttemptFacts.

(** X1. The first fetch of a domain. After a successful attempt that is
    not throttled, on a domain whose [current] snapshot is absent or
    empty: no new URL is reported, [latest] is left as it was, and
    [current], the dated copy of today and the marker are written. *)
Theorem downloadSitemap_first_fetch (w : World) (url : jsstring)
    (u : URLRecord) (force : bool) (st st' : Store) (r : DownloadResult) :
  URL_parse w url = Normal u ->
  force = true \/ kv st !! lastUpdateKey (hostname u) <> Some (today w) ->
  kv st !! currentKey (hostname u) = None \/
    kv st !! currentKey (hostname u) = Some [] ->
  downloadSitemap w url force st = (st', Normal r) ->
  success r = true ->
  exists response newContent,
    fetch w url = Normal response /\
    response_content url response = Normal newContent /\
    r = mkResult true [] (Some (datedKey (hostname u) (today w))) [] /\
    kv st' !! latestKey (hostname u) = kv st !! latestKey (hostname u) /\
    kv st' !! currentKey (hostname u) = Some newContent /\
    kv st' !! datedKey (hostname u) (today w) = Some newContent /\
    kv st' !! lastUpdateKey (hostname u) = Some (today w).
Proof.
  intros Hurl Hfresh Hcur Hrun Hs.
  apply downloadSitemap_run in Hrun as [[_ [[Hfail _]|Hthr]]|Hfetch].
  - congruence.
  - destruct Hthr as (u' & Hu' & _ & Hbr & _).
    rewrite Hurl in Hu'. injection Hu' as <-.
    apply andb_true_iff in Hbr as [Hf Hm].
    apply strict_equals_true in Hm. apply negb_true_iff in Hf.
    destruct Hfresh; congruence.
  - destruct Hfetch as (u' & Hu' & _ & _ & _ & [[_ Hfail]|Hw]); [congruence|].
    rewrite Hurl in Hu'. injection Hu' as <-.
    destruct Hw as (response & newContent & n & Hf & Hc & _ & Hkv & Hr).
    cbv zeta in Hkv, Hr. destruct (Hr Hs) as [-> ->].
    rewrite firstn_all in Hkv.
    destruct (written_lookup (hostname u) (today w) newContent
                (kv st !! currentKey (hostname u)) (kv st))
      as (L1 & L2 & L3 & L4 & _).
    exists response, newContent. rewrite Hkv, L1, L2, L3, L4.
    destruct Hcur as [-> | ->]; auto 10.
Qed.

(** A witness of X1: the fetch of the first day. *)
Lemma downloadSitemap_first_fetch_witness :
  exists st' newContent,
    downloadSitemap world_day1 ex_url false empty_store
      = (st', Normal (mkResult true []
                        (Some (datedKey ex_domain (today world_day1))) [])) /\
    kv st' !! latestKey ex_domain = None /\
    kv st' !! currentKey ex_domain = Some newContent.
Proof.
  set (st' := store_of (downloadSitemap world_day1 ex_url false empty_store)).
  set (r := result_of (downloadSitemap world_day1 ex_url false empty_store)).
  assert (Hrun : downloadSitemap world_day1 ex_url false empty_store
                 = (st', Normal r)) by (vm_compute; reflexivity).
  assert (Hs : success r = true) by (vm_compute; reflexivity).
  destruct (downloadSitemap_first_fetch world_day1 ex_url
              (mkURL ex_domain (js "/sitemap.xml")) false empty_store st' r)
    as (response & newContent & _ & _ & Hr & Hl & Hc & _).
  - vm_compute. reflexivity.
  - right. vm_compute. discriminate.
  - left. vm_compute. reflexivity.
  - exact Hrun.
  - exact Hs.
  - exists st', newContent. cbn [hostname] in Hr, Hl, Hc.
    rewrite <- Hr. split; [exact Hrun|].
    split; [|exact Hc]. rewrite Hl. vm_compute. reflexivity.
Defined.

(** X2. The requests of an attempt. An attempt issues at most one request,
    to the URL it was given, and writes nothing when it issues none. When
    the URL parses and the marker can be read, the request is issued
    exactly when the download is forced or the marker is not today. *)
Theorem downloadSitemap_requests (w : World) (url : jsstring) (force : bool)
    (st st' : Store) (r : DownloadResult) :
  downloadSitemap w url force st = (st', Normal r) ->
  (requests st' = requests st \/ requests st' = requests st ++ [url]) /\
  (requests st' = requests st -> kv st' = kv st) /\
  (forall u,
     URL_parse w url = Normal u ->
     kv_get_fault w (lastUpdateKey (hostname u)) = None ->
     (requests st' = requests st ++ [url] <->
      force = true \/ kv st !! lastUpdateKey (hostname u) <> Some (today w))).
Proof.
  intros Hrun.
  apply downloadSitemap_run in Hrun as [[-> Hstop]|Hfetch].
  - split; [auto|]. split; [auto|].
    intros u Hurl Hg. split.
    + intros H. destruct (app_singleton_neq _ _ H).
    + intros Hfresh. exfalso.
      destruct Hstop as [[_ [[e He]|(u' & e & Hu' & He)]]|Hthr].
      * congruence.
      * rewrite Hurl in Hu'. injection Hu' as <-. congruence.
      * destruct Hthr as (u' & Hu' & _ & Hbr & _).
        rewrite Hurl in Hu'. injection Hu' as <-.
        apply andb_true_iff in Hbr as [Hf Hm].
        apply strict_equals_true in Hm. apply negb_true_iff in Hf.
        destruct Hfresh; congruence.
  - destruct Hfetch as (u & Hurl & Hg & Hbr & Hreq & Hcases).
    split; [auto|]. split.
    + intros H. rewrite H in Hreq. destruct (app_singleton_neq _ _ Hreq).
    + intros u' Hu' _. rewrite Hurl in Hu'. injection Hu' as <-.
      split; [|intros _; exact Hreq]. intros _.
      apply andb_false_iff in Hbr as [Hf|Hm].
      * left. apply negb_false_iff. exact Hf.
      * right. intros Heq. apply strict_equals_true in Heq. congruence.
Qed.


(** A witness of X2: on a store updated today, the forced attempt issues
    its request and the plain one does not. *)
Lemma downloadSitemap_requests_witness :
  requests (store_of (downloadSitemap world_day3 ex_url true store_updated_today))
    = requests store_updated_today ++ [ex_url] /\
  requests (store_of (downloadSitemap world_day3 ex_url false store_updated_today))
    = requests store_updated_today.
Proof.
  set (run1 := downloadSitemap world_day3 ex_url true store_updated_today).
  set (run2 := downloadSitemap world_day3 ex_url false store_updated_today).
  assert (H1 : run1 = (store_of run1, Normal (result_of run1)))
    by (vm_compute; reflexivity).
  assert (H2 : run2 = (store_of run2, Normal (result_of run2)))
    by (vm_compute; reflexivity).
  destruct (downloadSitemap_requests _ _ _ _ _ _ H1) as (_ & _ & Hiff1).
  destruct (downloadSitemap_requests _ _ _ _ _ _ H2) as ([Hsame|Hreq] & _ & Hiff2).
  - split; [|exact Hsame].
    apply (Hiff1 (mkURL ex_domain (js "/sitemap.xml"))); [reflexivity|reflexivity|].
    left. reflexivity.
  - exfalso.
    apply (Hiff2 (mkURL ex_domain (js "/sitemap.xml"))) in Hreq;
      [|reflexivity|reflexivity].
    destruct Hreq as [Hf|Hm]; [discriminate|].
    apply Hm. vm_compute. reflexivity.
Defined.

(** X3. The keys an attempt may touch. Whatever its outcome, an attempt
    leaves every key of the store as it was, but the [latest], [current],
    dated-today and marker keys of the domain of its URL: the snapshots
    and the marker of every other domain, and the registry, are
    unchanged. *)
Theorem downloadSitemap_other_keys (w : World) (url : jsstring) (force : bool)
    (st st' : Store) (r : DownloadResult) :
  downloadSitemap w url force st = (st', Normal r) ->
  (forall key,
     (forall u, URL_parse w url = Normal u ->
        key <> latestKey (hostname u) /\ key <> currentKey (hostname u) /\
        key <> datedKey (hostname u) (today w) /\
        key <> lastUpdateKey (hostname u)) ->
     kv st' !! key = kv st !! key) /\
  (forall u domain,
     URL_parse w url = Normal u -> domain <> hostname u ->
     kv st' !! currentKey domain = kv st !! currentKey domain /\
     kv st' !! latestKey domain = kv st !! latestKey domain /\
     kv st' !! lastUpdateKey domain = kv st !! lastUpdateKey domain) /\
  kv st' !! feedsKey = kv st !! feedsKey.
Proof.
  intros Hrun.
  assert (Hframe : forall key,
     (forall u, URL_parse w url = Normal u ->
        key <> latestKey (hostname u) /\ key <> currentKey (hostname u) /\
        key <> datedKey (hostname u) (today w) /\
        key <> lastUpdateKey (hostname u)) ->
     kv st' !! key = kv st !! key).
  { intros key Hkey.
    destruct (downloadSitemap_store_prefix _ _ _ _ _ _ Hrun)
      as [->|(u & newContent & n & Hurl & ->)]; trivial.
    destruct (Hkey u Hurl) as (K1 & K2 & K3 & K4).
    apply written_other. intros k v Hin.
    assert (Hin' : In (k, v) (snapshot_writes (hostname u) (today w) newContent
                                (kv st !! currentKey (hostname u)))).
    { rewrite <- (take_drop n). apply in_or_app. left. exact Hin. }
    apply In_snapshot_writes in Hin'.
    destruct Hin' as [Hk|[Hk|[Hk|Hk]]]; congruence. }
  split; [exact Hframe|]. split.
  - intros u domain Hurl Hne.
    destruct (key_templates_injective domain (hostname u)) as (I1 & I2 & I3).
    destruct (keys_distinct domain (hostname u) (today w))
      as (D1 & D2 & D3 & D4 & D5 & D6 & _).
    destruct (keys_distinct (hostname u) domain (today w))
      as (E1 & E2 & E3 & E4 & E5 & E6 & _).
    repeat split; apply Hframe; intros u' Hu'; rewrite Hurl in Hu';
      injection Hu' as <-; repeat split;
      solve [ congruence
            | intros Heq; apply I1 in Heq; congruence
            | intros Heq; apply I2 in Heq; congruence
            | intros Heq; apply I3 in Heq; congruence ].
  - apply Hframe. intros u Hurl.
    destruct (keys_distinct (hostname u) (hostname u) (today w))
      as (_ & _ & _ & _ & _ & _ & K1 & K2 & K3 & K4).
    repeat split; congruence.
Qed.

(** A witness of X3: the fetch of one site leaves the snapshot of another
    in place. *)
Lemma downloadSitemap_other_keys_witness :
  let st := mkStore (<[currentKey (js "b.org") := ex_body1]> (kv store_day1)) [] in
  kv (store_of (downloadSitemap world_day3 ex_url false st))
    !! currentKey (js "b.org") = Some ex_body1.
Proof.
  cbv zeta.
  set (st := mkStore (<[currentKey (js "b.org") := ex_body1]> (kv store_day1)) []).
  set (run := downloadSitemap world_day3 ex_url false st).
  assert (Hrun : run = (store_of run, Normal (result_of run)))
    by (vm_compute; reflexivity).
  destruct (downloadSitemap_other_keys _ _ _ _ _ _ Hrun) as (_ & Hother & _).
  destruct (Hother (mkURL ex_domain (js "/sitemap.xml")) (js "b.org"))
    as (Hc & _).
  - reflexivity.
  - discriminate.
  - rewrite Hc. vm_compute. reflexivity.
Defined.

Section ReadBack.

(** [getSitemapContent] in closed form, from the key of its [switch]. *)
Lemma getSitemapContent_read w domain type date st key :
  sitemap_key w domain type date = Normal key ->
  getSitemapContent w domain type date st =
  (st, Normal match kv_get_fault w key with
              | Some _ => None
              | None => kv st !! key
              end).
Proof.
  intros Hkey. unfold getSitemapContent. unfold_async. rewrite Hkey.
  destruct (kv_get_fault w key); trivial.
Qed.

Lemma sitemap_key_current w domain date :
  sitemap_key w domain lit_current date = Normal (currentKey domain).
Proof. reflexivity. Qed.

Lemma sitemap_key_latest w domain date :
  sitemap_key w domain lit_latest date = Normal (latestKey domain).
Proof. reflexivity. Qed.

Lemma sitemap_key_dated w domain date :
  sitemap_key w domain lit_dated date =
  Normal (datedKey domain
            (if truthy_opt date then default [] date else today w)).
Proof. destruct date as [[|c t]|]; reflexivity. Qed.

End ReadBack.

(** X4. Reading back what an attempt stored. When an attempt returns the
    key of a dated copy, that key holds the body just fetched, and a
    [getSitemapContent] for the domain of the URL at any later moment,
    whose read of the store may be rejected on its own, gives: when its
    read is not rejected, the body just fetched as the [current]
    snapshot and as the [dated] snapshot of the day of the fetch, be
    that day given or be no date given on the same day; as the [latest]
    snapshot, the [current] snapshot of before when that was non-empty,
    and the [latest] snapshot of before otherwise. When its read is
    rejected it gives [null]. *)
Theorem getSitemapContent_after_fetch (w : World) (url : jsstring)
    (u : URLRecord) (force : bool) (st st' : Store) (r : DownloadResult)
    (key : jsstring) (m : Moment) :
  URL_parse w url = Normal u ->
  downloadSitemap w url force st = (st', Normal r) ->
  datedFile r = Some key ->
  exists response newContent,
    fetch w url = Normal response /\
    response_content url response = Normal newContent /\
    key = datedKey (hostname u) (today w) /\
    kv st' !! key = Some newContent /\
    getSitemapContent (at_moment w m) (hostname u) lit_current None st'
      = (st', Normal match get_rejected m (currentKey (hostname u)) with
                     | Some _ => None
                     | None => Some newContent
                     end) /\
    (forall date,
       (if truthy_opt date then default [] date else today (at_moment w m))
         = today w ->
       getSitemapContent (at_moment w m) (hostname u) lit_dated date st'
         = (st', Normal match get_rejected m key with
                        | Some _ => None
                        | None => Some newContent
                        end)) /\
    getSitemapContent (at_moment w m) (hostname u) lit_latest None st'
      = (st', Normal match get_rejected m (latestKey (hostname u)) with
                     | Some _ => None
                     | None =>
                         match kv st !! currentKey (hostname u) with
                         | Some (c :: ct) => Some (c :: ct)
                         | _ => kv st !! latestKey (hostname u)
                         end
                     end).
Proof.
  intros Hurl Hrun Hkey.
  pose proof (downloadSitemap_dated_success _ _ _ _ _ _ _ Hrun Hkey) as Hs.
  apply downloadSitemap_run in Hrun as [[_ [[Hfail _]|Hthr]]|Hfetch].
  - congruence.
  - destruct Hthr as (_ & _ & _ & _ & Hnone). congruence.
  - destruct Hfetch as (u' & Hu' & _ & _ & _ & [[_ Hfail]|Hw]); [congruence|].
    rewrite Hurl in Hu'. injection Hu' as <-.
    destruct Hw as (response & newContent & n & Hf & Hc & Hgc & Hkv & Hr).
    cbv zeta in Hkv, Hr. destruct (Hr Hs) as [-> ->].
    rewrite firstn_all in Hkv. cbn [datedFile] in Hkey. injection Hkey as <-.
    destruct (written_lookup (hostname u) (today w) newContent
                (kv st !! currentKey (hostname u)) (kv st))
      as (L1 & L2 & L3 & L4 & _).
    rewrite <- Hkv in L1, L2, L3, L4.
    exists response, newContent.
    do 4 (split; [trivial|]).
    split; [|split].
    + rewrite (getSitemapContent_read _ _ _ _ _ _
                 (sitemap_key_current _ _ _)).
      cbn [kv_get_fault at_moment]. rewrite L1. trivial.
    + intros date Hdate.
      rewrite (getSitemapContent_read _ _ _ _ _ _
                 (sitemap_key_dated _ _ _)).
      rewrite Hdate. cbn [kv_get_fault at_moment]. rewrite L2. trivial.
    + rewrite (getSitemapContent_read _ _ _ _ _ _
                 (sitemap_key_latest _ _ _)).
      cbn [kv_get_fault at_moment]. rewrite L4. trivial.
Qed.

(** A witness of X4: the second fetch of the example, read back later
    that day, when the site is down. *)
Lemma getSitemapContent_after_fetch_witness :
  let st' := store_of (downloadSitemap world_day3 ex_url false store_day1) in
  let w2 := at_moment world_day3 (mkMoment ex_now net_down no_fault no_fault) in
  getSitemapContent w2 ex_domain lit_dated None st'
    = (st', Normal (Some ex_body2)) /\
  getSitemapContent w2 ex_domain lit_latest None st'
    = (st', Normal (Some ex_body1)).
Proof.
  cbv zeta.
  set (run := downloadSitemap world_day3 ex_url false store_day1).
  assert (Hrun : run = (store_of run, Normal (result_of run)))
    by (vm_compute; reflexivity).
  destruct (getSitemapContent_after_fetch world_day3 ex_url
              (mkURL ex_domain (js "/sitemap.xml")) false store_day1
              (store_of run) (result_of run)
              (datedKey ex_domain ex_today)
              (mkMoment ex_now net_down no_fault no_fault))
    as (response & newContent & Hf & Hc & _ & _ & _ & Hd & Hl).
  - reflexivity.
  - exact Hrun.
  - vm_compute. reflexivity.
  - cbn [hostname] in Hd, Hl.
    assert (Hbody : newContent = ex_body2).
    { vm_compute in Hf. injection Hf as <-. vm_compute in Hc.
      injection Hc as <-. reflexivity. }
    rewrite (Hd None) by (vm_compute; reflexivity).
    rewrite Hl, Hbody. split; [reflexivity|].
    vm_compute. reflexivity.
Defined.

Section Replay.

(** The throttle branch when a read is rejected: the call fails, and
    nothing is requested or written. *)
Lemma downloadSitemap_throttled_rejected w url u st e :
  URL_parse w url = Normal u ->
  kv st !! lastUpdateKey (hostname u) = Some (today w) ->
  kv_get_fault w (lastUpdateKey (hostname u)) = Some e \/
  kv_get_fault w (lastUpdateKey (hostname u)) = None /\
  (kv_get_fault w (currentKey (hostname u)) = Some e \/
   kv_get_fault w (currentKey (hostname u)) = None /\
   kv_get_fault w (latestKey (hostname u)) = Some e) ->
  downloadSitemap w url false st =
  (st, Normal (mkResult false (msg_download_failed ++ message e) None [])).
Proof.
  intros Hurl Hmark Hrej.
  unfold downloadSitemap, downloadSitemap_try. unfold_async.
  rewrite Hurl.
  destruct Hrej as [H1|[H1 [H2|[H2 H3]]]]; rewrite H1; trivial;
    rewrite Hmark; cbn [negb andb];
    rewrite (proj2 (strict_equals_true _ _) eq_refl); rewrite H2; trivial.
  rewrite H3. trivial.
Qed.

End Replay.

(** X5. The diff of a fetch can be asked again, and the throttle is per
    domain. After an attempt that fetched, on a domain whose [current]
    snapshot was non-empty, take a plain attempt at a later moment of
    the same day, at a URL of the same host (the same URL, or another
    sitemap of that host). It issues no request and changes nothing: a
    second sitemap of a host is not fetched that day. When its reads of
    the marker and of the two snapshots are not rejected, it succeeds
    and returns the new URLs that the fetch returned; when one of them
    is rejected, it fails. *)
Theorem downloadSitemap_replay (w : World) (url url2 : jsstring)
    (u u2 : URLRecord) (force : bool) (st st1 : Store) (r : DownloadResult)
    (key C0 : jsstring) (m : Moment) :
  URL_parse w url = Normal u ->
  URL_parse w url2 = Normal u2 ->
  hostname u2 = hostname u ->
  kv st !! currentKey (hostname u) = Some C0 ->
  C0 <> [] ->
  downloadSitemap w url force st = (st1, Normal r) ->
  datedFile r = Some key ->
  today (at_moment w m) = today w ->
  exists r2,
    downloadSitemap (at_moment w m) url2 false st1 = (st1, Normal r2) /\
    datedFile r2 = None /\
    (get_rejected m (lastUpdateKey (hostname u)) = None ->
     get_rejected m (currentKey (hostname u)) = None ->
     get_rejected m (latestKey (hostname u)) = None ->
     success r2 = true /\ newUrls r2 = newUrls r) /\
    (forall e,
       get_rejected m (lastUpdateKey (hostname u)) = Some e \/
       get_rejected m (lastUpdateKey (hostname u)) = None /\
       (get_rejected m (currentKey (hostname u)) = Some e \/
        get_rejected m (currentKey (hostname u)) = None /\
        get_rejected m (latestKey (hostname u)) = Some e) ->
       success r2 = false /\ newUrls r2 = []).
Proof.
  intros Hurl Hurl2 Hhost Hcur HC0 Hrun Hkey Hday.
  destruct C0 as [|c ct]; [congruence|].
  pose proof (downloadSitemap_dated_success _ _ _ _ _ _ _ Hrun Hkey) as Hs.
  apply downloadSitemap_run in Hrun as [[_ [[Hfail _]|Hthr]]|Hfetch].
  - congruence.
  - destruct Hthr as (_ & _ & _ & _ & Hnone). congruence.
  - destruct Hfetch as (u' & Hu' & _ & _ & _ & [[_ Hfail]|Hw]); [congruence|].
    rewrite Hurl in Hu'. injection Hu' as <-.
    destruct Hw as (response & newContent & n & Hf & Hc & _ & Hkv & Hr).
    cbv zeta in Hkv, Hr. destruct (Hr Hs) as [-> ->].
    rewrite firstn_all in Hkv.
    destruct (written_lookup (hostname u) (today w) newContent
                (kv st !! currentKey (hostname u)) (kv st))
      as (L1 & L2 & L3 & L4 & _).
    rewrite <- Hkv in L1, L2, L3, L4. rewrite Hcur in L4.
    rewrite <- Hhost in L1, L3, L4. rewrite <- Hday in L3.
    assert (Hurl2' : URL_parse (at_moment w m) url2 = Normal u2)
      by exact Hurl2.
    rewrite <- Hhost in Hcur |- *.
    destruct (get_rejected m (lastUpdateKey (hostname u2))) as [e1|] eqn:G1.
    { rewrite (downloadSitemap_throttled_rejected (at_moment w m) url2 u2
                 st1 e1 Hurl2' L3) by (left; exact G1).
      eexists. split; [reflexivity|]. split; [reflexivity|].
      split; [discriminate|]. intros e _. split; reflexivity. }
    destruct (get_rejected m (currentKey (hostname u2))) as [e2|] eqn:G2.
    { rewrite (downloadSitemap_throttled_rejected (at_moment w m) url2 u2
                 st1 e2 Hurl2' L3) by (right; split; [exact G1|left; exact G2]).
      eexists. split; [reflexivity|]. split; [reflexivity|].
      split; [discriminate|]. intros e _. split; reflexivity. }
    destruct (get_rejected m (latestKey (hostname u2))) as [e3|] eqn:G3.
    { rewrite (downloadSitemap_throttled_rejected (at_moment w m) url2 u2
                 st1 e3 Hurl2' L3)
        by (right; split; [exact G1|right; split; [exact G2|exact G3]]).
      eexists. split; [reflexivity|]. split; [reflexivity|].
      split; [discriminate|]. intros e _. split; reflexivity. }
    rewrite (downloadSitemap_throttled (at_moment w m) url2 u2 st1
               Hurl2' G1 G2 G3 L3).
    rewrite L1, L4. rewrite Hcur. cbn [fetch_newUrls newUrls].
    destruct newContent as [|b bt]; eexists;
      (split; [reflexivity|]); (split; [reflexivity|]);
      (split; [intros _ _ _; split; reflexivity|]);
      intros e [He|[_ [He|[_ He]]]]; discriminate.
Qed.

(** A witness of X5: after the second fetch of the example, the news
    sitemap of the same host is asked for later that day, when the site
    is down. *)
Lemma downloadSitemap_replay_witness :
  let st1 := store_of (downloadSitemap world_day3 ex_url false store_day1) in
  let w2 := at_moment world_day3 (mkMoment ex_now net_down no_fault no_fault) in
  exists r2,
    downloadSitemap w2 ex_url_news false st1 = (st1, Normal r2) /\
    success r2 = true /\
    newUrls r2 = [js "https://a.com/2"].
Proof.
  cbv zeta.
  set (run := downloadSitemap world_day3 ex_url false store_day1).
  assert (Hrun : run = (store_of run, Normal (result_of run)))
    by (vm_compute; reflexivity).
  destruct (downloadSitemap_replay world_day3 ex_url ex_url_news
              (mkURL ex_domain (js "/sitemap.xml"))
              (mkURL ex_domain (js "/news.xml")) false store_day1
              (store_of run) (result_of run)
              (datedKey ex_domain ex_today) ex_body1
              (mkMoment ex_now net_down no_fault no_fault))
    as (r2 & Hrun2 & _ & Hok & _).
  - reflexivity.
  - vm_compute. reflexivity.
  - reflexivity.
  - vm_compute. reflexivity.
  - discriminate.
  - exact Hrun.
  - vm_compute. reflexivity.
  - vm_compute. reflexivity.
  - destruct Hok as [Hs Hurls]; try reflexivity.
    exists r2. split; [exact Hrun2|]. split; [exact Hs|].
    rewrite Hurls. vm_compute. reflexivity.
Defined.

(** ** More on the registry *)

Section RegistryRuns.

(** [addFeed] in closed form, from the run of the attempt it makes. *)
Lemma addFeed_closed w url st st1 r :
  downloadSitemap w url false st = (st1, Normal r) ->
  addFeed w url st =
  match method_includes w (registry_view w st) url with
  | Throw e => (st, Normal (mkResult false (msg_add_failed ++ message e) None []))
  | Normal true =>
      (st1, Normal (if success r
                    then mkResult true msg_existing_updated
                           (datedFile r) (newUrls r)
                    else r))
  | Normal false =>
      if success r then
        match method_push w (registry_view w st) url with
        | Throw e =>
            (st1, Normal (mkResult false (msg_add_failed ++ message e) None []))
        | Normal feeds' =>
            match kv_put_fault w feedsKey with
            | Some e =>
                (st1, Normal (mkResult false (msg_add_failed ++ message e)
                                None []))
            | None =>
                (mkStore (<[feedsKey := JSON_stringify w feeds']> (kv st1))
                   (requests st1),
                 Normal (mkResult true
                           (if truthy (errorMsg r) then errorMsg r
                            else msg_added)
                           (datedFile r) (newUrls r)))
            end
        end
      else (st1, Normal r)
  end.
Proof.
  intros Hrun.
  unfold addFeed. unfold try_catch at 1. unfold bind at 1.
  rewrite getFeeds_closed. unfold bind at 1. unfold lift at 1.
  destruct (method_includes w (registry_view w st) url) as [e|[|]]; trivial.
  - cbn [negb]. unfold bind at 1. rewrite Hrun.
    destruct (success r) eqn:Hs; cbn [negb]; unfold ret; trivial.
  - cbn [negb]. unfold bind at 1. rewrite Hrun.
    destruct (success r) eqn:Hs; cbn [negb]; unfold ret; trivial.
    unfold bind at 1. unfold lift at 1.
    destruct (method_push w (registry_view w st) url); trivial.
    unfold bind at 1. unfold kv_put at 1.
    destruct (kv_put_fault w feedsKey); trivial.
Qed.

(** [removeFeed] in closed form. *)
Lemma removeFeed_closed w url st :
  removeFeed w url st =
  match method_includes w (registry_view w st) url with
  | Throw e => (st, Normal (mkRemoveResult false (msg_remove_failed ++ message e)))
  | Normal false => (st, Normal (mkRemoveResult false msg_not_subscribed))
  | Normal true =>
      match method_splice_indexOf w (registry_view w st) url with
      | Throw e =>
          (st, Normal (mkRemoveResult false (msg_remove_failed ++ message e)))
      | Normal feeds' =>
          match kv_put_fault w feedsKey with
          | Some e =>
              (st, Normal (mkRemoveResult false
                             (msg_remove_failed ++ message e)))
          | None =>
              (mkStore (<[feedsKey := JSON_stringify w feeds']> (kv st))
                 (requests st),
               Normal (mkRemoveResult true []))
          end
      end
  end.
Proof.
  unfold removeFeed. unfold try_catch at 1. unfold bind at 1.
  rewrite getFeeds_closed. unfold bind at 1. unfold lift at 1.
  destruct (method_includes w (registry_view w st) url) as [e|[|]]; trivial.
  cbn [negb]. unfold bind at 1. unfold lift at 1.
  destruct (method_splice_indexOf w (registry_view w st) url); trivial.
  unfold bind at 1. unfold kv_put at 1.
  destruct (kv_put_fault w feedsKey); trivial.
Qed.

(** The registry that is read back after a write of [feeds']. *)
Lemma registry_view_written w feeds' m reqs :
  kv_get_fault w feedsKey = None ->
  JSON_stringify w feeds' <> [] ->
  JSON_parse w (JSON_stringify w feeds') = Normal feeds' ->
  registry_view w (mkStore (<[feedsKey := JSON_stringify w feeds']> m) reqs)
  = feeds'.
Proof.
  intros Hg Hne Hparse. unfold registry_view. rewrite Hg. cbn [kv].
  rewrite lookup_insert_eq.
  destruct (JSON_stringify w feeds') as [|c t] eqn:Hs; [congruence|].
  rewrite Hparse. trivial.
Qed.

Lemma existsb_is_string_app items url v :
  existsb (fun x => is_string x url) (items ++ [v]) =
  existsb (fun x => is_string x url) items || is_string v url.
Proof. rewrite existsb_app. cbn. rewrite orb_false_r. trivial. Qed.

(** The first occurrence of a string in an array. *)
Lemma indexOf_first items url :
  existsb (fun v => is_string v url) items = true ->
  exists before after,
    items = before ++ JStr url :: after /\
    existsb (fun v => is_string v url) before = false /\
    indexOf items url = Some (length before) /\
    delete (length before) items = before ++ after.
Proof.
  induction items as [|v items IH]; cbn [existsb indexOf]; [discriminate|].
  destruct (is_string v url) eqn:Hv.
  - intros _. exists [], items.
    destruct v; try discriminate. cbn in Hv.
    apply bool_decide_eq_true in Hv. subst. auto.
  - cbn [orb]. intros H. destruct (IH H) as (before & after & -> & Hb & Hi & Hd).
    exists (v :: before), after.
    split; [reflexivity|]. split; [|split].
    + cbn [existsb]. rewrite Hv, Hb. trivial.
    + change ((v :: before) ++ JStr url :: after)
        with (v :: (before ++ JStr url :: after)).
      rewrite Hi. trivial.
    + change ((v :: before) ++ JStr url :: after)
        with (v :: (before ++ JStr url :: after)).
      cbn [length app].
      change (delete (S ?n) (v :: ?l)) with (v :: delete n l).
      rewrite Hd. trivial.
Qed.

End RegistryRuns.

(** X6. Adding a new source. When the registry reads as a list that does
    not hold [url], and [addFeed] succeeds, the registry read afterwards
    is that list with [url] appended at its end: [url] is now found in
    it, and so is every source that was found before. The platform is
    supposed to read back the JSON text it writes for the new list. *)
Theorem addFeed_registers (w : World) (url : jsstring) (st st2 : Store)
    (added : DownloadResult) (items : list jsvalue) :
  kv_get_fault w feedsKey = None ->
  getFeeds w st = (st, Normal (JArr items)) ->
  method_includes w (JArr items) url = Normal false ->
  JSON_stringify w (JArr (items ++ [JStr url])) <> [] ->
  JSON_parse w (JSON_stringify w (JArr (items ++ [JStr url])))
    = Normal (JArr (items ++ [JStr url])) ->
  addFeed w url st = (st2, Normal added) ->
  success added = true ->
  getFeeds w st2 = (st2, Normal (JArr (items ++ [JStr url]))) /\
  method_includes w (JArr (items ++ [JStr url])) url = Normal true /\
  (forall other,
     method_includes w (JArr items) other = Normal true ->
     method_includes w (JArr (items ++ [JStr url])) other = Normal true).
Proof.
  intros Hg Hfeeds Hinc Hne Hparse Hadd Hs.
  rewrite getFeeds_closed in Hfeeds. injection Hfeeds as Hview.
  destruct (downloadSitemap_total w url false st) as (st1 & r & Hrun).
  rewrite (addFeed_closed w url st st1 r Hrun), Hview, Hinc in Hadd.
  split; [|split].
  - destruct (success r) eqn:Hsr; [|injection Hadd as <- <-; congruence].
    cbn [method_push] in Hadd.
    destruct (kv_put_fault w feedsKey);
      injection Hadd as <- <-; [discriminate|].
    rewrite getFeeds_closed. f_equal. f_equal.
    apply registry_view_written; assumption.
  - cbn [method_includes]. rewrite existsb_is_string_app.
    cbn [is_string]. rewrite bool_decide_eq_true_2 by trivial.
    rewrite orb_true_r. trivial.
  - intros other. cbn [method_includes]. intros [= Ho].
    rewrite existsb_is_string_app, Ho. trivial.
Qed.

(** A witness of X6: the example source added to a registry that holds
    another one. *)
Lemma addFeed_registers_witness :
  let st := mkStore (<[feedsKey := [91; 34] ++ ex_url_b ++ [34; 93]]> ∅) [] in
  let st2 := store_of (addFeed world_day3 ex_url st) in
  getFeeds world_day3 st2
    = (st2, Normal (JArr ([JStr ex_url_b] ++ [JStr ex_url]))).
Proof.
  cbv zeta.
  set (st := mkStore (<[feedsKey := [91; 34] ++ ex_url_b ++ [34; 93]]> ∅) []).
  set (run := addFeed world_day3 ex_url st).
  assert (Hrun : run = (store_of run, Normal (result_of run)))
    by (vm_compute; reflexivity).
  destruct (addFeed_registers world_day3 ex_url st (store_of run)
              (result_of run) [JStr ex_url_b]) as (Hview & _).
  - reflexivity.
  - vm_compute. reflexivity.
  - vm_compute. reflexivity.
  - vm_compute. discriminate.
  - vm_compute. reflexivity.
  - exact Hrun.
  - vm_compute. reflexivity.
  - exact Hview.
Defined.

(** X7. When the registry is written. [addFeed] changes the stored
    registry only when it succeeds on a source that the registry, as it
    was read, did not hold; the text stored is then the registry as read
    with the source appended. For a source that is registered, and for
    every failure, the stored registry is left as it was. *)
Theorem addFeed_registry_write (w : World) (url : jsstring) (st st2 : Store)
    (added : DownloadResult) :
  addFeed w url st = (st2, Normal added) ->
  kv st2 !! feedsKey <> kv st !! feedsKey ->
  success added = true /\
  method_includes w (registry_view w st) url = Normal false /\
  exists feeds',
    method_push w (registry_view w st) url = Normal feeds' /\
    kv st2 !! feedsKey = Some (JSON_stringify w feeds').
Proof.
  intros Hadd Hchanged.
  destruct (downloadSitemap_total w url false st) as (st1 & r & Hrun).
  pose proof (downloadSitemap_keeps_registry _ _ _ _ _ _ Hrun) as Hkeep.
  rewrite (addFeed_closed w url st st1 r Hrun) in Hadd.
  destruct (method_includes w (registry_view w st) url) as [e|[|]].
  - injection Hadd as <- <-. congruence.
  - injection Hadd as <- <-. congruence.
  - destruct (success r); [|injection Hadd as <- <-; congruence].
    destruct (method_push w (registry_view w st) url) as [e|feeds'];
      [injection Hadd as <- <-; congruence|].
    destruct (kv_put_fault w feedsKey);
      injection Hadd as <- <-; [congruence|].
    cbn [kv success]. rewrite lookup_insert_eq. eauto.
Qed.

(** A witness of X7: the first addition of the example source. *)
Lemma addFeed_registry_write_witness :
  let st2 := store_of (addFeed world_day3 ex_url empty_store) in
  kv st2 !! feedsKey = Some ([91; 34] ++ ex_url ++ [34; 93]).
Proof.
  cbv zeta.
  set (run := addFeed world_day3 ex_url empty_store).
  assert (Hrun : run = (store_of run, Normal (result_of run)))
    by (vm_compute; reflexivity).
  destruct (addFeed_registry_write world_day3 ex_url empty_store
              (store_of run) (result_of run) Hrun)
    as (_ & _ & feeds' & Hpush & Hkv).
  - vm_compute. discriminate.
  - rewrite Hkv. vm_compute in Hpush. injection Hpush as <-.
    vm_compute. reflexivity.
Defined.

(** X8. A registry that cannot be read is replaced. When the read of the
    registry fails, or the stored text is not valid JSON, a successful
    [addFeed] stores the one-element list of the new source as the
    registry, whatever was stored before. *)
Theorem addFeed_unreadable_registry (w : World) (url : jsstring)
    (st st2 : Store) (added : DownloadResult) :
  (exists e, kv_get_fault w feedsKey = Some e) \/
  (exists json e, kv st !! feedsKey = Some json /\
                  JSON_parse w json = Throw e) ->
  addFeed w url st = (st2, Normal added) ->
  success added = true ->
  kv st2 !! feedsKey = Some (JSON_stringify w (JArr [JStr url])).
Proof.
  intros Hbad Hadd Hs.
  assert (Hview : registry_view w st = JArr []).
  { unfold registry_view. destruct Hbad as [[e ->]|(json & e & -> & Hp)]; trivial.
    destruct (kv_get_fault w feedsKey); trivial.
    destruct json; trivial. rewrite Hp. trivial. }
  destruct (downloadSitemap_total w url false st) as (st1 & r & Hrun).
  rewrite (addFeed_closed w url st st1 r Hrun), Hview in Hadd.
  cbn [method_includes existsb method_push app] in Hadd.
  destruct (success r) eqn:Hsr; [|injection Hadd as <- <-; congruence].
  destruct (kv_put_fault w feedsKey);
    injection Hadd as <- <-; [discriminate|].
  cbn [kv]. apply lookup_insert_eq.
Qed.

(** A witness of X8: a registry text cut short, that named another
    source. *)
Lemma addFeed_unreadable_registry_witness :
  let st2 := store_of (addFeed world_day3 ex_url store_registry_truncated) in
  kv store_registry_truncated !! feedsKey = Some ([91; 34] ++ ex_url_b) /\
  kv st2 !! feedsKey = Some ([91; 34] ++ ex_url ++ [34; 93]).
Proof.
  cbv zeta. split; [vm_compute; reflexivity|].
  set (run := addFeed world_day3 ex_url store_registry_truncated).
  assert (Hrun : run = (store_of run, Normal (result_of run)))
    by (vm_compute; reflexivity).
  rewrite (addFeed_unreadable_registry world_day3 ex_url
             store_registry_truncated (store_of run) (result_of run)).
  - vm_compute. reflexivity.
  - right. exists ([91; 34] ++ ex_url_b).
    eexists. split; vm_compute; reflexivity.
  - exact Hrun.
  - vm_compute. reflexivity.
Defined.

Section RemoveFacts.

Lemma indexOf_at_first before after url :
  existsb (fun v => is_string v url) before = false ->
  indexOf (before ++ JStr url :: after) url = Some (length before) /\
  delete (length before) (before ++ JStr url :: after) = before ++ after.
Proof.
  induction before as [|v before IH]; cbn [existsb].
  - intros _. cbn [app indexOf is_string].
    rewrite bool_decide_eq_true_2 by trivial. auto.
  - intros H. apply orb_false_iff in H as [Hv Hb].
    destruct (IH Hb) as [Hi Hd].
    change ((v :: before) ++ JStr url :: after)
      with (v :: (before ++ JStr url :: after)).
    cbn [indexOf length]. rewrite Hv, Hi. split; [reflexivity|].
    change (delete (S ?n) (v :: ?l)) with (v :: delete n l).
    rewrite Hd. trivial.
Qed.

End RemoveFacts.

(** X9. Removing a source. When the registry reads as a list in which
    [url] occurs, [removeFeed] succeeds (the write not being rejected),
    and the registry read afterwards is that list without the first
    occurrence of [url]; no request is issued, and no other key of the
    store changes, so the snapshots and the marker of the domain stay. If
    [url] occurred once, it is no longer found. The platform is supposed
    to read back the JSON text it writes for the shortened list. *)
Theorem removeFeed_removes (w : World) (url : jsstring) (st : Store)
    (before after : list jsvalue) :
  kv_get_fault w feedsKey = None ->
  kv_put_fault w feedsKey = None ->
  getFeeds w st = (st, Normal (JArr (before ++ JStr url :: after))) ->
  existsb (fun v => is_string v url) before = false ->
  JSON_stringify w (JArr (before ++ after)) <> [] ->
  JSON_parse w (JSON_stringify w (JArr (before ++ after)))
    = Normal (JArr (before ++ after)) ->
  exists st2,
    removeFeed w url st = (st2, Normal (mkRemoveResult true [])) /\
    getFeeds w st2 = (st2, Normal (JArr (before ++ after))) /\
    requests st2 = requests st /\
    (forall key, key <> feedsKey -> kv st2 !! key = kv st !! key) /\
    (existsb (fun v => is_string v url) after = false ->
     method_includes w (JArr (before ++ after)) url = Normal false).
Proof.
  intros Hg Hp Hfeeds Hbefore Hne Hparse.
  rewrite getFeeds_closed in Hfeeds. injection Hfeeds as Hview.
  destruct (indexOf_at_first before after url Hbefore) as [Hi Hd].
  rewrite removeFeed_closed, Hview.
  cbn [method_includes method_splice_indexOf].
  rewrite existsb_app. cbn [existsb is_string].
  rewrite bool_decide_eq_true_2 by trivial.
  rewrite orb_true_r. cbn [orb]. rewrite Hi, Hd, Hp.
  eexists. split; [reflexivity|]. split; [|split; [|split]].
  - rewrite getFeeds_closed. f_equal. f_equal.
    apply registry_view_written; assumption.
  - reflexivity.
  - intros key Hkey. cbn [kv]. apply lookup_insert_ne. congruence.
  - intros Hafter. rewrite existsb_app, Hbefore, Hafter. trivial.
Qed.

(** A witness of X9: the example source removed from a registry of two;
    its snapshot stays in the store. *)
Lemma removeFeed_removes_witness :
  let st := mkStore (<[currentKey ex_domain := ex_body1]> (kv store_two_sources)) [] in
  exists st2,
    removeFeed world_day3 ex_url st = (st2, Normal (mkRemoveResult true [])) /\
    getFeeds world_day3 st2 = (st2, Normal (JArr ([JStr ex_url_b] ++ []))) /\
    kv st2 !! currentKey ex_domain = Some ex_body1.
Proof.
  cbv zeta.
  set (st := mkStore (<[currentKey ex_domain := ex_body1]>
                        (kv store_two_sources)) []).
  destruct (removeFeed_removes world_day3 ex_url st [JStr ex_url_b] [])
    as (st2 & Hrun & Hview & _ & Hframe & _).
  - reflexivity.
  - reflexivity.
  - vm_compute. reflexivity.
  - vm_compute. reflexivity.
  - vm_compute. discriminate.
  - vm_compute. reflexivity.
  - exists st2. split; [exact Hrun|]. split; [exact Hview|].
    rewrite Hframe by discriminate. vm_compute. reflexivity.
Defined.

(** X10. Adding and removing. When the registry reads as a list that
    does not hold [url], take a successful [addFeed], and then a
    [removeFeed] at a later moment, with reads and writes of its own.
    When neither its read nor its write of the registry is rejected, the
    removal succeeds and the registry is stored, and read at any later
    moment whose read is not rejected, as the list of before, while
    every other key, so the snapshot of the domain that the attempt
    stored, stays. When its write is rejected the removal fails with the
    error's message, and when its read is rejected it answers that the
    source is not subscribed; in both cases the store is left as it is,
    with [url] in the registry. The platform is supposed to read back
    the JSON texts it writes for the two lists. *)
Theorem addFeed_then_removeFeed (w : World) (url : jsstring)
    (st st2 : Store) (added : DownloadResult) (items : list jsvalue)
    (m : Moment) :
  kv_get_fault w feedsKey = None ->
  getFeeds w st = (st, Normal (JArr items)) ->
  method_includes w (JArr items) url = Normal false ->
  JSON_stringify w (JArr (items ++ [JStr url])) <> [] ->
  JSON_parse w (JSON_stringify w (JArr (items ++ [JStr url])))
    = Normal (JArr (items ++ [JStr url])) ->
  JSON_stringify w (JArr items) <> [] ->
  JSON_parse w (JSON_stringify w (JArr items)) = Normal (JArr items) ->
  addFeed w url st = (st2, Normal added) ->
  success added = true ->
  kv st2 !! feedsKey = Some (JSON_stringify w (JArr (items ++ [JStr url]))) /\
  match get_rejected m feedsKey, put_rejected m feedsKey with
  | Some _, _ =>
      removeFeed (at_moment w m) url st2 =
      (st2, Normal (mkRemoveResult false msg_not_subscribed))
  | None, Some e =>
      removeFeed (at_moment w m) url st2 =
      (st2, Normal (mkRemoveResult false (msg_remove_failed ++ message e)))
  | None, None =>
      exists st3,
        removeFeed (at_moment w m) url st2 =
        (st3, Normal (mkRemoveResult true [])) /\
        kv st3 !! feedsKey = Some (JSON_stringify w (JArr items)) /\
        (forall m', get_rejected m' feedsKey = None ->
           getFeeds (at_moment w m') st3 = (st3, Normal (JArr items))) /\
        requests st3 = requests st2 /\
        (forall key, key <> feedsKey -> kv st3 !! key = kv st2 !! key)
  end.
Proof.
  intros Hg Hfeeds Hinc Hne1 Hparse1 Hne0 Hparse0 Hadd Hs.
  rewrite getFeeds_closed in Hfeeds. injection Hfeeds as Hview.
  destruct (downloadSitemap_total w url false st) as (st1 & r & Hrun).
  rewrite (addFeed_closed w url st st1 r Hrun), Hview, Hinc in Hadd.
  destruct (success r) eqn:Hsr; [|injection Hadd as <- <-; congruence].
  cbn [method_push] in Hadd.
  destruct (kv_put_fault w feedsKey) eqn:Hp;
    injection Hadd as <- <-; [discriminate|].
  split; [cbn [kv]; apply lookup_insert_eq|].
  cbn [method_includes] in Hinc. injection Hinc as Hinc.
  destruct (indexOf_at_first items [] url Hinc) as [Hi Hd].
  rewrite app_nil_r in Hd.
  rewrite removeFeed_closed.
  destruct (get_rejected m feedsKey) as [eg|] eqn:Hgm.
  - assert (Hview2 : registry_view (at_moment w m)
              (mkStore (<[feedsKey := JSON_stringify w (JArr (items ++ [JStr url]))]>
                          (kv st1)) (requests st1)) = JArr []).
    { unfold registry_view. cbn [at_moment kv_get_fault]. rewrite Hgm. trivial. }
    rewrite Hview2. reflexivity.
  - assert (Hview2 : registry_view (at_moment w m)
              (mkStore (<[feedsKey := JSON_stringify w (JArr (items ++ [JStr url]))]>
                          (kv st1)) (requests st1))
            = JArr (items ++ [JStr url])).
    { apply (registry_view_written (at_moment w m) (JArr (items ++ [JStr url])));
        assumption. }
    rewrite Hview2.
    cbn [method_includes method_splice_indexOf].
    rewrite existsb_is_string_app. cbn [is_string].
    rewrite bool_decide_eq_true_2 by trivial.
    rewrite orb_true_r. rewrite Hi, Hd.
    cbn [at_moment kv_put_fault JSON_stringify].
    destruct (put_rejected m feedsKey) as [ep|] eqn:Hpm; [reflexivity|].
    eexists. split; [reflexivity|]. split; [|split; [|split]].
    + cbn [kv]. apply lookup_insert_eq.
    + intros m' Hgm'. rewrite getFeeds_closed. f_equal. f_equal.
      apply (registry_view_written (at_moment w m') (JArr items)); assumption.
    + reflexivity.
    + intros key Hkey. cbn [kv]. apply lookup_insert_ne. congruence.
Qed.

(** A witness of X10: the example source added to an empty registry
    stored as [[]], then removed at a later moment. *)
Lemma addFeed_then_removeFeed_witness :
  let st := mkStore (<[feedsKey := js "[]"]> ∅) [] in
  let st2 := store_of (addFeed world_day3 ex_url st) in
  let later := mkMoment ex_now net_down no_fault no_fault in
  exists st3,
    removeFeed (at_moment world_day3 later) ex_url st2
      = (st3, Normal (mkRemoveResult true [])) /\
    getFeeds (at_moment world_day3 later) st3 = (st3, Normal (JArr [])) /\
    kv st3 !! currentKey ex_domain = Some ex_body2.
Proof.
  cbv zeta.
  set (st := mkStore (<[feedsKey := js "[]"]> ∅) []).
  set (run := addFeed world_day3 ex_url st).
  assert (Hrun : run = (store_of run, Normal (result_of run)))
    by (vm_compute; reflexivity).
  destruct (addFeed_then_removeFeed world_day3 ex_url st (store_of run)
              (result_of run) [] (mkMoment ex_now net_down no_fault no_fault))
    as (_ & st3 & Hrem & _ & Hview & _ & Hframe).
  - reflexivity.
  - vm_compute. reflexivity.
  - reflexivity.
  - vm_compute. discriminate.
  - vm_compute. reflexivity.
  - vm_compute. discriminate.
  - vm_compute. reflexivity.
  - exact Hrun.
  - vm_compute. reflexivity.
  - exists st3. split; [exact Hrem|]. split; [apply Hview; reflexivity|].
    rewrite Hframe by discriminate. vm_compute. reflexivity.
Defined.

(** ** The passes over the registered sources *)

Section Passes.

Lemma addFeed_total w url st :
  exists st' r, addFeed w url st = (st', Normal r).
Proof.
  destruct (downloadSitemap_total w url false st) as (st1 & r & Hrun).
  rewrite (addFeed_closed w url st st1 r Hrun).
  destruct (method_includes w (registry_view w st) url) as [e|[|]]; eauto.
  destruct (success r); eauto.
  destruct (method_push w (registry_view w st) url); eauto.
  destruct (kv_put_fault w feedsKey); eauto.
Qed.

(** A successful [addFeed] parsed its URL. *)
Lemma addFeed_success_parses w url st st' r :
  addFeed w url st = (st', Normal r) -> success r = true ->
  exists u, URL_parse w url = Normal u.
Proof.
  intros Hadd Hs.
  destruct (downloadSitemap_total w url false st) as (st1 & r1 & Hrun).
  assert (Hs1 : success r1 = true).
  { rewrite (addFeed_closed w url st st1 r1 Hrun) in Hadd.
    destruct (method_includes w (registry_view w st) url) as [e|[|]].
    - injection Hadd as <- <-. discriminate.
    - destruct (success r1) eqn:H1; trivial. injection Hadd as <- <-. congruence.
    - destruct (success r1) eqn:H1; trivial. injection Hadd as <- <-. congruence. }
  apply downloadSitemap_run in Hrun
    as [[_ [[Hf _]|(u & Hu & _)]]|(u & Hu & _)]; [congruence| |]; eauto.
Qed.

Lemma downloadSitemap_success_parses w url force st st' r :
  downloadSitemap w url force st = (st', Normal r) -> success r = true ->
  exists u, URL_parse w url = Normal u.
Proof.
  intros Hrun Hs.
  apply downloadSitemap_run in Hrun
    as [[_ [[Hf _]|(u & Hu & _)]]|(u & Hu & _)]; [congruence| |]; eauto.
Qed.

Lemma Map_has_elem_of {V} (m : list (jsstring * V)) k :
  Map_has m k = true <-> k ∈ fst <$> m.
Proof.
  unfold Map_has. induction m as [|[k0 v0] m IH]; cbn [existsb fst].
  - split; [discriminate|]. intros H. apply elem_of_nil in H. destruct H.
  - rewrite fmap_cons, elem_of_cons, orb_true_iff, IH, bool_decide_eq_true.
    cbn [fst]. intuition congruence.
Qed.

Lemma Map_update_keys {V} (f : V -> V) (m : list (jsstring * V)) k :
  fst <$> Map_update f m k = fst <$> m.
Proof.
  induction m as [|[k0 v0] m IH]; cbn [Map_update]; trivial.
  destruct (bool_decide (k0 = k)); rewrite !fmap_cons; cbn [fst]; congruence.
Qed.

Lemma Map_update_Forall {V} (f : V -> V) (m : list (jsstring * V)) k
    (P : jsstring * V -> Prop) :
  (forall k' v, P (k', v) -> P (k', f v)) ->
  Forall P m -> Forall P (Map_update f m k).
Proof.
  intros Hf. induction m as [|[k0 v0] m IH]; cbn [Map_update]; intros Hm.
  - constructor.
  - apply Forall_cons in Hm as [H0 Hm].
    destruct (bool_decide (k0 = k)); constructor; auto.
Qed.

Lemma Map_update_urls m k urls :
  k ∈ fst <$> m ->
  Permutation
    (concat ((fun entry => DomainResult.newUrls (snd entry))
               <$> Map_update (push_urls urls) m k))
    (concat ((fun entry => DomainResult.newUrls (snd entry)) <$> m) ++ urls).
Proof.
  induction m as [|[k0 v0] m IH]; cbn [Map_update].
  - intros H. apply elem_of_nil in H. destruct H.
  - rewrite fmap_cons. cbn [fst]. intros Hin.
    destruct (bool_decide (k0 = k)) eqn:Hk.
    + rewrite !fmap_cons. cbn [concat snd push_urls DomainResult.newUrls].
      rewrite <- !app_assoc. apply Permutation_app_head, Permutation_app_comm.
    + apply bool_decide_eq_false in Hk.
      apply elem_of_cons in Hin as [Hin|Hin]; [congruence|].
      rewrite !fmap_cons. cbn [concat snd].
      rewrite (IH Hin), app_assoc. reflexivity.
Qed.

Lemma group_by_domain_counts domain urls p :
  processedCount (group_by_domain domain urls p) = processedCount p /\
  errorCount (group_by_domain domain urls p) = errorCount p.
Proof.
  unfold group_by_domain. destruct (0 <? length urls)%nat; auto.
Qed.

Lemma group_by_domain_keys domain urls p :
  fst <$> domainResults (group_by_domain domain urls p) =
  if Map_has (domainResults p) domain then fst <$> domainResults p
  else (fst <$> domainResults p) ++ [domain].
Proof.
  unfold group_by_domain.
  destruct (0 <? length urls)%nat; cbn [domainResults];
    rewrite ?Map_update_keys;
    destruct (Map_has (domainResults p) domain); cbn [negb]; trivial;
    rewrite fmap_app; trivial.
Qed.

Lemma group_by_domain_grouped domain urls p :
  grouped p -> grouped (group_by_domain domain urls p).
Proof.
  intros (Hnd & Hall & Hperm).
  assert (Hkeys := group_by_domain_keys domain urls p).
  set (m1 := if negb (Map_has (domainResults p) domain)
             then domainResults p ++ [(domain, DomainResult.mk domain [] 0)]
             else domainResults p).
  assert (Hin1 : domain ∈ fst <$> m1).
  { subst m1. destruct (Map_has (domainResults p) domain) eqn:Hh; cbn [negb].
    - apply Map_has_elem_of. exact Hh.
    - rewrite fmap_app. apply elem_of_app. right. apply list_elem_of_here. }
  assert (Hall1 : Forall (fun entry =>
            DomainResult.domain (snd entry) = fst entry /\
            DomainResult.totalNew (snd entry)
              = length (DomainResult.newUrls (snd entry))) m1).
  { subst m1. destruct (Map_has (domainResults p) domain); cbn [negb]; trivial.
    apply Forall_app. split; trivial. repeat constructor. }
  assert (Hperm1 : Permutation (allNewUrls p)
            (concat ((fun entry => DomainResult.newUrls (snd entry)) <$> m1))).
  { subst m1. destruct (Map_has (domainResults p) domain); cbn [negb]; trivial.
    rewrite fmap_app, concat_app. cbn. rewrite !app_nil_r. exact Hperm. }
  split; [|split].
  - rewrite Hkeys. destruct (Map_has (domainResults p) domain) eqn:Hh; trivial.
    apply NoDup_app. repeat split; trivial.
    + intros x Hx Hx'. apply list_elem_of_singleton in Hx'. subst x.
      apply Map_has_elem_of in Hx. congruence.
    + apply NoDup_singleton.
  - unfold group_by_domain. fold m1.
    destruct (0 <? length urls)%nat; cbn [domainResults]; trivial.
    apply Map_update_Forall; trivial.
    intros k' v [H1 H2]. cbn [snd fst push_urls DomainResult.domain
      DomainResult.totalNew DomainResult.newUrls] in *.
    split; trivial. rewrite length_app. lia.
  - unfold group_by_domain. fold m1.
    destruct (0 <? length urls)%nat; cbn [domainResults allNewUrls]; trivial.
    rewrite (Map_update_urls m1 domain urls Hin1).
    apply Permutation_app_tail. exact Hperm1.
Qed.

Lemma grouped_counters p c e :
  grouped p -> grouped (mkPass (domainResults p) (allNewUrls p) c e).
Proof. trivial. Qed.

Lemma grouped_total p :
  grouped p ->
  length (allNewUrls p) =
  sum_list ((fun entry => DomainResult.totalNew (snd entry))
              <$> domainResults p).
Proof.
  intros (_ & Hall & Hperm). rewrite (Permutation_length Hperm). clear Hperm.
  induction Hall as [|[k v] m [_ Hv] Hall IH]; trivial.
  rewrite !fmap_cons. cbn [concat sum_list snd] in *.
  rewrite length_app, IH, Hv. trivial.
Qed.

Lemma turn_spec_group w url u urls p :
  URL_parse w url = Normal u ->
  turn_spec w url p (group_by_domain (hostname u) urls (processed p)).
Proof.
  intros Hu. unfold turn_spec.
  destruct (group_by_domain_counts (hostname u) urls (processed p)) as [-> ->].
  pose proof (group_by_domain_keys (hostname u) urls (processed p)) as Hk.
  cbn [processed processedCount errorCount domainResults] in *.
  split; [trivial|]. split; [lia|]. split; [|split].
  - intros Hg. apply group_by_domain_grouped. exact Hg.
  - intros k. rewrite Hk.
    destruct (Map_has (domainResults p) (hostname u)); auto.
    rewrite elem_of_app, list_elem_of_singleton. intros [H| ->]; eauto.
  - intros _ k. rewrite Hk.
    destruct (Map_has (domainResults p) (hostname u)); auto.
    rewrite elem_of_app. auto.
Qed.

Lemma turn_spec_failed w url p : turn_spec w url p (failed (processed p)).
Proof.
  unfold turn_spec. cbn [failed processed processedCount errorCount
    domainResults allNewUrls].
  split; [trivial|]. split; [lia|]. split; [trivial|]. split; auto.
Qed.

Lemma turn_spec_processed w url p : turn_spec w url p (processed p).
Proof.
  unfold turn_spec. cbn [failed processed processedCount errorCount
    domainResults allNewUrls].
  split; [trivial|]. split; [lia|]. split; [trivial|]. split; auto.
Qed.

Lemma performScheduledMonitoring_turn_run w url p st :
  exists st1 r,
    addFeed w url st = (st1, Normal r) /\
    exists p1,
      performScheduledMonitoring_turn w url p st = (st1, Normal p1) /\
      turn_spec w url p p1 /\
      (if success r then errorCount p1 = errorCount p
       else errorCount p1 = S (errorCount p)).
Proof.
  destruct (addFeed_total w url st) as (st1 & r & Hadd).
  exists st1, r. split; [exact Hadd|].
  unfold performScheduledMonitoring_turn. rewrite Hadd. cbv zeta.
  destruct (success r) eqn:Hs.
  - destruct (addFeed_success_parses _ _ _ _ _ Hadd Hs) as (u & Hu).
    rewrite Hu. eexists. split; [reflexivity|].
    split; [apply turn_spec_group; exact Hu|].
    apply (group_by_domain_counts (hostname u) (newUrls r) (processed p)).
  - eexists. split; [reflexivity|]. split; [apply turn_spec_failed|]. trivial.
Qed.

Lemma handleNewsCommand_turn_run w url p st :
  exists st1 r,
    downloadSitemap w url true st = (st1, Normal r) /\
    exists p1,
      handleNewsCommand_turn w url p st = (st1, Normal p1) /\
      turn_spec w url p p1 /\ errorCount p1 = errorCount p.
Proof.
  destruct (downloadSitemap_total w url true st) as (st1 & r & Hrun).
  exists st1, r. split; [exact Hrun|].
  unfold handleNewsCommand_turn. rewrite Hrun. cbv zeta.
  destruct (success r) eqn:Hs.
  - destruct (downloadSitemap_success_parses _ _ _ _ _ _ Hrun Hs) as (u & Hu).
    rewrite Hu. eexists. split; [reflexivity|].
    split; [apply turn_spec_group; exact Hu|].
    apply (group_by_domain_counts (hostname u) (newUrls r) (processed p)).
  - eexists. split; [reflexivity|]. split; [apply turn_spec_processed|]. trivial.
Qed.

(** The invariants of a loop whose turns meet [turn_spec]. *)
Lemma pass_loop_spec w turn feeds :
  (forall url p st, exists st1 p1,
     turn url p st = (st1, Normal p1) /\ turn_spec w url p p1) ->
  forall p st, exists st' p',
    pass_loop turn feeds p st = (st', Normal p') /\
    processedCount p' = (processedCount p + length feeds)%nat /\
    (errorCount p <= errorCount p' <= errorCount p + length feeds)%nat /\
    (grouped p -> grouped p') /\
    (forall k, k ∈ fst <$> domainResults p' ->
       k ∈ fst <$> domainResults p \/
       exists url u, url ∈ feeds /\ URL_parse w url = Normal u /\
                     hostname u = k).
Proof.
  intros Hturn. induction feeds as [|url feeds IH]; intros p st.
  - exists st, p. cbn [pass_loop length]. unfold ret.
    split; [trivial|]. split; [lia|]. split; [lia|]. split; auto.
  - destruct (Hturn url p st) as (st1 & p1 & Hrun & Hc & He & Hg & Hk & _).
    destruct (IH p1 st1) as (st' & p' & Hrun' & Hc' & He' & Hg' & Hk').
    exists st', p'. cbn [pass_loop]. unfold bind at 1. rewrite Hrun.
    split; [exact Hrun'|]. cbn [length].
    split; [lia|]. split; [lia|]. split; [auto|].
    intros k Hin. destruct (Hk' k Hin) as [Hin1|(url' & u & Hin' & Hu & Hh)].
    + destruct (Hk k Hin1) as [H0|(u & Hu & Hh)]; auto.
      right. exists url, u. split; [apply list_elem_of_here|auto].
    + right. exists url', u. split; [apply list_elem_of_further; trivial|auto].
Qed.

Lemma grouped_initial : grouped (mkPass [] [] 0 0).
Proof. repeat split; constructor. Qed.

End Passes.

Section PassEffects.

(** What [addFeed] does to the log of requests and to the registry. *)
Lemma addFeed_effects w url st st' r :
  addFeed w url st = (st', Normal r) ->
  (requests st' = requests st \/ requests st' = requests st ++ [url]) /\
  (method_includes w (registry_view w st) url = Normal true ->
   kv st' !! feedsKey = kv st !! feedsKey).
Proof.
  intros Hadd.
  destruct (downloadSitemap_total w url false st) as (st1 & r1 & Hrun).
  rewrite (addFeed_closed w url st st1 r1 Hrun) in Hadd.
  assert (Hreq : requests st1 = requests st \/
                 requests st1 = requests st ++ [url]).
  { pose proof Hrun as Hrun'.
    apply downloadSitemap_run in Hrun' as [[-> _]|(u & _ & _ & _ & Hq & _)];
      auto. }
  pose proof (downloadSitemap_keeps_registry _ _ _ _ _ _ Hrun) as Hkeep.
  destruct (method_includes w (registry_view w st) url) as [e|[|]].
  - injection Hadd as <- _. split; [auto|discriminate].
  - injection Hadd as <- _. split; auto.
  - split; [|discriminate].
    destruct (success r1); [|injection Hadd as <- _; trivial].
    destruct (method_push w (registry_view w st) url);
      [injection Hadd as <- _; trivial|].
    destruct (kv_put_fault w feedsKey); injection Hadd as <- _; trivial.
Qed.


(** The loop of the scheduled pass, when no error was counted. *)
Lemma performScheduledMonitoring_no_error w feeds :
  forall p st st' p',
    pass_loop (performScheduledMonitoring_turn w) feeds p st
      = (st', Normal p') ->
    errorCount p' = errorCount p ->
    (forall k, k ∈ fst <$> domainResults p -> k ∈ fst <$> domainResults p') /\
    forall url, url ∈ feeds ->
      exists u, URL_parse w url = Normal u /\
                hostname u ∈ fst <$> domainResults p'.
Proof.
  induction feeds as [|url feeds IH]; intros p st st' p' Hrun Herr.
  - injection Hrun as <- <-. split; [auto|].
    intros url Hin. apply elem_of_nil in Hin. destruct Hin.
  - cbn [pass_loop] in Hrun. unfold bind at 1 in Hrun.
    destruct (performScheduledMonitoring_turn_run w url p st)
      as (st1 & r & Hadd & p1 & Hturn & Hspec & Hr).
    rewrite Hturn in Hrun.
    destruct (pass_loop_spec w (performScheduledMonitoring_turn w) feeds)
      with (p := p1) (st := st1) as (st2 & p2 & Hrun2 & _ & He2 & _).
    { intros url0 p0 st0.
      destruct (performScheduledMonitoring_turn_run w url0 p0 st0)
        as (s & r0 & _ & q & Hq & Hs & _). eauto. }
    rewrite Hrun in Hrun2. injection Hrun2 as <- <-.
    destruct Hspec as (_ & He1 & _ & _ & Hkeep).
    assert (Heq1 : errorCount p1 = errorCount p) by lia.
    assert (Heq2 : errorCount p' = errorCount p1) by lia.
    destruct (IH p1 st1 st' p' Hrun Heq2) as [Hk Hall].
    split; [auto|].
    intros url' Hin. apply elem_of_cons in Hin as [->|Hin]; [|auto].
    destruct (success r) eqn:Hs; [|lia].
    destruct (addFeed_success_parses _ _ _ _ _ Hadd Hs) as (u & Hu).
    exists u. split; [exact Hu|]. apply Hk.
    revert Hturn. unfold performScheduledMonitoring_turn.
    rewrite Hadd, Hs, Hu. cbv zeta. intros [= <-].
    rewrite group_by_domain_keys.
    destruct (Map_has (domainResults (processed p)) (hostname u)) eqn:Hh.
    + apply Map_has_elem_of. exact Hh.
    + apply elem_of_app. right. apply list_elem_of_here.
Qed.

(** The world of a moment taken from the world itself. *)
Lemma at_moment_same w : at_moment w (moment_of w) = w.
Proof. destruct w. reflexivity. Qed.

(** With the same moment at every turn, the loop with moments is the
    loop in one world. *)
Lemma pass_loop_at_same turn w feeds :
  forall p st,
    pass_loop_at turn w (fun _ => moment_of w) feeds p st
    = pass_loop (turn w) feeds p st.
Proof.
  induction feeds as [|url feeds IH]; intros p st; trivial.
  cbn [pass_loop_at pass_loop]. unfold bind. rewrite at_moment_same.
  destruct (turn w url p st) as [st1 [e|p1]]; trivial.
Qed.

(** The registry as a turn reads it, when its read is not rejected. *)
Lemma registry_view_stored w m st text items :
  get_rejected m feedsKey = None ->
  kv st !! feedsKey = Some text ->
  text <> [] ->
  JSON_parse w text = Normal (JArr items) ->
  registry_view (at_moment w m) st = JArr items.
Proof.
  intros Hg Hk Hne Hp. unfold registry_view.
  cbn [at_moment kv_get_fault JSON_parse]. rewrite Hg, Hk.
  destruct text as [|c t]; [congruence|]. rewrite Hp. trivial.
Qed.

(** The loop of the scheduled pass, with a moment per turn: it ends,
    counts every source, and requests at most each source once. *)
Lemma performScheduledMonitoring_at_run w feeds :
  forall moments p st, exists st' p',
    pass_loop_at performScheduledMonitoring_turn w moments feeds p st
      = (st', Normal p') /\
    processedCount p' = (processedCount p + length feeds)%nat /\
    (errorCount p <= errorCount p')%nat /\
    exists fetched,
      requests st' = requests st ++ fetched /\ sublist fetched feeds.
Proof.
  induction feeds as [|url feeds IH]; intros moments p st.
  - exists st, p. cbn [pass_loop_at length]. unfold ret.
    split; [trivial|]. split; [lia|]. split; [lia|].
    exists []. rewrite app_nil_r. split; trivial.
  - destruct (performScheduledMonitoring_turn_run
                (at_moment w (moments 0%nat)) url p st)
      as (st1 & r & Hadd & p1 & Hturn & (Hc & He & _) & _).
    destruct (IH (fun i => moments (S i)) p1 st1)
      as (st' & p' & Hrun & Hc' & He' & fetched & Hq & Hsub).
    exists st', p'. cbn [pass_loop_at]. unfold bind at 1. rewrite Hturn.
    split; [exact Hrun|]. cbn [length].
    split; [lia|]. split; [lia|].
    destruct (addFeed_effects _ _ _ _ _ Hadd) as [[Hreq|Hreq] _];
      rewrite Hreq in Hq.
    + exists fetched. split; [exact Hq|]. apply sublist_cons. exact Hsub.
    + exists (url :: fetched). rewrite <- app_assoc in Hq.
      split; [exact Hq|]. apply sublist_skip. exact Hsub.
Qed.

(** Over registered sources, and with the registry read at every turn,
    the loop leaves the registry as it was. *)
Lemma performScheduledMonitoring_at_keeps_registry w text items feeds :
  text <> [] ->
  JSON_parse w text = Normal (JArr items) ->
  (forall url, url ∈ feeds -> JStr url ∈ items) ->
  forall moments p st st' p',
    kv st !! feedsKey = Some text ->
    (forall i, (i < length feeds)%nat ->
       get_rejected (moments i) feedsKey = None) ->
    pass_loop_at performScheduledMonitoring_turn w moments feeds p st
      = (st', Normal p') ->
    kv st' !! feedsKey = kv st !! feedsKey.
Proof.
  intros Hne Hparse.
  induction feeds as [|url feeds IH];
    intros Hreg moments p st st' p' Hk Hread Hrun.
  - injection Hrun as <- _. trivial.
  - cbn [pass_loop_at] in Hrun. unfold bind at 1 in Hrun.
    destruct (performScheduledMonitoring_turn_run
                (at_moment w (moments 0%nat)) url p st)
      as (st1 & r & Hadd & p1 & Hturn & _).
    rewrite Hturn in Hrun.
    assert (Hview : registry_view (at_moment w (moments 0%nat)) st
                    = JArr items).
    { apply (registry_view_stored w (moments 0%nat) st text items); trivial.
      apply Hread. cbn [length]. lia. }
    assert (Hinc : method_includes (at_moment w (moments 0%nat))
                     (registry_view (at_moment w (moments 0%nat)) st) url
                   = Normal true).
    { rewrite Hview. cbn [method_includes]. f_equal.
      apply existsb_exists. exists (JStr url). split.
      - apply list_elem_of_In, Hreg, list_elem_of_here.
      - cbn [is_string]. apply bool_decide_eq_true_2. trivial. }
    destruct (addFeed_effects _ _ _ _ _ Hadd) as [_ Hkeep].
    specialize (Hkeep Hinc). rewrite <- Hkeep.
    apply (IH (fun url' H => Hreg url' (list_elem_of_further _ _ _ H))
              (fun i => moments (S i)) p1 st1 st' p'); [| |exact Hrun].
    + rewrite Hkeep. exact Hk.
    + intros i Hi. apply Hread. cbn [length]. lia.
Qed.

End PassEffects.

(** X11. The report of the scheduled pass. The loop of
    [performScheduledMonitoring] ends normally for every list of sources.
    It counts every source as processed and at most every source as
    failed. Its grouping has one entry per domain, each naming its domain
    and counting its own URLs; [allNewUrls] holds the URLs of the entries,
    so its length is the sum of the [totalNew]. Every domain of the
    grouping is the host of a source of the list; when no error was
    counted, every source parses and its host has an entry. *)
Theorem performScheduledMonitoring_loop_report (w : World)
    (feeds : list jsstring) (st : Store) :
  exists st' p,
    performScheduledMonitoring_loop w feeds st = (st', Normal p) /\
    processedCount p = length feeds /\
    (errorCount p <= length feeds)%nat /\
    grouped p /\
    length (allNewUrls p) =
      sum_list ((fun entry => DomainResult.totalNew (snd entry))
                  <$> domainResults p) /\
    (forall k, k ∈ fst <$> domainResults p ->
       exists url u, url ∈ feeds /\ URL_parse w url = Normal u /\
                     hostname u = k) /\
    (errorCount p = 0%nat ->
     forall url, url ∈ feeds ->
       exists u, URL_parse w url = Normal u /\
                 hostname u ∈ fst <$> domainResults p).
Proof.
  unfold performScheduledMonitoring_loop.
  destruct (pass_loop_spec w (performScheduledMonitoring_turn w) feeds)
    with (p := mkPass [] [] 0 0) (st := st)
    as (st' & p & Hrun & Hc & He & Hg & Hk).
  { intros url0 p0 st0.
    destruct (performScheduledMonitoring_turn_run w url0 p0 st0)
      as (s & r0 & _ & q & Hq & Hs & _). eauto. }
  exists st', p. split; [exact Hrun|].
  cbn [processedCount errorCount domainResults] in *.
  split; [lia|]. split; [lia|].
  pose proof (Hg grouped_initial) as Hgp.
  split; [exact Hgp|]. split; [apply grouped_total; exact Hgp|]. split.
  - intros k Hin. destruct (Hk k Hin) as [H0|H1]; [|exact H1].
    apply elem_of_nil in H0. destruct H0.
  - intros H0. apply (performScheduledMonitoring_no_error _ _ _ _ _ _ Hrun).
    exact H0.
Qed.

(** X12. What the scheduled pass does to the store, each turn of the
    loop running at a moment of its own, with its own clock, network and
    rejected reads and writes. The loop ends normally and counts every
    source. Whatever the registry holds, its requests are a sub-sequence
    of the list: each turn issues at most one request, for its own
    source. When the registry is stored as a list that holds every
    source of the list, as it is when the list was read from it, and no
    turn has its read of the registry rejected, the loop leaves the
    registry as it was. *)
Theorem performScheduledMonitoring_loop_effects (w : World)
    (moments : nat -> Moment) (feeds : list jsstring) (st : Store) :
  exists st' p,
    performScheduledMonitoring_loop_at w moments feeds st = (st', Normal p) /\
    processedCount p = length feeds /\
    (exists fetched,
       requests st' = requests st ++ fetched /\ sublist fetched feeds) /\
    (forall text items,
       kv st !! feedsKey = Some text ->
       text <> [] ->
       JSON_parse w text = Normal (JArr items) ->
       (forall url, url ∈ feeds -> JStr url ∈ items) ->
       (forall i, (i < length feeds)%nat ->
          get_rejected (moments i) feedsKey = None) ->
       kv st' !! feedsKey = kv st !! feedsKey).
Proof.
  unfold performScheduledMonitoring_loop_at.
  destruct (performScheduledMonitoring_at_run w feeds moments
              (mkPass [] [] 0 0) st)
    as (st' & p & Hrun & Hc & _ & Hreq).
  exists st', p. split; [exact Hrun|]. split; [exact Hc|].
  split; [exact Hreq|].
  intros text items Hk Hne Hparse Hreg Hread.
  apply (performScheduledMonitoring_at_keeps_registry w text items feeds
           Hne Hparse Hreg moments _ st st' p Hk Hread Hrun).
Qed.


(** A witness of X12: the scheduled pass over the two sources of a
    registry; both are fetched, and the registry stays. *)
Lemma performScheduledMonitoring_loop_effects_witness :
  exists st' p,
    performScheduledMonitoring_loop_at world_day3 moments_day3
      [ex_url_b; ex_url] store_two_sources = (st', Normal p) /\
    processedCount p = 2%nat /\
    kv st' !! feedsKey = kv store_two_sources !! feedsKey.
Proof.
  destruct (performScheduledMonitoring_loop_effects world_day3 moments_day3
              [ex_url_b; ex_url] store_two_sources)
    as (st' & p & Hrun & Hc & _ & Hkeep).
  exists st', p. split; [exact Hrun|]. split; [exact Hc|].
  apply (Hkeep ([91; 34] ++ ex_url_b ++ [34; 44; 34] ++ ex_url ++ [34; 93])
               [JStr ex_url_b; JStr ex_url]).
  - vm_compute. reflexivity.
  - vm_compute. discriminate.
  - vm_compute. reflexivity.
  - intros url Hin. apply elem_of_cons in Hin as [->|Hin].
    + apply list_elem_of_here.
    + apply list_elem_of_singleton in Hin as ->.
      apply list_elem_of_further, list_elem_of_here.
  - intros i _. reflexivity.
Defined.

(** The condition on the reads of the registry is needed: when the first
    turn has its read rejected, [addFeed] takes the registry for empty
    and stores one that holds its source alone. *)
Example performScheduledMonitoring_loop_registry_lost :
  let run := performScheduledMonitoring_loop_at world_day3
               moments_registry_unreadable [ex_url; ex_url_b]
               store_two_sources in
  get_rejected (moments_registry_unreadable 0) feedsKey <> None /\
  kv (store_of run) !! feedsKey <> kv store_two_sources !! feedsKey /\
  errorCount (pass_of run) = 0%nat.
Proof.
  cbv zeta. split; [vm_compute; discriminate|].
  split; [vm_compute; discriminate|]. vm_compute. reflexivity.
Qed.

(** ** The statistics of the domains and the keywords of the Discord bot *)

Section FirstOccurrences.

Lemma filter_filter_comm {A} (f g : A -> bool) (l : list A) :
  List.filter f (List.filter g l) = List.filter g (List.filter f l).
Proof.
  induction l as [|a l IH]; cbn [List.filter]; trivial.
  destruct (f a) eqn:Hf; destruct (g a) eqn:Hg; cbn [List.filter];
    rewrite ?Hf, ?Hg, IH; trivial.
Qed.

Lemma filter_ext_in_list {A} (f g : A -> bool) (l : list A) :
  (forall a, In a l -> f a = g a) -> List.filter f l = List.filter g l.
Proof.
  induction l as [|a l IH]; intros H; cbn [List.filter]; trivial.
  rewrite (H a (or_introl eq_refl)), IH; trivial.
  intros b Hb. apply H. right. exact Hb.
Qed.

Lemma first_occurrences_filter (P : jsstring -> bool) l :
  first_occurrences (List.filter P l) = List.filter P (first_occurrences l).
Proof.
  induction l as [|x l IH]; trivial.
  cbn [List.filter first_occurrences].
  destruct (P x) eqn:Hx; cbn [first_occurrences List.filter]; rewrite ?Hx, IH.
  - f_equal. apply filter_filter_comm.
  - rewrite filter_filter_comm. symmetry. apply filter_all.
    intros a Ha. apply List.filter_In in Ha as [_ Ha].
    apply negb_true_iff, bool_decide_eq_false. congruence.
Qed.

Lemma first_occurrences_In l x : In x (first_occurrences l) <-> In x l.
Proof.
  induction l as [|y l IH]; cbn [first_occurrences]; [tauto|].
  cbn [In]. rewrite List.filter_In, IH, negb_true_iff, bool_decide_eq_false.
  destruct (jsstring_eq_dec y x); intuition congruence.
Qed.

Lemma NoDup_filter_list {A} (f : A -> bool) (l : list A) :
  List.NoDup l -> List.NoDup (List.filter f l).
Proof.
  induction 1 as [|a l Ha Hl IH]; cbn [List.filter]; [constructor|].
  destruct (f a); trivial. constructor; trivial.
  rewrite List.filter_In. tauto.
Qed.

Lemma first_occurrences_NoDup l : List.NoDup (first_occurrences l).
Proof.
  induction l as [|x l IH]; cbn [first_occurrences]; constructor.
  - rewrite List.filter_In, negb_true_iff, bool_decide_eq_false. tauto.
  - apply NoDup_filter_list, IH.
Qed.

(** A [Set] filled in a loop holds the first occurrences. *)
Lemma fold_Set_add l keywords :
  fold_left Discord.Set_add l keywords =
  keywords ++
  first_occurrences (List.filter (fun y => negb (includes keywords y)) l).
Proof.
  revert keywords. induction l as [|x l IH]; intros keywords.
  - cbn. rewrite app_nil_r. trivial.
  - cbn [fold_left List.filter]. unfold Discord.Set_add at 2.
    destruct (includes keywords x) eqn:Hx; cbn [negb].
    + apply IH.
    + rewrite IH. cbn [first_occurrences]. rewrite <- app_assoc. cbn [app].
      f_equal. f_equal. rewrite <- first_occurrences_filter.
      f_equal. clear. induction l as [|a l IHl]; cbn [List.filter]; trivial.
      unfold includes in *. rewrite existsb_app. cbn [existsb].
      rewrite orb_false_r, negb_orb.
      rewrite (bool_decide_ext (x = a) (a = x)) by (split; congruence).
      destruct (negb (existsb _ keywords)) eqn:H1; cbn [andb List.filter].
      * destruct (negb (bool_decide (a = x))); rewrite IHl; trivial.
      * exact IHl.
Qed.

(** The keys of a [Map] of counts filled in a loop, likewise. *)
Lemma fold_add_keyword_keys ks :
  fst <$> fold_left add_keyword ks [] = first_occurrences ks.
Proof.
  assert (H : forall m,
            fst <$> fold_left add_keyword ks m =
            fold_left Discord.Set_add ks (fst <$> m)).
  { induction ks as [|k ks IH]; intros m; trivial.
    cbn [fold_left]. rewrite IH. f_equal.
    unfold add_keyword. rewrite Map_set_keys. unfold Discord.Set_add.
    destruct (decide (k ∈ fst <$> m)) as [Hin|Hout].
    - rewrite (proj2 (includes_In _ _)); trivial.
      apply list_elem_of_In. exact Hin.
    - rewrite (proj2 (includes_false _ _)); trivial.
      rewrite <- list_elem_of_In. exact Hout. }
  rewrite H, fold_Set_add. cbn [fmap list_fmap app].
  f_equal. apply filter_all. trivial.
Qed.

End FirstOccurrences.

Section SortDesc.

Context {A : Type} (count : A -> nat).

Lemma sort_insert_desc_perm a l :
  Permutation (sort_insert_desc count a l) (a :: l).
Proof.
  induction l as [|b l IH]; cbn [sort_insert_desc]; trivial.
  destruct (count b <=? count a)%nat; trivial.
  rewrite IH. apply perm_swap.
Qed.

Lemma sort_desc_perm l : Permutation (sort_desc count l) l.
Proof.
  induction l as [|a l IH]; cbn; trivial.
  rewrite sort_insert_desc_perm. constructor. exact IH.
Qed.

Lemma sort_insert_desc_sorted a l :
  StronglySorted (fun x y => (count y <= count x)%nat) l ->
  StronglySorted (fun x y => (count y <= count x)%nat)
    (sort_insert_desc count a l).
Proof.
  induction l as [|b l IH]; cbn [sort_insert_desc]; intros Hs.
  - repeat constructor.
  - apply StronglySorted_inv in Hs as [Hs Hb].
    destruct (Nat.leb_spec (count b) (count a)) as [Hle|Hgt].
    + constructor; [constructor; trivial|].
      constructor; [exact Hle|].
      rewrite List.Forall_forall in *. intros x Hx.
      specialize (Hb x Hx). cbv beta in *. lia.
    + constructor; [apply IH; exact Hs|].
      rewrite List.Forall_forall in *. intros x Hx.
      apply (Permutation_in _ (sort_insert_desc_perm a l)) in Hx.
      destruct Hx as [<-|Hx]; [lia|auto].
Qed.

Lemma sort_desc_sorted l :
  StronglySorted (fun x y => (count y <= count x)%nat) (sort_desc count l).
Proof.
  induction l as [|a l IH]; cbn.
  - constructor.
  - apply sort_insert_desc_sorted, IH.
Qed.

(** The sort is stable: the records of one count keep their order. *)
Lemma sort_insert_desc_stable c a l :
  List.filter (fun x => count x =? c)%nat (sort_insert_desc count a l) =
  List.filter (fun x => count x =? c)%nat (a :: l).
Proof.
  induction l as [|b l IH]; cbn [sort_insert_desc]; trivial.
  destruct (Nat.leb_spec (count b) (count a)) as [Hle|Hgt]; trivial.
  cbn [List.filter] in *. rewrite IH.
  destruct (Nat.eqb_spec (count b) c) as [Hb|Hb];
    destruct (Nat.eqb_spec (count a) c) as [Ha|Ha]; trivial.
  lia.
Qed.

Lemma sort_desc_stable c l :
  List.filter (fun x => count x =? c)%nat (sort_desc count l) =
  List.filter (fun x => count x =? c)%nat l.
Proof.
  induction l as [|a l IH]; trivial.
  cbn [sort_desc foldr]. rewrite sort_insert_desc_stable.
  cbn [List.filter]. fold (sort_desc count l). rewrite IH. trivial.
Qed.

End SortDesc.

Section Tally.

Lemma sort_by_count_desc l : sort_by_count l = sort_desc count l.
Proof.
  induction l as [|a l IH]; trivial.
  cbn [sort_by_count sort_desc foldr].
  fold (sort_by_count l). fold (sort_desc count l). rewrite IH.
  generalize (sort_desc count l). clear. intros m.
  induction m as [|b m IHm]; cbn [sort_insert sort_insert_desc]; trivial.
  rewrite IHm. trivial.
Qed.

(** The map of counts after the loops, in closed form. *)
Lemma tally_closed ks :
  fold_left add_keyword ks [] =
  (fun k => (k, count_occ jsstring_eq_dec ks k)) <$> first_occurrences ks.
Proof.
  pose proof (fold_add_keyword_keys ks) as Hkeys.
  pose proof (fun k c => proj1 (tally_entries ks k c)) as Hval.
  revert Hkeys Hval.
  generalize (first_occurrences ks). generalize (fold_left add_keyword ks []).
  intros m. induction m as [|[k c] m IH]; intros [|k' l'] Hkeys Hval;
    try discriminate; trivial.
  rewrite fmap_cons in Hkeys. cbn [fst] in Hkeys. injection Hkeys as <- Hkeys.
  rewrite fmap_cons. f_equal.
  - f_equal. apply Hval. left. trivial.
  - apply IH; trivial. intros k0 c0 Hin. apply Hval. right. exact Hin.
Qed.

Lemma add_keyword_sum m k :
  sum_list (snd <$> add_keyword m k) = S (sum_list (snd <$> m)).
Proof.
  unfold add_keyword. induction m as [|[k0 v0] m IH]; trivial.
  cbn [Map_set Map_get].
  destruct (bool_decide (k0 = k)).
  - rewrite !fmap_cons. cbn [sum_list snd from_option id default]. lia.
  - rewrite !fmap_cons. cbn [sum_list snd]. rewrite IH. lia.
Qed.

Lemma fold_add_keyword_sum ks m :
  sum_list (snd <$> fold_left add_keyword ks m) =
  (sum_list (snd <$> m) + length ks)%nat.
Proof.
  revert m. induction ks as [|k ks IH]; intros m; cbn [fold_left length].
  - lia.
  - rewrite IH, add_keyword_sum. lia.
Qed.

Lemma fold_count_domain w urls m :
  fold_left (count_domain w) urls m =
  fold_left add_keyword (url_domains w urls) m.
Proof.
  revert m. induction urls as [|url urls IH]; intros m; trivial.
  cbn [fold_left url_domains flat_map]. rewrite fold_left_app, IH.
  f_equal. unfold count_domain.
  destruct (URL_parse w url) as [e|urlObj]; trivial.
Qed.

Lemma url_domains_skip w urls1 url urls2 e :
  URL_parse w url = Throw e ->
  url_domains w (urls1 ++ url :: urls2) = url_domains w (urls1 ++ urls2).
Proof.
  intros He. unfold url_domains. rewrite !flat_map_app. cbn [flat_map].
  rewrite He. trivial.
Qed.

End Tally.

(** X14. The distribution over the domains. [extractDomainStats] gives
    one record for each host of a URL of the list that parses, with the
    number of those URLs, in the order of non-increasing counts; hosts
    with the same count stand in the order in which they occur first in
    the list. The counts add up to the number of URLs that parse, and a
    URL that does not parse changes nothing. *)
Theorem extractDomainStats_spec (w : World) (urls : list jsstring) :
  let stats := extractDomainStats w urls in
  let ds := url_domains w urls in
  StronglySorted by_domain_count_desc stats /\
  List.NoDup (DomainStat.domain <$> stats) /\
  (forall d c, In (DomainStat.mk d c) stats <->
               c = count_occ jsstring_eq_dec ds d /\ (0 < c)%nat) /\
  (forall c,
     DomainStat.domain <$>
       List.filter (fun s => DomainStat.count s =? c)%nat stats =
     List.filter (fun d => count_occ jsstring_eq_dec ds d =? c)%nat
       (first_occurrences ds)) /\
  sum_list (DomainStat.count <$> stats) = length ds /\
  (forall urls1 url urls2 e,
     urls = urls1 ++ url :: urls2 -> URL_parse w url = Throw e ->
     extractDomainStats w (urls1 ++ urls2) = stats).
Proof.
  cbv zeta.
  set (ds := url_domains w urls).
  set (entries := (fun d => DomainStat.mk d (count_occ jsstring_eq_dec ds d))
                    <$> first_occurrences ds).
  assert (Hstats : extractDomainStats w urls = sort_desc DomainStat.count entries).
  { unfold extractDomainStats. rewrite fold_count_domain. fold ds.
    rewrite tally_closed. unfold entries. rewrite <- list_fmap_compose.
    reflexivity. }
  pose proof (sort_desc_perm DomainStat.count entries) as Hperm.
  rewrite Hstats.
  split; [apply (sort_desc_sorted DomainStat.count)|].
  split.
  { apply NoDup_ListNoDup. rewrite Hperm. unfold entries.
    rewrite <- list_fmap_compose.
    replace ((DomainStat.domain
                ∘ (fun d => DomainStat.mk d (count_occ jsstring_eq_dec ds d)))
               <$> first_occurrences ds)
      with (first_occurrences ds).
    - apply NoDup_ListNoDup, first_occurrences_NoDup.
    - generalize (first_occurrences ds). intros l.
      induction l as [|d l IH]; trivial.
      rewrite fmap_cons, <- IH. trivial. }
  split.
  { intros d c.
    assert (Hin : In (DomainStat.mk d c) entries <->
                  c = count_occ jsstring_eq_dec ds d /\ (0 < c)%nat).
    { unfold entries. rewrite <- list_elem_of_In, list_elem_of_fmap. split.
      - intros (d' & [= -> ->] & Hd). split; trivial.
        rewrite list_elem_of_In, first_occurrences_In in Hd.
        apply (count_occ_In jsstring_eq_dec) in Hd. lia.
      - intros [-> Hc]. exists d. split; trivial.
        rewrite list_elem_of_In, first_occurrences_In.
        apply (count_occ_In jsstring_eq_dec). lia. }
    rewrite <- Hin. split; apply Permutation_in; [|symmetry]; exact Hperm. }
  split.
  { intros c. rewrite (sort_desc_stable DomainStat.count). unfold entries.
    generalize (first_occurrences ds). clear. intros l.
    induction l as [|d l IH]; trivial.
    rewrite fmap_cons. cbn [List.filter DomainStat.count].
    destruct (count_occ jsstring_eq_dec ds d =? c)%nat;
      rewrite ?fmap_cons, IH; trivial. }
  split.
  { rewrite Hperm. unfold entries. rewrite <- list_fmap_compose.
    pose proof (fold_add_keyword_sum ds []) as Hsum.
    rewrite tally_closed, <- list_fmap_compose in Hsum. exact Hsum. }
  intros urls1 url urls2 e Hurls He.
  unfold extractDomainStats. rewrite !fold_count_domain.
  rewrite <- (url_domains_skip w urls1 url urls2 e He), <- Hurls.
  fold ds. rewrite tally_closed, <- list_fmap_compose. reflexivity.
Qed.

Section DiscordKeywords.

Lemma fold_add_segment segments keywords :
  fold_left Discord.add_segment segments keywords =
  fold_left Discord.Set_add
    (List.filter
       (fun segment =>
          (3 <? length segment)%nat && negb (existsb (N.eqb 45) segment))
       segments)
    keywords.
Proof.
  revert keywords. induction segments as [|s segments IH]; intros keywords;
    trivial.
  cbn [fold_left List.filter]. unfold Discord.add_segment at 2.
  destruct ((3 <? length s)%nat && negb (existsb (N.eqb 45) s));
    cbn [fold_left]; apply IH.
Qed.

Lemma add_url_segments w keywords url :
  Discord.add_url w keywords url =
  fold_left Discord.Set_add (Discord.url_segments w url) keywords.
Proof.
  unfold Discord.add_url, Discord.url_segments.
  destruct (URL_parse w url) as [e|urlObj]; trivial.
  cbv zeta. rewrite fold_add_segment. f_equal.
  generalize (split 47 (pathname urlObj)). intros l.
  induction l as [|s l IH]; trivial.
  cbn [List.filter].
  destruct (Nat.ltb_spec 2 (length s)) as [H2|H2]; cbn [List.filter].
  - rewrite IH. trivial.
  - rewrite IH.
    destruct (Nat.ltb_spec 3 (length s)) as [H3|H3]; [lia|]. trivial.
Qed.

Lemma fold_add_url w urls keywords :
  fold_left (Discord.add_url w) urls keywords =
  fold_left Discord.Set_add (flat_map (Discord.url_segments w) urls) keywords.
Proof.
  revert keywords. induction urls as [|url urls IH]; intros keywords; trivial.
  cbn [fold_left flat_map]. rewrite fold_left_app, <- add_url_segments.
  apply IH.
Qed.

Lemma In_take {A} (x : A) n l : In x (take n l) -> In x l.
Proof.
  intros H. rewrite <- (take_drop n l). apply in_or_app. left. exact H.
Qed.

Lemma NoDup_take_list {A} n (l : list A) :
  List.NoDup l -> List.NoDup (take n l).
Proof.
  intros H. apply NoDup_ListNoDup. apply NoDup_ListNoDup in H.
  apply (sublist_NoDup _ l); trivial. apply sublist_take.
Qed.

End DiscordKeywords.

(** X15. The keywords of the Discord bot. [extractKeywords] of
    discord-bot.ts returns the first ten of the distinct path segments
    (split on [/]) of the URLs that parse which are longer than three
    characters and hold no hyphen, each standing where it is met first.
    The segments are taken as they are: no case folding, and no test on
    digits, dots or stopwords. A URL that does not parse is skipped. *)
Theorem Discord_extractKeywords_spec (w : World) (urls : list jsstring) :
  let keywords := Discord.extractKeywords w urls in
  let segments := flat_map (Discord.url_segments w) urls in
  keywords = take 10 (first_occurrences segments) /\
  (length keywords <= 10)%nat /\
  List.NoDup keywords /\
  (forall k, In k keywords ->
     exists url urlObj,
       In url urls /\ URL_parse w url = Normal urlObj /\
       In k (split 47 (pathname urlObj)) /\
       (3 < length k)%nat /\ ~ In 45 k) /\
  ((length (first_occurrences segments) <= 10)%nat ->
   forall url urlObj k,
     In url urls -> URL_parse w url = Normal urlObj ->
     In k (split 47 (pathname urlObj)) ->
     (3 < length k)%nat -> ~ In 45 k -> In k keywords).
Proof.
  cbv zeta.
  assert (Hclosed : Discord.extractKeywords w urls =
            take 10 (first_occurrences (flat_map (Discord.url_segments w) urls))).
  { unfold Discord.extractKeywords. rewrite fold_add_url, fold_Set_add.
    cbn [app]. do 2 f_equal. apply filter_all. trivial. }
  assert (Hseg : forall k,
            In k (flat_map (Discord.url_segments w) urls) <->
            exists url urlObj,
              In url urls /\ URL_parse w url = Normal urlObj /\
              In k (split 47 (pathname urlObj)) /\
              (3 < length k)%nat /\ ~ In 45 k).
  { intros k. rewrite in_flat_map. unfold Discord.url_segments. split.
    - intros (url & Hurl & Hk).
      destruct (URL_parse w url) as [e|urlObj] eqn:Hp; [destruct Hk|].
      apply List.filter_In in Hk as [Hk Hc].
      apply andb_true_iff in Hc as [H3 H45].
      apply Nat.ltb_lt in H3. apply negb_true_iff in H45.
      exists url, urlObj. repeat split; trivial.
      intros Hin. apply not_true_iff_false in H45. apply H45.
      apply existsb_exists. exists 45. split; trivial.
    - intros (url & urlObj & Hurl & Hp & Hk & H3 & H45).
      exists url. split; trivial. rewrite Hp.
      apply List.filter_In. split; trivial.
      apply andb_true_iff. split; [apply Nat.ltb_lt; trivial|].
      apply negb_true_iff, not_true_iff_false. intros Hex.
      apply existsb_exists in Hex as (c & Hc & Heq).
      apply N.eqb_eq in Heq. subst c. tauto. }
  rewrite Hclosed.
  split; [trivial|]. split; [rewrite length_take; lia|].
  split; [apply NoDup_take_list, first_occurrences_NoDup|].
  split.
  - intros k Hk. apply In_take in Hk. rewrite first_occurrences_In in Hk.
    apply Hseg. exact Hk.
  - intros Hlen url urlObj k Hurl Hp Hk H3 H45.
    rewrite take_ge by exact Hlen.
    rewrite first_occurrences_In. apply Hseg. eauto 10.
Qed.

(** X16. The ranking of the keywords, ties included. The result of
    [extractKeywordsWithCount] is the first ten of a ranking that holds
    each keyword with the number of its occurrences, in the order of
    non-increasing counts, the keywords of one count standing in the
    order in which they are met first: the [Map] keeps the order of
    insertion and the sort is stable. [extractKeywords] of
    telegram-bot.ts returns the keywords of that result, which are
    distinct and at most ten. *)
Theorem extractKeywords_ranking (w : World) (urls : list jsstring) :
  let ks := all_keywords w urls in
  let ranked :=
    sort_by_count
      ((fun k => mkStat k (count_occ jsstring_eq_dec ks k))
         <$> first_occurrences ks) in
  extractKeywordsWithCount w urls = take 10 ranked /\
  extractKeywords w urls = take 10 (keyword <$> ranked) /\
  StronglySorted by_count_desc ranked /\
  (forall c,
     keyword <$> List.filter (fun s => count s =? c)%nat ranked =
     List.filter (fun k => count_occ jsstring_eq_dec ks k =? c)%nat
       (first_occurrences ks)) /\
  Permutation (keyword <$> ranked) (first_occurrences ks) /\
  List.NoDup (extractKeywords w urls) /\
  (length (extractKeywords w urls) <= 10)%nat.
Proof.
  cbv zeta.
  set (ks := all_keywords w urls).
  set (entries := (fun k => mkStat k (count_occ jsstring_eq_dec ks k))
                    <$> first_occurrences ks).
  assert (Hstats : extractKeywordsWithCount w urls
                   = take 10 (sort_by_count entries)).
  { unfold extractKeywordsWithCount. rewrite fold_count_url. fold ks.
    rewrite tally_closed. unfold entries. rewrite <- list_fmap_compose.
    reflexivity. }
  assert (Hkeys : keyword <$> entries = first_occurrences ks).
  { unfold entries. generalize (first_occurrences ks). intros l.
    induction l as [|k l IH]; trivial.
    rewrite !fmap_cons, IH. trivial. }
  assert (Hperm : Permutation (keyword <$> sort_by_count entries)
                    (first_occurrences ks)).
  { rewrite <- Hkeys. apply fmap_Permutation, sort_by_count_perm. }
  assert (Hkw : extractKeywords w urls
                = take 10 (keyword <$> sort_by_count entries)).
  { unfold extractKeywords. rewrite Hstats, fmap_take. trivial. }
  split; [exact Hstats|]. split; [exact Hkw|].
  split; [apply sort_by_count_sorted|].
  split.
  { intros c. rewrite sort_by_count_desc, (sort_desc_stable count).
    unfold entries. generalize (first_occurrences ks). intros l.
    induction l as [|k l IH]; trivial.
    rewrite fmap_cons. cbn [List.filter count].
    destruct (count_occ jsstring_eq_dec ks k =? c)%nat;
      rewrite ?fmap_cons, IH; trivial. }
  split; [exact Hperm|].
  rewrite Hkw. split; [|rewrite length_take; lia].
  apply NoDup_take_list, NoDup_ListNoDup. rewrite Hperm.
  apply NoDup_ListNoDup, first_occurrences_NoDup.
Qed.

(** ** [isValidSitemap] *)

Section ValidFacts.

Lemma agree_refl o : agree o o.
Proof. destruct o; cbn; auto. Qed.

Lemma RepeatMatcher_agree m greedy input e cap cap' c c' :
  (forall r e1 cap1 cap1',
     agree (c (mkState r e1 cap1)) (c' (mkState r e1 cap1'))) ->
  agree (RepeatMatcher m greedy input e cap c)
        (RepeatMatcher m greedy input e cap' c').
Proof.
  intros Hc. revert e. induction input as [|a t IH]; intros e;
    cbn [RepeatMatcher]; [apply Hc|].
  destruct (m a); [|apply Hc].
  destruct greedy.
  - specialize (IH (S e)).
    destruct (RepeatMatcher m true t (S e) cap c),
             (RepeatMatcher m true t (S e) cap' c'); cbn in IH;
      solve [exact IH | destruct IH | apply Hc].
  - specialize (Hc (a :: t) e cap cap').
    destruct (c (mkState (a :: t) e cap)), (c' (mkState (a :: t) e cap'));
      cbn in Hc; solve [exact Hc | destruct Hc | apply IH].
Qed.

(** Capture groups do not change where a pattern matches. *)
Lemma CompilePattern_agree i p :
  forall x x' c c',
    rest x = rest x' -> endIndex x = endIndex x' ->
    (forall y y', rest y = rest y' -> endIndex y = endIndex y' ->
                  agree (c y) (c' y')) ->
    agree (CompilePattern i p x c) (CompilePattern i (erase_groups p) x' c').
Proof.
  induction p as [|ch|greedy cs|q IH|q IHq r IHr];
    intros [s e cap] [s' e' cap'] c c' Hr He Hc;
    cbn [rest endIndex] in Hr, He; subst s' e';
    cbn [CompilePattern erase_groups rest endIndex capture1].
  - apply Hc; trivial.
  - destruct s as [|a t]; [exact I|].
    destruct (Canonicalize i a =? Canonicalize i ch); [|exact I].
    apply Hc; trivial.
  - apply RepeatMatcher_agree. intros r0 e1 cap1 cap1'. apply Hc; trivial.
  - apply IH; trivial. intros y y' Hy1 Hy2. apply Hc; trivial.
  - apply IHq; trivial. intros y y' Hy1 Hy2. apply IHr; trivial.
Qed.

Lemma search_agree m m' s i :
  (forall r e cap, agree (m (mkState r e cap)) (m' (mkState r e cap))) ->
  agree (search m s i) (search m' s i).
Proof.
  intros Hm. revert i. induction s as [|a s IH]; intros i; cbn [search].
  - specialize (Hm [] i None).
    destruct (m (mkState [] i None)), (m' (mkState [] i None)); trivial.
  - specialize (Hm (a :: s) i None).
    destruct (m (mkState (a :: s) i None)), (m' (mkState (a :: s) i None));
      cbn in Hm; solve [exact Hm | destruct Hm | apply IH].
Qed.

Lemma find_match_none s :
  find_match s = None <-> forall k, match_here (drop k s) = None.
Proof.
  induction s as [|a s IH]; cbn [find_match].
  - split.
    + destruct (match_here []) eqn:H; [discriminate|].
      intros _ k. rewrite drop_nil. exact H.
    + intros H. specialize (H O). rewrite drop_0 in H. rewrite H. trivial.
  - destruct (match_here (a :: s)) as [m|] eqn:Hm.
    + split; [discriminate|]. intros H. specialize (H O).
      rewrite drop_0 in H. congruence.
    + rewrite IH. split.
      * intros H [|k]; [exact Hm|]. apply H.
      * intros H k. apply (H (S k)).
Qed.

(** The test of [hasLocTags] is whether the text holds a tag pair. *)
Lemma locTags_test xml :
  RegExp_test true locTagsRegex xml = true <->
  exists k cap r, TagPair (drop k xml) cap r.
Proof.
  unfold RegExp_test.
  assert (Hag : agree (RegExp_exec true locRegex xml 0)
                      (RegExp_exec true locTagsRegex xml 0)).
  { unfold RegExp_exec. destruct (length xml <? 0)%nat; [exact I|].
    apply search_agree. intros r e cap.
    change locTagsRegex with (erase_groups locRegex).
    apply CompilePattern_agree; trivial.
    intros y y' H1 H2. cbn. auto. }
  rewrite RegExp_exec_find_match in Hag by lia. rewrite drop_0 in Hag.
  destruct (find_match xml) as [[cap r]|] eqn:Hf.
  - destruct (RegExp_exec true locTagsRegex xml 0); [|destruct Hag].
    split; trivial. intros _.
    apply find_match_spec in Hf as (k & Hk & _).
    apply match_here_TagPair in Hk. eauto.
  - destruct (RegExp_exec true locTagsRegex xml 0); [destruct Hag|].
    split; [discriminate|]. intros (k & cap & r & Hk).
    apply match_here_TagPair in Hk.
    rewrite (proj1 (find_match_none xml) Hf k) in Hk. discriminate.
Qed.

(** The matcher of an opening tag, in closed form. *)
Lemma tagRegex_here open s i cap0 :
  CompilePattern true (tagRegex open) (mkState s i cap0) Some =
  match strip_ci open s with
  | Some s1 =>
      match dropWhile (fun a => negb (a =? lit_gt)) s1 with
      | [] => None
      | _ :: s2 =>
          Some (mkState s2
                  (S (i + length open + (length s1 - S (length s2)))) cap0)
      end
  | None => None
  end.
Proof.
  unfold tagRegex.
  change (CompilePattern true (PSeq ?q ?r) ?x ?c) with
    (CompilePattern true q x (fun y => CompilePattern true r y c)) at 1.
  rewrite CompilePattern_PLit.
  destruct (strip_ci open s) as [s1|]; trivial.
  change (CompilePattern true (PSeq (PStar true (AllBut lit_gt)) (PChar lit_gt))
            ?x Some)
    with (RepeatMatcher (CharSetMatches true (AllBut lit_gt)) true (rest x)
            (endIndex x) (capture1 x)
            (fun y => CompilePattern true (PSeq (PChar lit_gt) PEmpty) y Some)).
  cbn [rest endIndex capture1].
  rewrite RepeatMatcher_to_gt.
  destruct (dropWhile (fun a => negb (a =? lit_gt)) s1) as [|g s2]; trivial.
Qed.

Lemma dropWhile_gt_some s :
  dropWhile (fun a => negb (a =? lit_gt)) s <> [] <->
  exists mid post, s = mid ++ [lit_gt] ++ post.
Proof.
  split.
  - destruct (dropWhile _ s) as [|g s2] eqn:Hd; [congruence|]. intros _.
    apply dropWhile_gt_spec in Hd as (attrs & -> & _). eauto.
  - intros (mid & post & ->). induction mid as [|a mid IH].
    + cbn. discriminate.
    + cbn [app dropWhile]. destruct (negb (a =? lit_gt)); [exact IH|].
      discriminate.
Qed.

(** The test of an opening tag. *)
Lemma tagRegex_test open xml :
  RegExp_test true (tagRegex open) xml = true <-> OpensTag open xml.
Proof.
  unfold RegExp_test, RegExp_exec, OpensTag.
  destruct (Nat.ltb_spec (length xml) 0) as [H|_]; [lia|].
  rewrite drop_0. generalize 0%nat.
  induction xml as [|a xml IH]; intros i; cbn [search];
    rewrite tagRegex_here.
  - destruct (strip_ci open []) as [s1|] eqn:Hs.
    + destruct (dropWhile _ s1) as [|g s2] eqn:Hd.
      * split; [discriminate|].
        intros (pre & o & mid & post & Hx & Ho).
        destruct pre; [|discriminate]. destruct o; [|discriminate].
        destruct mid; discriminate.
      * split; trivial. intros _.
        apply strip_ci_spec in Hs as (o & Hx & Ho).
        apply dropWhile_gt_spec in Hd as (attrs & -> & _).
        exists [], o, attrs, s2. auto.
    + split; [discriminate|].
      intros (pre & o & mid & post & Hx & Ho).
      destruct pre; [|discriminate]. destruct o; [|discriminate].
      destruct mid; discriminate.
  - destruct (strip_ci open (a :: xml)) as [s1|] eqn:Hs.
    + destruct (dropWhile (fun a0 => negb (a0 =? lit_gt)) s1) as [|g s2] eqn:Hd.
      * rewrite IH. apply strip_ci_spec in Hs as (o & Hx & Ho).
        assert (Hno : forall mid post, s1 <> mid ++ [lit_gt] ++ post).
        { intros mid post Heq.
          apply (proj2 (dropWhile_gt_some s1)); eauto. }
        split.
        -- intros (pre & o' & mid & post & -> & Ho').
           exists (a :: pre), o', mid, post. auto.
        -- intros (pre & o' & mid & post & Hx' & Ho').
           destruct pre as [|b pre].
           ++ exfalso. cbn [app] in Hx'.
              assert (Hs' : strip_ci open (a :: xml)
                            = Some (mid ++ [lit_gt] ++ post)).
              { apply strip_ci_spec. exists o'. auto. }
              assert (Hs1 : strip_ci open (a :: xml) = Some s1).
              { apply strip_ci_spec. exists o. auto. }
              rewrite Hs1 in Hs'. injection Hs' as Hs'.
              exact (Hno _ _ Hs').
           ++ cbn [app] in Hx'. injection Hx' as <- ->. eauto 10.
      * split; trivial. intros _.
        apply strip_ci_spec in Hs as (o & Hx & Ho).
        apply dropWhile_gt_spec in Hd as (attrs & -> & _).
        exists [], o, attrs, s2. auto.
    + rewrite IH. split.
      * intros (pre & o' & mid & post & -> & Ho').
        exists (a :: pre), o', mid, post. auto.
      * intros (pre & o' & mid & post & Hx' & Ho').
        destruct pre as [|b pre].
        -- exfalso. cbn [app] in Hx'.
           assert (Hs' : strip_ci open (a :: xml)
                         = Some (mid ++ [lit_gt] ++ post)).
           { apply strip_ci_spec. exists o'. auto. }
           congruence.
        -- cbn [app] in Hx'. injection Hx' as <- ->. eauto 10.
Qed.

Lemma extractURLs_needs_pair xml :
  extractURLs xml <> [] -> exists k cap r, TagPair (drop k xml) cap r.
Proof.
  rewrite extractURLs_closed. cbn [loc_contents].
  destruct (find_match xml) as [[cap r]|] eqn:Hf; [|intros H; destruct H; trivial].
  intros _. apply find_match_spec in Hf as (k & Hk & _).
  apply match_here_TagPair in Hk. eauto.
Qed.

End ValidFacts.

(** X17. The test of a sitemap. [isValidSitemap] holds exactly when the
    text opens a [urlset] or a [sitemapindex] tag (the name, in any case,
    after [<], with a [>] somewhere after it) and holds a pair of [loc]
    tags as [extractURLs] reads them, on one line. So a text from which
    [extractURLs] returns a URL is valid as soon as it opens one of the
    two tags, and a text that is not valid although it opens one yields
    no URL. *)
Theorem isValidSitemap_spec (xmlContent : jsstring) :
  (isValidSitemap xmlContent = true <->
   (OpensTag lit_urlset_open xmlContent \/
    OpensTag lit_sitemapindex_open xmlContent) /\
   exists k cap r, TagPair (drop k xmlContent) cap r) /\
  (extractURLs xmlContent <> [] ->
   (isValidSitemap xmlContent = true <->
    OpensTag lit_urlset_open xmlContent \/
    OpensTag lit_sitemapindex_open xmlContent)).
Proof.
  assert (Hspec : isValidSitemap xmlContent = true <->
            (OpensTag lit_urlset_open xmlContent \/
             OpensTag lit_sitemapindex_open xmlContent) /\
            exists k cap r, TagPair (drop k xmlContent) cap r).
  { unfold isValidSitemap. cbv zeta.
    rewrite andb_true_iff, orb_true_iff, !tagRegex_test, locTags_test.
    tauto. }
  split; [exact Hspec|].
  intros Hurls. apply extractURLs_needs_pair in Hurls. tauto.
Qed.

(** ** Reading a snapshot: the failures *)

(** X18. [getSitemapContent] never throws and never changes the store or
    the log of requests. For a type other than [current], [latest] and
    [dated] it returns [null]; so it does when the read of the key
    fails. Otherwise it returns what the store holds at the key of the
    type, the day of the clock standing for a date that is missing or
    empty. *)
Theorem getSitemapContent_total (w : World) (domain type : jsstring)
    (date : option jsstring) (st : Store) :
  exists content,
    getSitemapContent w domain type date st = (st, Normal content) /\
    (type <> lit_current -> type <> lit_latest -> type <> lit_dated ->
     content = None) /\
    (forall key,
       (type = lit_current /\ key = currentKey domain) \/
       (type = lit_latest /\ key = latestKey domain) \/
       (type = lit_dated /\
        key = datedKey domain (if truthy_opt date then default [] date
                               else today w)) ->
       content = match kv_get_fault w key with
                 | Some _ => None
                 | None => kv st !! key
                 end).
Proof.
  unfold getSitemapContent, sitemap_key. unfold_async.
  assert (Hd : lit_current <> lit_latest /\ lit_current <> lit_dated /\
               lit_latest <> lit_dated) by (repeat split; discriminate).
  destruct Hd as (D1 & D2 & D3).
  destruct (bool_decide (type = lit_current)) eqn:Hc.
  { apply bool_decide_eq_true in Hc. subst type.
    destruct (kv_get_fault w (currentKey domain)) eqn:Hg; eexists;
      (split; [reflexivity|]); (split; [congruence|]);
      intros key [[_ ->]|[[H _]|[H _]]]; try congruence; rewrite Hg; trivial. }
  apply bool_decide_eq_false in Hc.
  destruct (bool_decide (type = lit_latest)) eqn:Hl.
  { apply bool_decide_eq_true in Hl. subst type.
    destruct (kv_get_fault w (latestKey domain)) eqn:Hg; eexists;
      (split; [reflexivity|]); (split; [congruence|]);
      intros key [[H _]|[[_ ->]|[H _]]]; try congruence; rewrite Hg; trivial. }
  apply bool_decide_eq_false in Hl.
  destruct (bool_decide (type = lit_dated)) eqn:Hdt.
  { apply bool_decide_eq_true in Hdt. subst type.
    assert (Hkey : match date with
                   | Some (c :: t) => c :: t
                   | _ => today w
                   end = if truthy_opt date then default [] date else today w).
    { destruct date as [[|c t]|]; trivial. }
    rewrite Hkey.
    destruct (kv_get_fault w (datedKey domain _)) eqn:Hg; eexists;
      (split; [reflexivity|]); (split; [congruence|]);
      intros key [[H _]|[[H _]|[_ ->]]]; try congruence; rewrite Hg; trivial. }
  apply bool_decide_eq_false in Hdt.
  eexists. split; [reflexivity|]. split; [trivial|].
  intros key [[H _]|[[H _]|[H _]]]; congruence.
Qed.

(** ** The domains of the unified report *)

Section Report.

Lemma sum_list_filter_pos {A} (f : A -> nat) (l : list A) :
  sum_list (f <$> List.filter (fun x => (0 <? f x)%nat) l) = sum_list (f <$> l).
Proof.
  induction l as [|a l IH]; trivial.
  cbn [List.filter]. rewrite fmap_cons. cbn [sum_list].
  destruct (Nat.ltb_spec 0 (f a)) as [H|H].
  - rewrite fmap_cons. cbn [sum_list]. rewrite IH. trivial.
  - rewrite IH. unfold id. lia.
Qed.

Lemma concat_filter_nonempty {A B} (f : A -> list B) (l : list A) :
  concat (f <$> List.filter (fun x => (0 <? length (f x))%nat) l) =
  concat (f <$> l).
Proof.
  induction l as [|a l IH]; trivial.
  cbn [List.filter]. rewrite fmap_cons. cbn [concat].
  destruct (Nat.ltb_spec 0 (length (f a))) as [H|H].
  - rewrite fmap_cons. cbn [concat]. rewrite IH. trivial.
  - rewrite IH. destruct (f a); [trivial|cbn in H; lia].
Qed.

Lemma fmap_filter_sublist {A B} (g : A -> B) (f : A -> bool) (l : list A) :
  sublist (g <$> List.filter f l) (g <$> l).
Proof.
  induction l as [|a l IH]; cbn [List.filter].
  - constructor.
  - rewrite fmap_cons. destruct (f a); [rewrite fmap_cons|];
      constructor; exact IH.
Qed.

(** What the report lists, for variables that meet the invariant. *)
Lemma sortedDomains_grouped p :
  grouped p ->
  let rows := sortedDomains (domainResults p) in
  StronglySorted
    (fun a b => (DomainResult.totalNew b <= DomainResult.totalNew a)%nat) rows /\
  NoDup (DomainResult.domain <$> rows) /\
  (forall domainData, In domainData rows ->
     In (DomainResult.domain domainData, domainData) (domainResults p) /\
     DomainResult.newUrls domainData <> [] /\
     DomainResult.totalNew domainData
       = length (DomainResult.newUrls domainData) /\
     length (sampleUrls domainData) = min 3 (DomainResult.totalNew domainData) /\
     (length (sampleUrls domainData) + not_shown domainData)%nat
       = DomainResult.totalNew domainData) /\
  sum_list (DomainResult.totalNew <$> rows) = length (allNewUrls p) /\
  Permutation (concat (DomainResult.newUrls <$> rows)) (allNewUrls p).
Proof.
  intros (Hnd & Hall & Hperm). cbv zeta. unfold sortedDomains.
  set (kept := List.filter
                 (fun domain => (0 <? DomainResult.totalNew domain)%nat)
                 (snd <$> domainResults p)).
  pose proof (sort_desc_perm DomainResult.totalNew kept) as Hsort.
  assert (Hvals : Forall (fun d => DomainResult.totalNew d
                                   = length (DomainResult.newUrls d))
                    (snd <$> domainResults p)).
  { apply Forall_fmap. eapply Forall_impl; [exact Hall|].
    intros [k v] [_ H]. exact H. }
  assert (Hkept : kept = List.filter
            (fun d => (0 <? length (DomainResult.newUrls d))%nat)
            (snd <$> domainResults p)).
  { unfold kept. apply filter_ext_in_list. intros d Hd.
    rewrite List.Forall_forall in Hvals. rewrite (Hvals d Hd). trivial. }
  split; [apply (sort_desc_sorted DomainResult.totalNew)|].
  split.
  { rewrite Hsort. unfold kept.
    apply (sublist_NoDup _ (DomainResult.domain <$> (snd <$> domainResults p)));
      [|apply fmap_filter_sublist].
    replace (DomainResult.domain <$> (snd <$> domainResults p))
      with (fst <$> domainResults p); [exact Hnd|].
    clear - Hall. induction Hall as [|[k v] m [Hk _] Hall IH]; trivial.
    rewrite !fmap_cons, IH. cbn [fst snd] in *. congruence. }
  split.
  { intros d Hd. apply (Permutation_in _ Hsort) in Hd.
    apply List.filter_In in Hd as [Hd Hpos]. apply Nat.ltb_lt in Hpos.
    apply list_elem_of_In, list_elem_of_fmap in Hd as ([k v] & -> & Hin).
    cbn [snd] in *. rewrite List.Forall_forall in Hall.
    apply list_elem_of_In in Hin.
    destruct (Hall _ Hin) as [Hk Hv]. cbn [fst snd] in Hk, Hv.
    split; [rewrite Hk; exact Hin|].
    split; [intros Hnil; rewrite Hnil in Hv; cbn in Hv; lia|].
    split; [exact Hv|].
    unfold sampleUrls, not_shown. rewrite length_take, <- Hv. lia. }
  split.
  { rewrite Hsort. unfold kept. rewrite sum_list_filter_pos.
    rewrite (Permutation_length Hperm). clear - Hall.
    induction Hall as [|[k v] m [_ Hv] Hall IH]; trivial.
    rewrite !fmap_cons. cbn [concat sum_list snd] in *.
    rewrite length_app, <- IH, Hv. trivial. }
  rewrite Hsort, Hkept, concat_filter_nonempty, Hperm.
  rewrite <- list_fmap_compose. reflexivity.
Qed.

End Report.

(** X19. The numbers of the unified report agree. For the variables that
    either pass hands to [sendUnifiedReport], the domains that the report
    lists are those with new URLs, once each, in the order of
    non-increasing [totalNew]; each shows at most three of its URLs and
    says how many are not shown; and the [totalNew] of the domains
    listed add up to the total at the foot of the report, the length of
    [allNewUrls], which holds the same URLs. *)
Theorem sendUnifiedReport_totals (w : World) (manual : bool)
    (feeds : list jsstring) (st st' : Store) (p : PassState) :
  (if manual then handleNewsCommand_loop w feeds st
   else performScheduledMonitoring_loop w feeds st) = (st', Normal p) ->
  let rows := sortedDomains (domainResults p) in
  StronglySorted
    (fun a b => (DomainResult.totalNew b <= DomainResult.totalNew a)%nat) rows /\
  NoDup (DomainResult.domain <$> rows) /\
  (forall domainData, In domainData rows ->
     In (DomainResult.domain domainData, domainData) (domainResults p) /\
     DomainResult.newUrls domainData <> [] /\
     DomainResult.totalNew domainData
       = length (DomainResult.newUrls domainData) /\
     length (sampleUrls domainData) = min 3 (DomainResult.totalNew domainData) /\
     (length (sampleUrls domainData) + not_shown domainData)%nat
       = DomainResult.totalNew domainData) /\
  sum_list (DomainResult.totalNew <$> rows) = length (allNewUrls p) /\
  Permutation (concat (DomainResult.newUrls <$> rows)) (allNewUrls p).
Proof.
  intros Hrun. apply sortedDomains_grouped.
  destruct manual.
  - unfold handleNewsCommand_loop in Hrun.
    destruct (pass_loop_spec w (handleNewsCommand_turn w) feeds)
      with (p := mkPass [] [] 0 0) (st := st)
      as (st2 & p2 & Hrun2 & _ & _ & Hg & _).
    { intros url0 p0 st0.
      destruct (handleNewsCommand_turn_run w url0 p0 st0)
        as (s & r0 & _ & q & Hq & Hs & _). eauto. }
    rewrite Hrun in Hrun2. injection Hrun2 as <- <-.
    apply Hg, grouped_initial.
  - unfold performScheduledMonitoring_loop in Hrun.
    destruct (pass_loop_spec w (performScheduledMonitoring_turn w) feeds)
      with (p := mkPass [] [] 0 0) (st := st)
      as (st2 & p2 & Hrun2 & _ & _ & Hg & _).
    { intros url0 p0 st0.
      destruct (performScheduledMonitoring_turn_run w url0 p0 st0)
        as (s & r0 & _ & q & Hq & Hs & _). eauto. }
    rewrite Hrun in Hrun2. injection Hrun2 as <- <-.
    apply Hg, grouped_initial.
Qed.

(** A witness of X19: the manual pass over the source of the example, on
    the third day; one domain is listed, with one new URL. *)
Lemma sendUnifiedReport_totals_witness :
  let run := handleNewsCommand_loop world_day3 [ex_url] store_day1 in
  sum_list (DomainResult.totalNew <$> sortedDomains (domainResults (pass_of run)))
    = length (allNewUrls (pass_of run)) /\
  allNewUrls (pass_of run) = [js "https://a.com/2"].
Proof.
  cbv zeta.
  set (run := handleNewsCommand_loop world_day3 [ex_url] store_day1).
  assert (Hrun : run = (store_of run, Normal (pass_of run)))
    by (vm_compute; reflexivity).
  destruct (sendUnifiedReport_totals world_day3 true [ex_url] store_day1
              (store_of run) (pass_of run) Hrun)
    as (_ & _ & _ & Hsum & _).
  split; [exact Hsum|]. vm_compute. reflexivity.
Defined.

(** ** The configuration *)

(** X20. The start of the worker. [initializeApp] sets the
    configuration from the environment, also when it throws. It
    completes normally exactly when the token and the target chat of
    Telegram are set and not empty, whatever the token of Discord is,
    and then tells whether the storage is bound; otherwise the message
    of its error lists what is missing, the token first. The argument
    [strict] changes nothing. *)
Theorem initializeApp_spec (env : Env) (strict : bool) :
  fst (initializeApp env strict) = initConfig env /\
  initializeApp env strict = initializeApp env (negb strict) /\
  (truthy_opt (TELEGRAM_BOT_TOKEN env)
     && truthy_opt (TELEGRAM_TARGET_CHAT env) = true ->
   snd (initializeApp env strict) = Normal (SITEMAP_STORAGE env) /\
   validateConfig (initConfig env) = mkValidation true []) /\
  (truthy_opt (TELEGRAM_BOT_TOKEN env)
     && truthy_opt (TELEGRAM_TARGET_CHAT env) = false ->
   let missing :=
     (if truthy_opt (TELEGRAM_BOT_TOKEN env) then [] else [msg_token_unset])
     ++ (if truthy_opt (TELEGRAM_TARGET_CHAT env) then []
         else [msg_chat_unset]) in
   validateConfig (initConfig env) = mkValidation false missing /\
   snd (initializeApp env strict)
     = Throw (Thrown (msg_config_error ++ join lit_comma_space missing))) /\
  (forall token,
     snd (initializeApp
            (mkEnv (TELEGRAM_BOT_TOKEN env) (TELEGRAM_TARGET_CHAT env)
               token (SITEMAP_STORAGE env)) strict)
     = snd (initializeApp env strict)).
Proof.
  destruct env as [[[|a ta]|] [[|b tb]|] discord storage];
    repeat split; try discriminate; destruct strict; reflexivity.
Qed.

(** ** [extractURLsWithLastMod] *)

Section FlagsFacts.

Lemma RepeatMatcher_ext m m' greedy s e cap c c' :
  (forall a, m a = m' a) -> (forall y, c y = c' y) ->
  RepeatMatcher m greedy s e cap c = RepeatMatcher m' greedy s e cap c'.
Proof.
  intros Hm Hc. revert e. induction s as [|a t IH]; intros e;
    cbn [RepeatMatcher]; [apply Hc|].
  rewrite <- Hm. destruct (m a); [|apply Hc].
  destruct greedy; rewrite IH, Hc; trivial.
Qed.

(** Without the s flag, the matcher with flags is [CompilePattern]. *)
Lemma CompilePattern_flags_false i p :
  forall x c c',
    (forall y, c y = c' y) ->
    CompilePattern_flags false i p x c = CompilePattern i p x c'.
Proof.
  induction p as [|ch|greedy cs|q IH|q IHq r IHr]; intros x c c' Hc;
    cbn [CompilePattern_flags CompilePattern].
  - apply Hc.
  - destruct (rest x) as [|a t]; trivial.
    destruct (Canonicalize i a =? Canonicalize i ch); trivial.
  - apply RepeatMatcher_ext; [intros a; destruct cs; reflexivity|exact Hc].
  - apply IH. intros y. apply Hc.
  - apply IHq. intros y. apply IHr. exact Hc.
Qed.

Lemma search_ext m m' s i :
  (forall x, m x = m' x) -> search m s i = search m' s i.
Proof.
  intros Hm. revert i. induction s as [|a s IH]; intros i; cbn [search];
    rewrite Hm; trivial.
  destruct (m' (mkState (a :: s) i None)); trivial.
Qed.

Lemma RegExp_exec_flags_false i p s lastIndex :
  RegExp_exec i p s lastIndex = RegExp_exec_flags false i p s lastIndex.
Proof.
  unfold RegExp_exec, RegExp_exec_flags.
  destruct (length s <? lastIndex)%nat; trivial.
  apply search_ext. intros x. symmetry.
  apply CompilePattern_flags_false. trivial.
Qed.

Lemma CompilePattern_flags_PLit d p s e cap c :
  CompilePattern_flags d true (PLit p) (mkState s e cap) c =
  match strip_ci p s with
  | Some r => c (mkState r (e + length p)%nat cap)
  | None => None
  end.
Proof.
  revert s e. induction p as [|b p IH]; intros s e; simpl.
  - f_equal. f_equal. lia.
  - destruct s as [|a s]; trivial.
    destruct (Canonicalize true a =? Canonicalize true b); trivial.
    rewrite IH. destruct (strip_ci p s); trivial. do 2 f_equal. lia.
Qed.

Lemma RepeatMatcher_flags_to_gt d q s e cap c :
  RepeatMatcher (CharSetMatches_flags d true (AllBut lit_gt)) true s e cap
    (fun y => CompilePattern_flags d true (PSeq (PChar lit_gt) q) y c) =
  match dropWhile (fun a => negb (a =? lit_gt)) s with
  | [] => None
  | _ :: s2 =>
      CompilePattern_flags d true q
        (mkState s2 (S (e + (length s - S (length s2)))) cap) c
  end.
Proof.
  revert e. induction s as [|a s IH]; intros e; simpl; trivial.
  rewrite Canonicalize_gt.
  destruct (a =? lit_gt) eqn:Ha; simpl.
  - do 2 f_equal. lia.
  - rewrite IH.
    pose proof (dropWhile_length (fun a => negb (a =? lit_gt)) s) as Hlen.
    destruct (dropWhile (fun a0 => negb (a0 =? lit_gt)) s) as [|g s2] eqn:Hd;
      trivial.
    simpl in Hlen.
    replace (S (S e + (length s - S (length s2)))) with
      (S (e + (S (length s) - S (length s2)))) by lia.
    destruct (CompilePattern_flags d true q _ c); trivial.
Qed.

Lemma scan_to_length close ok s cap r :
  scan_to close ok s = Some (cap, r) ->
  length s = (length cap + length close + length r)%nat.
Proof.
  revert cap. induction s as [|a s IH]; intros cap H.
  - cbn [scan_to] in H.
    destruct (strip_ci close []) as [r'|] eqn:Hs; [|discriminate].
    injection H as <- <-. apply strip_ci_length in Hs. cbn in *. lia.
  - cbn [scan_to] in H.
    destruct (strip_ci close (a :: s)) as [r'|] eqn:Hs.
    + injection H as <- <-. apply strip_ci_length in Hs. simpl in *. lia.
    + destruct (ok a); [|discriminate].
      destruct (scan_to close ok s) as [[cap' r']|]; [|discriminate].
      injection H as <- <-. simpl. rewrite (IH cap' eq_refl). simpl. lia.
Qed.

(** [(.*?)close]: the lazy star stops at the first [close], and fails at
    a character that [.] does not match. *)
Lemma RepeatMatcher_lazy_scan d close ok s0 e0 pre s cap0 :
  s0 = pre ++ s ->
  RepeatMatcher ok false s (e0 + length pre)%nat cap0
    (fun y => CompilePattern_flags d true (PLit close)
                (mkState (rest y) (endIndex y)
                   (Some (take (endIndex y - e0)%nat s0))) Some) =
  match scan_to close ok s with
  | Some (cap, r) =>
      Some (mkState r (e0 + length pre + length cap + length close)%nat
              (Some (pre ++ cap)))
  | None => None
  end.
Proof.
  revert pre. induction s as [|a s IH]; intros pre Hs0.
  - cbn [RepeatMatcher scan_to rest endIndex].
    rewrite CompilePattern_flags_PLit.
    replace (e0 + length pre - e0)%nat with (length pre) by lia.
    rewrite Hs0, take_app_length.
    destruct (strip_ci close []); trivial.
    rewrite app_nil_r. cbn [length]. do 2 f_equal. lia.
  - assert (Hk : CompilePattern_flags d true (PLit close)
              (mkState (a :: s) (e0 + length pre)%nat
                 (Some (take (e0 + length pre - e0)%nat s0))) Some =
            match strip_ci close (a :: s) with
            | Some r => Some (mkState r (e0 + length pre + length close)%nat
                                (Some pre))
            | None => None
            end).
    { rewrite CompilePattern_flags_PLit.
      replace (e0 + length pre - e0)%nat with (length pre) by lia.
      rewrite Hs0, take_app_length. trivial. }
    cbn [RepeatMatcher scan_to]. cbn [rest endIndex].
    rewrite Hk. clear Hk.
    destruct (strip_ci close (a :: s)) as [r|] eqn:Hstrip.
    + rewrite app_nil_r, Nat.add_0_r.
      destruct (ok a); trivial.
    + destruct (ok a); trivial.
      specialize (IH (pre ++ [a])).
      rewrite length_app in IH. cbn [length] in IH.
      replace (e0 + (length pre + 1))%nat with (S (e0 + length pre)) in IH by lia.
      rewrite IH by (rewrite <- app_assoc; exact Hs0).
      destruct (scan_to close ok s) as [[cap r]|]; trivial.
      rewrite <- app_assoc. cbn [length app]. do 2 f_equal. lia.
Qed.

(** The matcher of a pair of tags, in closed form. *)
Lemma tagPairRegex_here d open close s i cap0 :
  CompilePattern_flags d true (tagPairRegex open close) (mkState s i cap0) Some =
  match tag_here open close (CharSetMatches_flags d true Dot) s with
  | Some (cap, r) => Some (mkState r (i + (length s - length r))%nat (Some cap))
  | None => None
  end.
Proof.
  unfold tagPairRegex, tag_here.
  change (CompilePattern_flags d true (PSeq ?q ?r) ?x ?c) with
    (CompilePattern_flags d true q x
       (fun y => CompilePattern_flags d true r y c)) at 1.
  rewrite CompilePattern_flags_PLit.
  destruct (strip_ci open s) as [s1|] eqn:Ho; trivial.
  apply strip_ci_length in Ho.
  match goal with
  | |- CompilePattern_flags d true
         (PSeq (PStar true ?cs) (PSeq (PChar lit_gt) ?q)) ?x ?c = _ =>
      change (CompilePattern_flags d true
                (PSeq (PStar true cs) (PSeq (PChar lit_gt) q)) x c)
        with (RepeatMatcher (CharSetMatches_flags d true cs) true (rest x)
                (endIndex x) (capture1 x)
                (fun y => CompilePattern_flags d true
                            (PSeq (PChar lit_gt) q) y c))
  end.
  cbn [rest endIndex capture1].
  rewrite RepeatMatcher_flags_to_gt.
  pose proof (dropWhile_length (fun a => negb (a =? lit_gt)) s1) as Hlen.
  destruct (dropWhile (fun a => negb (a =? lit_gt)) s1) as [|g s2]; trivial.
  set (e2 := S (i + length open + (length s1 - S (length s2)))).
  pose proof (RepeatMatcher_lazy_scan d close (CharSetMatches_flags d true Dot)
                s2 e2 [] s2 cap0 eq_refl) as Hl.
  cbn [length app] in Hl. rewrite Nat.add_0_r in Hl.
  etrans; [exact Hl|]. clear Hl.
  destruct (scan_to close _ s2) as [[cap r]|] eqn:Hc; trivial.
  apply scan_to_length in Hc.
  f_equal. f_equal. subst e2. simpl in *. lia.
Qed.

End FlagsFacts.

Section TagScanFacts.

Variables (open close : jsstring) (ok : N -> bool).

Lemma scan_to_spec s cap r :
  scan_to close ok s = Some (cap, r) <->
  exists cl, s = cap ++ cl ++ r /\ equals_ci cl close = true /\
             Forall (fun a => ok a = true) cap /\
             (forall k, (k < length cap)%nat ->
                strip_ci close (drop k s) = None).
Proof.
  revert cap. induction s as [|a s IH]; intros cap.
  - cbn [scan_to]. destruct (strip_ci close []) as [r'|] eqn:Hs.
    + split.
      * intros [= <- <-]. apply strip_ci_spec in Hs as (cl & Hx & He).
        exists cl. repeat split; auto. cbn. lia.
      * intros (cl & H & He & _ & _).
        destruct cap; [|discriminate]. cbn [app] in H.
        assert (Hs' : strip_ci close [] = Some r)
          by (apply strip_ci_spec; eauto).
        congruence.
    + split; [discriminate|]. intros (cl & H & He & _ & _).
      destruct cap; [|discriminate]. cbn [app] in H.
      assert (Hs' : strip_ci close [] = Some r)
        by (apply strip_ci_spec; eauto).
      congruence.
  - cbn [scan_to].
    destruct (strip_ci close (a :: s)) as [r'|] eqn:Hs.
    + split.
      * intros [= <- <-]. apply strip_ci_spec in Hs as (cl & -> & He).
        exists cl. repeat split; auto. simpl. lia.
      * intros (cl & H & He & Hf & Hmin).
        destruct cap as [|c cap].
        -- simpl in H.
           assert (Hs' : strip_ci close (a :: s) = Some r).
           { apply strip_ci_spec. eauto. }
           congruence.
        -- specialize (Hmin O ltac:(simpl; lia)).
           change (drop 0 (a :: s)) with (a :: s) in Hmin. congruence.
    + split.
      * destruct (ok a) eqn:Hok; [|discriminate].
        destruct (scan_to close ok s) as [[cap' r']|] eqn:Hc; [|discriminate].
        intros [= <- <-].
        destruct (proj1 (IH cap') eq_refl) as (cl & -> & He & Hf & Hmin).
        exists cl. repeat split; auto.
        intros [|k] Hk; [exact Hs|].
        change (drop (S k) (a :: ?l)) with (drop k l).
        apply Hmin. simpl in Hk. lia.
      * intros (cl & H & He & Hf & Hmin).
        destruct cap as [|c cap].
        -- simpl in H.
           assert (Hs' : strip_ci close (a :: s) = Some r).
           { apply strip_ci_spec. eauto. }
           congruence.
        -- simpl in H. injection H as <- ->.
           inversion Hf as [|? ? Hc Hf']; subst.
           rewrite Hc.
           assert (Hc' : scan_to close ok (cap ++ cl ++ r) = Some (cap, r)).
           { apply IH. exists cl. repeat split; auto.
             intros k Hk. apply (Hmin (S k)). simpl. lia. }
           rewrite Hc'. trivial.
Qed.

(** The direct scan meets its specification. *)
Lemma tag_here_TagPairOf s cap r :
  tag_here open close ok s = Some (cap, r) <-> TagPairOf open close ok s cap r.
Proof.
  unfold tag_here, TagPairOf. split.
  - destruct (strip_ci open s) as [s1|] eqn:Ho; [|discriminate].
    apply strip_ci_spec in Ho as (o & -> & Ho).
    destruct (dropWhile _ s1) as [|g s2] eqn:Hd; [discriminate|].
    apply dropWhile_gt_spec in Hd as (attrs & -> & -> & Hf).
    intros Hc. apply scan_to_spec in Hc as (cl & -> & He & Hlt & Hmin).
    exists o, attrs, cl. repeat split; auto.
  - intros (o & attrs & cl & -> & Ho & Hf & He & Hlt & Hmin).
    assert (H1 : strip_ci open (o ++ attrs ++ [lit_gt] ++ cap ++ cl ++ r) =
                 Some (attrs ++ [lit_gt] ++ cap ++ cl ++ r)).
    { apply strip_ci_spec. eauto. }
    rewrite H1.
    assert (H2 : dropWhile (fun a => negb (a =? lit_gt))
                   (attrs ++ [lit_gt] ++ cap ++ cl ++ r) =
                 lit_gt :: cap ++ cl ++ r).
    { apply dropWhile_gt_spec. eauto. }
    rewrite H2. apply scan_to_spec. exists cl. repeat split; auto.
Qed.

Lemma TagPairOf_suffix s cap r :
  TagPairOf open close ok s cap r ->
  exists pre, s = pre ++ r /\ (0 < length pre)%nat.
Proof.
  intros (o & attrs & cl & -> & _).
  exists (o ++ attrs ++ [lit_gt] ++ cap ++ cl).
  split.
  - repeat rewrite <- app_assoc. trivial.
  - repeat rewrite length_app. simpl. lia.
Qed.

Lemma find_tag_spec s cap r :
  find_tag open close ok s = Some (cap, r) <->
  exists k, tag_here open close ok (drop k s) = Some (cap, r) /\
            forall j, (j < k)%nat -> tag_here open close ok (drop j s) = None.
Proof.
  induction s as [|a s IH].
  - cbn [find_tag]. split.
    + destruct (tag_here open close ok []) eqn:H; [|discriminate].
      intros [= ->]. exists O. split; [exact H|]. intros j Hj. lia.
    + intros (k & H & _). rewrite drop_nil in H. rewrite H. trivial.
  - cbn [find_tag].
    destruct (tag_here open close ok (a :: s)) as [m|] eqn:Hm.
    + split.
      * intros [= ->]. exists O. split; [exact Hm|]. intros j Hj. lia.
      * intros (k & H & Hmin). destruct k as [|k].
        -- simpl in H. congruence.
        -- specialize (Hmin O ltac:(lia)). simpl in Hmin. congruence.
    + rewrite IH. split.
      * intros (k & H & Hmin). exists (S k). split; [exact H|].
        intros [|j] Hj; [exact Hm|]. apply Hmin. lia.
      * intros (k & H & Hmin). destruct k as [|k].
        -- simpl in H. congruence.
        -- exists k. split; [exact H|]. intros j Hj. apply (Hmin (S j)). lia.
Qed.

Lemma find_tag_suffix s cap r :
  find_tag open close ok s = Some (cap, r) ->
  exists pre, s = pre ++ r /\ (0 < length pre)%nat.
Proof.
  intros H. apply find_tag_spec in H as (k & H & _).
  apply tag_here_TagPairOf, TagPairOf_suffix in H as (pre & Hd & Hlen).
  exists (take k s ++ pre). split.
  - rewrite <- app_assoc, <- Hd, take_drop. trivial.
  - rewrite length_app. lia.
Qed.

Lemma tag_contents_blocks fuel s b :
  In b (tag_contents fuel open close ok s) ->
  exists k cap r, TagPairOf open close ok (drop k s) cap r /\ b = cap.
Proof.
  revert s. induction fuel as [|fuel IH]; intros s; [intros []|].
  cbn [tag_contents].
  destruct (find_tag open close ok s) as [[cap r]|] eqn:Hf; [|intros []].
  intros [<-|Hin].
  - apply find_tag_spec in Hf as (k & Hk & _).
    apply tag_here_TagPairOf in Hk. eauto.
  - destruct (find_tag_suffix _ _ _ Hf) as (pre & -> & _).
    destruct (IH _ Hin) as (k & cap' & r' & HT & ->).
    exists (length pre + k)%nat, cap', r'. split; trivial.
    rewrite <- drop_drop, drop_app_length. exact HT.
Qed.

End TagScanFacts.

Section LastModFacts.

Lemma search_find_tag d open close s i :
  search (fun x => CompilePattern_flags d true (tagPairRegex open close) x Some)
    s i =
  match find_tag open close (CharSetMatches_flags d true Dot) s with
  | Some (cap, r) => Some (mkState r (i + (length s - length r))%nat (Some cap))
  | None => None
  end.
Proof.
  revert i. induction s as [|a s IH]; intros i; cbn [search find_tag];
    rewrite tagPairRegex_here.
  - destruct (tag_here open close _ []) as [[cap r]|]; trivial.
  - destruct (tag_here open close _ (a :: s)) as [[cap r]|]; trivial.
    rewrite IH.
    destruct (find_tag open close _ s) as [[cap r]|] eqn:Hf; trivial.
    apply find_tag_suffix in Hf as (pre & -> & _).
    cbn [length]. rewrite !length_app. do 2 f_equal. lia.
Qed.

Lemma RegExp_exec_flags_find_tag d open close s lastIndex :
  (lastIndex <= length s)%nat ->
  RegExp_exec_flags d true (tagPairRegex open close) s lastIndex =
  match find_tag open close (CharSetMatches_flags d true Dot)
          (drop lastIndex s) with
  | Some (cap, r) => Some (mkState r (length s - length r)%nat (Some cap))
  | None => None
  end.
Proof.
  intros Hle. unfold RegExp_exec_flags.
  destruct (Nat.ltb_spec (length s) lastIndex) as [Hlt|_]; [lia|].
  rewrite search_find_tag.
  destruct (find_tag open close _ (drop lastIndex s)) as [[cap r]|] eqn:Hf;
    trivial.
  apply find_tag_suffix in Hf as (pre & Hd & _).
  assert (Hlen : length (drop lastIndex s) = (length pre + length r)%nat)
    by (rewrite Hd, length_app; trivial).
  rewrite length_drop in Hlen. rewrite length_drop. do 2 f_equal. lia.
Qed.

(** The body of the loop never throws; it adds the entry of the block. *)
Lemma block_entry_closed urlBlock results :
  block_entry urlBlock results =
  Some (results ++ match entry_of_block urlBlock with
                   | Some entry => [entry]
                   | None => []
                   end).
Proof.
  unfold block_entry, entry_of_block, block_lastmod. cbv zeta.
  rewrite RegExp_exec_find_match by lia. rewrite drop_0.
  destruct (find_match urlBlock) as [[cap r]|]; [|rewrite app_nil_r; trivial].
  cbn [capture1].
  rewrite RegExp_exec_flags_false.
  unfold lastmodRegex. rewrite RegExp_exec_flags_find_tag by lia.
  rewrite drop_0.
  change (CharSetMatches_flags false true Dot) with on_line.
  fold (is_http_url (trim cap)).
  destruct (find_tag lit_lastmod_open lit_lastmod_close on_line urlBlock)
    as [[m1 r1]|]; cbn [capture1 truthy_opt].
  - destruct (is_http_url (trim cap)); [|rewrite app_nil_r; trivial].
    destruct (truthy (trim m1)); trivial.
  - destruct (is_http_url (trim cap)); [|rewrite app_nil_r; trivial].
    trivial.
Qed.

Lemma blocks_loop_closed fuel xml lastIndex results :
  (lastIndex <= length xml)%nat ->
  (length xml - lastIndex < fuel)%nat ->
  blocks_loop fuel xml lastIndex results =
  EntriesDone
    (results ++ omap entry_of_block
                  (tag_contents fuel lit_url_open lit_url_close any_char
                     (drop lastIndex xml))).
Proof.
  revert lastIndex results.
  induction fuel as [|fuel IH]; intros lastIndex results Hle Hfuel; [lia|].
  cbn [blocks_loop tag_contents].
  unfold urlBlockRegex. rewrite RegExp_exec_flags_find_tag by exact Hle.
  change (CharSetMatches_flags true true Dot) with any_char.
  destruct (find_tag lit_url_open lit_url_close any_char (drop lastIndex xml))
    as [[cap r]|] eqn:Hf.
  - cbn [capture1 endIndex]. rewrite block_entry_closed.
    apply find_tag_suffix in Hf as (pre & Hd & Hpre).
    assert (Hxml : xml = (take lastIndex xml ++ pre) ++ r).
    { rewrite <- app_assoc, <- Hd, take_drop. trivial. }
    assert (Hlen : length xml = (lastIndex + length pre + length r)%nat).
    { rewrite Hxml at 1. rewrite !length_app, length_take. lia. }
    assert (Hr : drop (length xml - length r) xml = r).
    { rewrite Hxml at 2.
      replace (length xml - length r)%nat
        with (length (take lastIndex xml ++ pre)).
      - apply drop_app_length.
      - rewrite length_app, length_take. lia. }
    rewrite IH by lia.
    rewrite Hr, <- app_assoc. cbn [omap list_omap].
    destruct (entry_of_block cap); trivial.
  - cbn. rewrite app_nil_r. trivial.
Qed.

Lemma tag_contents_fuel open close ok fuel1 fuel2 s :
  (length s < fuel1)%nat -> (length s < fuel2)%nat ->
  tag_contents fuel1 open close ok s = tag_contents fuel2 open close ok s.
Proof.
  revert fuel2 s. induction fuel1 as [|fuel1 IH]; intros fuel2 s H1 H2; [lia|].
  destruct fuel2 as [|fuel2]; [lia|].
  cbn [tag_contents].
  destruct (find_tag open close ok s) as [[cap r]|] eqn:Hf; trivial.
  apply find_tag_suffix in Hf as (pre & -> & Hpre).
  rewrite length_app in *. f_equal. apply IH; lia.
Qed.

(** The scan of [extractURLs] is the one of the [loc] tags on a line. *)
Lemma find_match_find_tag s :
  find_match s = find_tag lit_loc_open lit_loc_close on_line s.
Proof.
  assert (Hscan : forall t, scan_content t = scan_to lit_loc_close on_line t).
  { induction t as [|a t IH]; cbn [scan_content scan_to].
    - trivial.
    - destruct (strip_ci lit_loc_close (a :: t)); trivial.
      unfold on_line at 1. destruct (isLineTerminator a); cbn [negb]; trivial.
      rewrite IH. trivial. }
  assert (Hhere : forall t, match_here t
                            = tag_here lit_loc_open lit_loc_close on_line t).
  { intros t. unfold match_here, tag_here.
    destruct (strip_ci lit_loc_open t); trivial.
    destruct (dropWhile _ l); trivial. }
  induction s as [|a s IH]; cbn [find_match find_tag]; rewrite Hhere; trivial.
  rewrite IH. trivial.
Qed.

Lemma omap_length_le {A B} (f : A -> option B) (l : list A) :
  (length (omap f l) <= length l)%nat.
Proof.
  induction l as [|a l IH]; cbn [omap list_omap length]; [lia|].
  destruct (f a); cbn [length]; lia.
Qed.

End LastModFacts.

(** X21. URLs with their dates. [extractURLsWithLastMod] never throws.
    It reads the text block by block, a block being what stands between
    an opening tag that begins with [<url] and the first [</url>] after
    it, over any number of lines, each block starting at or after the end
    of the one before. A block gives an entry when its first pair of
    [loc] tags, read as [extractURLs] reads them, holds, once trimmed,
    an http(s) URL; the entry has that URL, which lies on one line, and
    the trimmed content of the first pair of [lastmod] tags of the block,
    or no date when there is none or it is empty. The entries come in
    the order of the blocks. *)
Theorem extractURLsWithLastMod_spec (xmlContent : jsstring) :
  let entries := extractURLsWithLastMod xmlContent in
  (forall fuel, (length xmlContent < fuel)%nat ->
     blocks_loop fuel xmlContent 0 [] = EntriesDone entries) /\
  entries = omap entry_of_block (url_blocks xmlContent) /\
  (forall urlBlock, In urlBlock (url_blocks xmlContent) ->
     exists k r,
       TagPairOf lit_url_open lit_url_close any_char
         (drop k xmlContent) urlBlock r) /\
  (forall entry, In entry entries ->
     exists urlBlock,
       In urlBlock (url_blocks xmlContent) /\
       UrlWithLastMod.url entry <> [] /\
       (startsWith (UrlWithLastMod.url entry) lit_http
        || startsWith (UrlWithLastMod.url entry) lit_https) = true /\
       Forall (fun a => isLineTerminator a = false) (UrlWithLastMod.url entry) /\
       In (UrlWithLastMod.url entry) (extractURLs urlBlock) /\
       UrlWithLastMod.lastmod entry <> Some [] /\
       (forall m, UrlWithLastMod.lastmod entry = Some m ->
          exists k m1 r,
            TagPairOf lit_lastmod_open lit_lastmod_close on_line
              (drop k urlBlock) m1 r /\ m = trim m1)) /\
  (length entries <= length (url_blocks xmlContent))%nat.
Proof.
  cbv zeta.
  assert (Hloop : forall fuel, (length xmlContent < fuel)%nat ->
            blocks_loop fuel xmlContent 0 [] =
            EntriesDone (omap entry_of_block (url_blocks xmlContent))).
  { intros fuel Hfuel. rewrite blocks_loop_closed by lia.
    rewrite drop_0. cbn [app]. unfold url_blocks.
    rewrite (tag_contents_fuel _ _ _ fuel (S (length xmlContent))) by lia.
    trivial. }
  assert (Hclosed : extractURLsWithLastMod xmlContent
                    = omap entry_of_block (url_blocks xmlContent)).
  { unfold extractURLsWithLastMod. rewrite Hloop by lia. trivial. }
  rewrite Hclosed.
  split; [exact Hloop|]. split; [trivial|]. split; [|split].
  - intros urlBlock Hin. unfold url_blocks in Hin.
    apply tag_contents_blocks in Hin as (k & cap & r & HT & ->). eauto.
  - intros entry Hin.
    apply list_elem_of_In, list_elem_of_omap in Hin as (urlBlock & Hb & He).
    exists urlBlock. split; [apply list_elem_of_In; exact Hb|].
    unfold entry_of_block in He.
    destruct (find_match urlBlock) as [[cap r]|] eqn:Hf; [|discriminate].
    destruct (is_http_url (trim cap)) eqn:Hhttp; [|discriminate].
    injection He as <-. cbn [UrlWithLastMod.url UrlWithLastMod.lastmod].
    pose proof Hhttp as Hh. unfold is_http_url in Hh.
    apply andb_true_iff in Hh as [Hne Hh].
    split; [destruct (trim cap); [discriminate|congruence]|].
    split; [exact Hh|].
    split.
    { apply Forall_trim. pose proof Hf as Hf'.
      apply find_match_spec in Hf' as (k & Hk & _).
      apply match_here_TagPair in Hk
        as (o & attrs & cl & _ & _ & _ & _ & Hline & _). exact Hline. }
    split.
    { rewrite extractURLs_closed. cbn [loc_contents]. rewrite Hf.
      rewrite fmap_cons. cbn [List.filter]. rewrite Hhttp. left. trivial. }
    unfold block_lastmod.
    destruct (find_tag lit_lastmod_open lit_lastmod_close on_line urlBlock)
      as [[m1 r1]|] eqn:Hm; [|split; [discriminate|discriminate]].
    destruct (truthy (trim m1)) eqn:Ht; [|split; [discriminate|discriminate]].
    split; [destruct (trim m1); [discriminate|congruence]|].
    intros m [= <-].
    apply find_tag_spec in Hm as (k & Hk & _).
    apply tag_here_TagPairOf in Hk. eauto.
  - apply omap_length_le.
Qed.

(** ** A second pass on the same day *)

Section PassAgain.

Lemma written_marker_kept writes m d t :
  (forall k v, In (k, v) writes -> k = lastUpdateKey d -> v = t) ->
  m !! lastUpdateKey d = Some t ->
  written writes m !! lastUpdateKey d = Some t.
Proof.
  revert m. induction writes as [|[k v] more IH]; intros m Hw Hm; trivial.
  unfold written in *. cbn [fold_left fst snd].
  apply IH; [intros k' v' Hin; apply Hw; right; exact Hin|].
  destruct (jsstring_eq_dec k (lastUpdateKey d)) as [->|Hne].
  - rewrite lookup_insert_eq. f_equal.
    apply (Hw (lastUpdateKey d) v); [left|]; trivial.
  - rewrite lookup_insert_ne by exact Hne. exact Hm.
Qed.

Lemma snapshot_writes_marker h t body cur d k v :
  In (k, v) (snapshot_writes h t body cur) -> k = lastUpdateKey d -> v = t.
Proof.
  destruct (keys_distinct d h t) as (K1 & K2 & K3 & _).
  unfold snapshot_writes. rewrite in_app_iff. intros [H|H] ->.
  - destruct cur as [[|c ct]|]; simpl in H; try tauto.
    destruct H as [H|[]]. injection H as H _. congruence.
  - simpl in H. destruct H as [H|[H|[H|[]]]].
    + injection H as H _. congruence.
    + injection H as H _. congruence.
    + injection H as _ H. congruence.
Qed.

(** A marker that says today stays so through any attempt. *)
Lemma downloadSitemap_marker_kept w url force st st' r d :
  downloadSitemap w url force st = (st', Normal r) ->
  kv st !! lastUpdateKey d = Some (today w) ->
  kv st' !! lastUpdateKey d = Some (today w).
Proof.
  intros Hrun Hm.
  apply downloadSitemap_run in Hrun
    as [[-> _]|(u & _ & _ & _ & _ & [[-> _]|Hw])]; trivial.
  destruct Hw as (response & newContent & n & _ & _ & _ & Hkv & _).
  cbv zeta in Hkv. rewrite Hkv.
  apply written_marker_kept; trivial.
  intros k v Hin. apply (snapshot_writes_marker (hostname u) (today w)
    newContent (kv st !! currentKey (hostname u))).
  rewrite <- (take_drop n). apply in_or_app. left. exact Hin.
Qed.

(** After a success, the marker of the domain says today. *)
Lemma downloadSitemap_success_marker w url u st st' r :
  downloadSitemap w url false st = (st', Normal r) ->
  success r = true ->
  URL_parse w url = Normal u ->
  kv st' !! lastUpdateKey (hostname u) = Some (today w).
Proof.
  intros Hrun Hs Hu.
  apply downloadSitemap_run in Hrun
    as [[-> [[Hf _]|(u' & Hu' & _ & Hb & _)]]
       |(u' & Hu' & _ & _ & _ & [[_ Hf]|Hw])]; try congruence.
  - rewrite Hu in Hu'. injection Hu' as <-.
    cbn [negb andb] in Hb. apply strict_equals_true in Hb. exact Hb.
  - rewrite Hu in Hu'. injection Hu' as <-.
    destruct Hw as (response & newContent & n & _ & _ & _ & Hkv & Hr).
    cbv zeta in Hkv, Hr. destruct (Hr Hs) as [-> _].
    rewrite firstn_all in Hkv. rewrite Hkv.
    apply (written_lookup (hostname u) (today w) newContent).
Qed.

(** With the marker at today, a plain attempt leaves the state as it
    is. *)
Lemma downloadSitemap_marked_idle w url st st' r :
  (forall u, URL_parse w url = Normal u ->
             kv st !! lastUpdateKey (hostname u) = Some (today w)) ->
  downloadSitemap w url false st = (st', Normal r) ->
  st' = st.
Proof.
  intros Hm Hrun.
  apply downloadSitemap_run in Hrun as [[-> _]|(u & Hu & _ & Hb & _)]; trivial.
  rewrite (Hm u Hu) in Hb. cbn [negb andb strict_equals] in Hb.
  rewrite bool_decide_eq_true_2 in Hb by trivial. discriminate.
Qed.

Lemma addFeed_cases w url st st' r :
  addFeed w url st = (st', Normal r) ->
  (st' = st /\ success r = false) \/
  exists st1 r1,
    downloadSitemap w url false st = (st1, Normal r1) /\
    (success r = true -> success r1 = true) /\
    (st' = st1 \/
     method_includes w (registry_view w st) url = Normal false /\
     exists text,
       st' = mkStore (<[feedsKey := text]> (kv st1)) (requests st1)).
Proof.
  intros Hadd.
  destruct (downloadSitemap_total w url false st) as (st1 & r1 & Hrun).
  rewrite (addFeed_closed w url st st1 r1 Hrun) in Hadd.
  destruct (method_includes w (registry_view w st) url) as [e|[|]].
  - injection Hadd as <- <-. left. auto.
  - right. exists st1, r1. split; [exact Hrun|].
    destruct (success r1) eqn:H1; injection Hadd as <- <-;
      (split; [congruence|auto]).
  - right. exists st1, r1. split; [exact Hrun|].
    destruct (success r1) eqn:H1;
      [|injection Hadd as <- <-; split; [congruence|auto]].
    destruct (method_push w (registry_view w st) url);
      [injection Hadd as <- <-; split; [discriminate|auto]|].
    destruct (kv_put_fault w feedsKey); injection Hadd as <- <-.
    + split; [discriminate|auto].
    + split; [trivial|]. right. split; [trivial|]. eauto.
Qed.

Lemma addFeed_marker_kept w url st st' r d :
  addFeed w url st = (st', Normal r) ->
  kv st !! lastUpdateKey d = Some (today w) ->
  kv st' !! lastUpdateKey d = Some (today w).
Proof.
  intros Hadd Hm.
  destruct (keys_distinct d d (today w)) as (_ & _ & _ & _ & _ & _ & K & _).
  apply addFeed_cases in Hadd
    as [[-> _]|(st1 & r1 & Hrun & _ & [->|(_ & text & ->)])]; trivial.
  - apply (downloadSitemap_marker_kept _ _ _ _ _ _ _ Hrun Hm).
  - cbn [kv]. rewrite lookup_insert_ne by exact K.
    apply (downloadSitemap_marker_kept _ _ _ _ _ _ _ Hrun Hm).
Qed.

Lemma addFeed_success_marker w url u st st' r :
  addFeed w url st = (st', Normal r) ->
  success r = true ->
  URL_parse w url = Normal u ->
  kv st' !! lastUpdateKey (hostname u) = Some (today w).
Proof.
  intros Hadd Hs Hu.
  destruct (keys_distinct (hostname u) (hostname u) (today w))
    as (_ & _ & _ & _ & _ & _ & K & _).
  apply addFeed_cases in Hadd
    as [[_ Hf]|(st1 & r1 & Hrun & Hs1 & [->|(_ & text & ->)])];
    [congruence| |].
  - apply (downloadSitemap_success_marker _ _ _ _ _ _ Hrun (Hs1 Hs) Hu).
  - cbn [kv]. rewrite lookup_insert_ne by exact K.
    apply (downloadSitemap_success_marker _ _ _ _ _ _ Hrun (Hs1 Hs) Hu).
Qed.

Lemma addFeed_marked_idle w url st st' r :
  method_includes w (registry_view w st) url = Normal true ->
  (forall u, URL_parse w url = Normal u ->
             kv st !! lastUpdateKey (hostname u) = Some (today w)) ->
  addFeed w url st = (st', Normal r) ->
  st' = st.
Proof.
  intros Hinc Hm Hadd.
  apply addFeed_cases in Hadd
    as [[-> _]|(st1 & r1 & Hrun & _ & [->|(Hno & _)])]; trivial.
  - apply (downloadSitemap_marked_idle _ _ _ _ _ Hm Hrun).
  - congruence.
Qed.

Lemma registered_includes w st items url :
  registry_view w st = JArr items -> JStr url ∈ items ->
  method_includes w (registry_view w st) url = Normal true.
Proof.
  intros -> Hin. cbn [method_includes]. f_equal.
  apply existsb_exists. exists (JStr url). split.
  - apply list_elem_of_In. exact Hin.
  - cbn [is_string]. apply bool_decide_eq_true_2. trivial.
Qed.

(** What the loop of the scheduled pass does to the markers, when
    every turn runs on the day [day]. *)
Lemma performScheduledMonitoring_at_marks w day feeds :
  forall moments p st st' p',
    (forall i, (i < length feeds)%nat ->
       today (at_moment w (moments i)) = day) ->
    pass_loop_at performScheduledMonitoring_turn w moments feeds p st
      = (st', Normal p') ->
    (forall d, kv st !! lastUpdateKey d = Some day ->
               kv st' !! lastUpdateKey d = Some day) /\
    (errorCount p' = errorCount p ->
     forall url u, url ∈ feeds -> URL_parse w url = Normal u ->
       kv st' !! lastUpdateKey (hostname u) = Some day).
Proof.
  induction feeds as [|url feeds IH]; intros moments p st st' p' Hday Hrun.
  - injection Hrun as <- <-. split; [auto|].
    intros _ url u Hin. apply elem_of_nil in Hin. destruct Hin.
  - cbn [pass_loop_at] in Hrun. unfold bind at 1 in Hrun.
    destruct (performScheduledMonitoring_turn_run
                (at_moment w (moments 0%nat)) url p st)
      as (st1 & r & Hadd & p1 & Hturn & Hspec & Hr).
    rewrite Hturn in Hrun.
    assert (Hday0 : today (at_moment w (moments 0%nat)) = day)
      by (apply Hday; cbn [length]; lia).
    destruct (IH (fun i => moments (S i)) p1 st1 st' p') as [Hmono Hall];
      [intros i Hi; apply Hday; cbn [length]; lia|exact Hrun|].
    destruct (performScheduledMonitoring_at_run w feeds
                (fun i => moments (S i)) p1 st1)
      as (st2 & p2 & Hrun2 & _ & He2 & _).
    rewrite Hrun in Hrun2. injection Hrun2 as <- <-.
    destruct Hspec as (_ & He1 & _).
    split.
    + intros d Hd. apply Hmono. rewrite <- Hday0 in Hd |- *.
      apply (addFeed_marker_kept _ _ _ _ _ _ Hadd Hd).
    + intros Herr url' u Hin Hu.
      assert (Heq1 : errorCount p1 = errorCount p) by lia.
      assert (Heq2 : errorCount p' = errorCount p1) by lia.
      apply elem_of_cons in Hin as [->|Hin]; [|apply (Hall Heq2 url' u Hin Hu)].
      apply Hmono. destruct (success r) eqn:Hs; [|lia].
      rewrite <- Hday0.
      apply (addFeed_success_marker _ _ _ _ _ _ Hadd Hs Hu).
Qed.

(** The loop over registered sources whose markers say [day] changes
    nothing on that day, when every turn reads the registry. *)
Lemma performScheduledMonitoring_at_idle w day text items feeds :
  text <> [] ->
  JSON_parse w text = Normal (JArr items) ->
  (forall url, url ∈ feeds -> JStr url ∈ items) ->
  forall moments p st,
    kv st !! feedsKey = Some text ->
    (forall i, (i < length feeds)%nat ->
       today (at_moment w (moments i)) = day /\
       get_rejected (moments i) feedsKey = None) ->
    (forall url u, url ∈ feeds -> URL_parse w url = Normal u ->
       kv st !! lastUpdateKey (hostname u) = Some day) ->
    exists p',
      pass_loop_at performScheduledMonitoring_turn w moments feeds p st
        = (st, Normal p') /\
      processedCount p' = (processedCount p + length feeds)%nat.
Proof.
  intros Hne Hparse.
  induction feeds as [|url feeds IH]; intros Hreg moments p st Hk Hm Hmark.
  - exists p. cbn [pass_loop_at length]. unfold ret. split; [trivial|lia].
  - destruct (performScheduledMonitoring_turn_run
                (at_moment w (moments 0%nat)) url p st)
      as (st1 & r & Hadd & p1 & Hturn & Hspec & _).
    destruct (Hm 0%nat) as [Hday0 Hread0]; [cbn [length]; lia|].
    assert (Hst : st1 = st).
    { apply (addFeed_marked_idle (at_moment w (moments 0%nat)) url st st1 r);
        trivial.
      - apply (registered_includes _ st items); [|apply Hreg, list_elem_of_here].
        apply (registry_view_stored w (moments 0%nat) st text items); trivial.
      - intros u Hu. rewrite Hday0.
        apply (Hmark url u); [apply list_elem_of_here|exact Hu]. }
    subst st1.
    destruct (IH (fun url' H => Hreg url' (list_elem_of_further _ _ _ H))
                 (fun i => moments (S i)) p1 st Hk) as (p' & Hrun & Hc).
    { intros i Hi. apply Hm. cbn [length]. lia. }
    { intros url' u Hin. apply Hmark. apply list_elem_of_further. exact Hin. }
    exists p'. cbn [pass_loop_at]. unfold bind at 1. rewrite Hturn.
    split; [exact Hrun|].
    destruct Hspec as (Hp1 & _). cbn [length]. lia.
Qed.

End PassAgain.

(** X22. A second pass on the same day, every turn of both passes
    running at a moment of its own. Let the registry be stored as a list
    that holds every source of the list, let every turn of the two
    passes fall on the same day, and let no turn have its read of the
    registry rejected. When the first scheduled pass counted no error,
    the marker of the domain of every source says that day, and the
    second pass changes nothing: it issues no request and writes
    nothing, although it counts every source as processed. *)
Theorem performScheduledMonitoring_loop_again (w : World)
    (feeds : list jsstring) (text : jsstring) (items : list jsvalue)
    (st st1 : Store) (p1 : PassState) (moments1 moments2 : nat -> Moment)
    (day : jsstring) :
  kv st !! feedsKey = Some text ->
  text <> [] ->
  JSON_parse w text = Normal (JArr items) ->
  (forall url, url ∈ feeds -> JStr url ∈ items) ->
  (forall i, (i < length feeds)%nat ->
     today (at_moment w (moments1 i)) = day /\
     get_rejected (moments1 i) feedsKey = None) ->
  (forall i, (i < length feeds)%nat ->
     today (at_moment w (moments2 i)) = day /\
     get_rejected (moments2 i) feedsKey = None) ->
  performScheduledMonitoring_loop_at w moments1 feeds st = (st1, Normal p1) ->
  errorCount p1 = 0%nat ->
  (forall url u, url ∈ feeds -> URL_parse w url = Normal u ->
     kv st1 !! lastUpdateKey (hostname u) = Some day) /\
  exists p2,
    performScheduledMonitoring_loop_at w moments2 feeds st1
      = (st1, Normal p2) /\
    processedCount p2 = length feeds.
Proof.
  unfold performScheduledMonitoring_loop_at.
  intros Hk Hne Hparse Hreg Hm1 Hm2 Hrun Herr.
  destruct (performScheduledMonitoring_at_marks w day feeds moments1
              _ _ _ _ (fun i Hi => proj1 (Hm1 i Hi)) Hrun) as [_ Hmarks].
  specialize (Hmarks Herr).
  split; [exact Hmarks|].
  pose proof (performScheduledMonitoring_at_keeps_registry w text items feeds
                Hne Hparse Hreg moments1 _ st st1 p1 Hk
                (fun i Hi => proj2 (Hm1 i Hi)) Hrun) as Hkeep.
  destruct (performScheduledMonitoring_at_idle w day text items feeds
              Hne Hparse Hreg moments2 (mkPass [] [] 0 0) st1)
    as (p2 & Hrun2 & Hc); trivial.
  - rewrite Hkeep. exact Hk.
  - exists p2. split; [exact Hrun2|]. exact Hc.
Qed.

(** A witness of X22: the pass over the two sources of the example
    registry, run twice; the second time the site is down. *)
Lemma performScheduledMonitoring_loop_again_witness :
  let run := performScheduledMonitoring_loop_at world_day3 moments_day3
               [ex_url_b; ex_url] store_two_sources in
  let later := fun _ : nat => mkMoment ex_now net_down no_fault no_fault in
  requests (store_of run) = [ex_url_b; ex_url] /\
  exists p2,
    performScheduledMonitoring_loop_at world_day3 later [ex_url_b; ex_url]
      (store_of run) = (store_of run, Normal p2) /\
    processedCount p2 = 2%nat.
Proof.
  cbv zeta.
  set (run := performScheduledMonitoring_loop_at world_day3 moments_day3
                [ex_url_b; ex_url] store_two_sources).
  assert (Hrun : run = (store_of run, Normal (pass_of run)))
    by (vm_compute; reflexivity).
  split; [vm_compute; reflexivity|].
  apply (performScheduledMonitoring_loop_again world_day3
           [ex_url_b; ex_url]
           ([91; 34] ++ ex_url_b ++ [34; 44; 34] ++ ex_url ++ [34; 93])
           [JStr ex_url_b; JStr ex_url]
           store_two_sources (store_of run) (pass_of run)
           moments_day3
           (fun _ : nat => mkMoment ex_now net_down no_fault no_fault)
           ex_today).
  - vm_compute. reflexivity.
  - vm_compute. discriminate.
  - vm_compute. reflexivity.
  - intros url Hin. apply elem_of_cons in Hin as [->|Hin].
    + apply list_elem_of_here.
    + apply list_elem_of_singleton in Hin as ->.
      apply list_elem_of_further, list_elem_of_here.
  - intros i _. split; [vm_compute|]; reflexivity.
  - intros i _. split; [vm_compute|]; reflexivity.
  - exact Hrun.
  - vm_compute. reflexivity.
Defined.

(** ** The throttle, on the states the operations produce *)

Section ReachableFacts.

Lemma written_latest_kept writes m d :
  (forall k v, In (k, v) writes -> k = latestKey d -> v <> []) ->
  m !! latestKey d <> Some [] ->
  written writes m !! latestKey d <> Some [].
Proof.
  revert m. induction writes as [|[k v] more IH]; intros m Hw Hm; trivial.
  unfold written in *. cbn [fold_left fst snd].
  apply IH; [intros k' v' Hin; apply Hw; right; exact Hin|].
  destruct (jsstring_eq_dec k (latestKey d)) as [->|Hne].
  - rewrite lookup_insert_eq. intros [= Hv].
    apply (Hw (latestKey d) v); [left; trivial|trivial|exact Hv].
  - rewrite lookup_insert_ne by exact Hne. exact Hm.
Qed.

Lemma snapshot_writes_latest h t body cur d k v :
  In (k, v) (snapshot_writes h t body cur) -> k = latestKey d -> v <> [].
Proof.
  destruct (keys_distinct h d t) as (K1 & K2 & K3 & K4 & K5 & K6 & _).
  destruct (keys_distinct d h t) as (_ & _ & _ & _ & _ & K7 & _).
  unfold snapshot_writes. rewrite in_app_iff. intros [H|H] ->.
  - destruct cur as [[|c ct]|]; simpl in H; try tauto.
    destruct H as [H|[]]. injection H as _ <-. discriminate.
  - simpl in H. destruct H as [H|[H|[H|[]]]].
    + injection H as H _. congruence.
    + injection H as H _. congruence.
    + injection H as H _. congruence.
Qed.

Lemma downloadSitemap_latest_kept w url force st d :
  kv st !! latestKey d <> Some [] ->
  kv (fst (downloadSitemap w url force st)) !! latestKey d <> Some [].
Proof.
  intros Hm.
  destruct (downloadSitemap_total w url force st) as (st' & r & Hrun).
  rewrite Hrun. cbn [fst].
  destruct (downloadSitemap_store_prefix _ _ _ _ _ _ Hrun)
    as [->|(u & newContent & n & _ & ->)]; trivial.
  apply written_latest_kept; trivial.
  intros k v Hin. apply (snapshot_writes_latest (hostname u) (today w)
    newContent (kv st !! currentKey (hostname u))).
  rewrite <- (take_drop n). apply in_or_app. left. exact Hin.
Qed.

(** The code stores a [latest] snapshot only from a [current] snapshot
    that is not empty: no state it produces holds an empty one. *)
Lemma Reachable_latest st d :
  Reachable st -> kv st !! latestKey d <> Some [].
Proof.
  destruct (keys_distinct d d []) as (_ & _ & _ & _ & _ & _ & _ & _ & K & _).
  induction 1 as [|w url force st _ IH|w url st _ IH|w url st _ IH].
  - cbn [kv]. rewrite lookup_empty. discriminate.
  - apply downloadSitemap_latest_kept, IH.
  - destruct (addFeed_total w url st) as (st' & r & Hadd).
    rewrite Hadd. cbn [fst].
    apply addFeed_cases in Hadd
      as [[-> _]|(st1 & r1 & Hrun & _ & [->|(_ & text & ->)])]; trivial.
    + pose proof (downloadSitemap_latest_kept w url false st d IH) as H1.
      rewrite Hrun in H1. exact H1.
    + cbn [kv]. rewrite lookup_insert_ne by exact K.
      pose proof (downloadSitemap_latest_kept w url false st d IH) as H1.
      rewrite Hrun in H1. exact H1.
  - rewrite removeFeed_closed.
    destruct (method_includes w (registry_view w st) url) as [e|[|]]; trivial.
    destruct (method_splice_indexOf w (registry_view w st) url); trivial.
    destruct (kv_put_fault w feedsKey); trivial.
    cbn [fst kv]. rewrite lookup_insert_ne by exact K. exact IH.
Qed.

Lemma today_at_moment w m :
  clock m = now_toISOString w -> today (at_moment w m) = today w.
Proof. unfold today. cbn. intros ->. trivial. Qed.

End ReachableFacts.

(** C1, as the code has it. In a state that the operations have
    produced, for a domain whose Last-Update Marker is today,
    [downloadSitemap] without [forceDownload] issues no request and writes
    nothing (the state it returns is the state it was given); it returns
    success with no archived key, and [newUrls] is
    [compareSitemaps current latest] when both snapshots exist, and empty
    when either is missing. A second identical call, at any later moment
    of the same day, returns the same. All this when the reads of the
    store succeed, those of the second call as well: a call one of
    whose reads is rejected fails, and still requests and writes
    nothing. *)
Theorem downloadSitemap_throttle (w : World) (url : jsstring) (u : URLRecord)
    (st : Store) :
  Reachable st ->
  URL_parse w url = Normal u ->
  kv_get_fault w (lastUpdateKey (hostname u)) = None ->
  kv_get_fault w (currentKey (hostname u)) = None ->
  kv_get_fault w (latestKey (hostname u)) = None ->
  kv st !! lastUpdateKey (hostname u) = Some (today w) ->
  exists r,
    downloadSitemap w url false st = (st, Normal r) /\
    (forall m,
       today (at_moment w m) = today w ->
       get_rejected m (lastUpdateKey (hostname u)) = None ->
       get_rejected m (currentKey (hostname u)) = None ->
       get_rejected m (latestKey (hostname u)) = None ->
       downloadSitemap (at_moment w m) url false
         (fst (downloadSitemap w url false st)) = (st, Normal r)) /\
    requests (fst (downloadSitemap w url false st)) = requests st /\
    kv (fst (downloadSitemap w url false st)) = kv st /\
    success r = true /\
    datedFile r = None /\
    newUrls r =
      match kv st !! currentKey (hostname u), kv st !! latestKey (hostname u) with
      | Some current, Some latest => compareSitemaps current latest
      | _, _ => []
      end /\
    (forall m e,
       today (at_moment w m) = today w ->
       get_rejected m (lastUpdateKey (hostname u)) = Some e \/
       get_rejected m (lastUpdateKey (hostname u)) = None /\
       (get_rejected m (currentKey (hostname u)) = Some e \/
        get_rejected m (currentKey (hostname u)) = None /\
        get_rejected m (latestKey (hostname u)) = Some e) ->
       downloadSitemap (at_moment w m) url false st =
       (st, Normal (mkResult false (msg_download_failed ++ message e)
                      None []))).
Proof.
  intros Hreach Hurl Hg1 Hg2 Hg3 Hmark.
  assert (Hfail : forall m e,
            today (at_moment w m) = today w ->
            get_rejected m (lastUpdateKey (hostname u)) = Some e \/
            get_rejected m (lastUpdateKey (hostname u)) = None /\
            (get_rejected m (currentKey (hostname u)) = Some e \/
             get_rejected m (currentKey (hostname u)) = None /\
             get_rejected m (latestKey (hostname u)) = Some e) ->
            downloadSitemap (at_moment w m) url false st =
            (st, Normal (mkResult false (msg_download_failed ++ message e)
                           None []))).
  { intros m e Hday Hrej.
    apply (downloadSitemap_throttled_rejected (at_moment w m) url u st e);
      trivial.
    rewrite Hday. exact Hmark. }
  pose proof (Reachable_latest st (hostname u) Hreach) as Hlatest.
  pose proof (downloadSitemap_throttled w url u st Hurl Hg1 Hg2 Hg3 Hmark)
    as Hrun.
  eexists. split; [exact Hrun|]. rewrite Hrun. cbn [fst].
  split.
  { intros m Hday H1 H2 H3.
    apply (downloadSitemap_throttled (at_moment w m) url u st); trivial.
    rewrite Hday. exact Hmark. }
  split; [trivial|]. split; [trivial|].
  destruct (kv st !! currentKey (hostname u)) as [[|c ct]|];
    destruct (kv st !! latestKey (hostname u)) as [[|l lt]|];
    cbn [success datedFile newUrls]; repeat split; trivial.
  congruence.
Qed.

(** Against C1 as the specification words it, which promises success
    whenever the marker is today. The store is the one that the fetch of
    the third day leaves, so the marker is today; later that day the read
    of the [current] snapshot is rejected, and the call answers with a
    failure, not with the diff. *)
Lemma downloadSitemap_throttle_read_failure :
  let st := store_of (downloadSitemap world_day3 ex_url false store_day1) in
  let w := world_current_unreadable in
  Reachable st /\
  URL_parse w ex_url = Normal (mkURL ex_domain (js "/sitemap.xml")) /\
  today w = today world_day3 /\
  kv st !! lastUpdateKey ex_domain = Some (today w) /\
  kv st !! currentKey ex_domain = Some ex_body2 /\
  kv st !! latestKey ex_domain = Some ex_body1 /\
  compareSitemaps ex_body2 ex_body1 = [js "https://a.com/2"] /\
  exists r,
    downloadSitemap w ex_url false st = (st, Normal r) /\
    success r = false /\
    newUrls r = [].
Proof.
  cbv zeta. split.
  { unfold store_of, store_day1, empty_store. repeat constructor. }
  repeat split; try (vm_compute; reflexivity).
  exists (result_of (downloadSitemap world_current_unreadable ex_url false
            (store_of (downloadSitemap world_day3 ex_url false store_day1)))).
  repeat split; vm_compute; reflexivity.
Qed.

(** A witness of C1: the store that the fetch of the third day leaves;
    when the site is down later that day, the throttled call still
    reports the URL that [current] has and [latest] has not. *)
Lemma downloadSitemap_throttle_witness :
  let w := example_world ex_now net_down no_fault no_fault in
  let st := store_of (downloadSitemap world_day3 ex_url false store_day1) in
  exists r,
    downloadSitemap w ex_url false st = (st, Normal r) /\
    success r = true /\
    newUrls r = [js "https://a.com/2"].
Proof.
  cbv zeta.
  destruct (downloadSitemap_throttle
              (example_world ex_now net_down no_fault no_fault) ex_url
              (mkURL ex_domain (js "/sitemap.xml"))
              (store_of (downloadSitemap world_day3 ex_url false store_day1)))
    as (r & Hrun & _ & _ & _ & Hs & _ & Hn & _).
  - unfold store_of, store_day1, empty_store. repeat constructor.
  - vm_compute. reflexivity.
  - reflexivity.
  - reflexivity.
  - reflexivity.
  - vm_compute. reflexivity.
  - exists r. split; [exact Hrun|]. split; [exact Hs|].
    rewrite Hn. vm_compute. reflexivity.
Defined.
